(** * Pattern fuser (cinn::fusion) and the CPU unpool kernels (phi)

    A shallow embedding of [paddle/cinn/operator_fusion/pattern_fuser.h]
    and of [paddle/phi/kernels/cpu/unpool_kernel.cc], with the properties
    their description states. *)

From Stdlib Require Import ZArith Lia.
From stdpp Require Import base decidable option list gmap strings.

Open Scope Z_scope.

Set Warnings "-register-all".

(** * Outcomes of a call

    A call returns a value, throws ([PADDLE_ENFORCE*], [PADDLE_THROW]: an
    exception that ends the current fusion attempt or kernel launch), or
    leaves the behaviour C++ defines (an index outside a [std::vector] or a
    buffer, [back()] of an empty vector, signed overflow). *)

Inductive ErrorType :=
  | PreconditionNotMet
  | Unimplemented
  | InvalidArgument
  | EnforceNotMet
  | BadVariantAccess.

Inductive Result (A : Type) :=
  | Ok (a : A)
  | Fatal (ty : ErrorType) (msg : string)
  | Undefined.
Arguments Ok {A} a.
Arguments Fatal {A} ty msg.
Arguments Undefined {A}.

#[global] Instance Result_ret : MRet Result := fun _ a => Ok a.
#[global] Instance Result_bind : MBind Result := fun _ _ f r =>
  match r with
  | Ok a => f a
  | Fatal ty msg => Fatal ty msg
  | Undefined => Undefined
  end.

#[global] Instance Result_fmap : FMap Result := fun _ _ f r =>
  match r with
  | Ok a => Ok (f a)
  | Fatal ty msg => Fatal ty msg
  | Undefined => Undefined
  end.

#[global] Instance ErrorType_eq_dec : EqDecision ErrorType.
Proof. solve_decision. Defined.

Definition is_Ok {A} (r : Result A) : bool :=
  match r with Ok _ => true | _ => false end.

Definition is_Fatal {A} (r : Result A) : bool :=
  match r with Fatal _ _ => true | _ => false end.

(** [PADDLE_ENFORCE(cond, msg)] *)
Definition PADDLE_ENFORCE (cond : bool) (msg : string) : Result unit :=
  if cond then Ok tt else Fatal EnforceNotMet msg.

(** [v[i]] on a [std::vector]: outside the vector the behaviour is undefined. *)
Definition at_ {A} (v : list A) (i : Z) : Result A :=
  if decide (0 ≤ i)
  then match v !! Z.to_nat i with Some x => Ok x | None => Undefined end
  else Undefined.

(** Monadic map over a vector, left to right. *)
Fixpoint mapR {A B} (f : A → Result B) (l : list A) : Result (list B) :=
  match l with
  | [] => Ok []
  | x :: l' => y ← f x; ys ← mapR f l'; Ok (y :: ys)
  end.

(** A [for] loop over a vector whose body may throw. *)
Fixpoint foldlR {A B} (f : A → B → Result A) (a : A) (l : list B) : Result A :=
  match l with
  | [] => Ok a
  | x :: l' => a' ← f a x; foldlR f a' l'
  end.

(** [v.back()] *)
Definition back {A} (v : list A) : Result A :=
  match last v with Some x => Ok x | None => Undefined end.

Module Fusion.

(** * Data model *)

(** [pir::Operation*] and [pir::Value]: nodes and edges of the operator graph,
    owned by the graph and compared by identity. *)
Abbreviation Operation := nat (only parsing).
Abbreviation Value := nat (only parsing).

(** Modelled from the spec: the pattern kind of an operation (reduction,
    elementwise, broadcast, injective or other), [hlir::framework::OpPatternKind]
    of [hlir/framework/op.h]. *)
Inductive OpPatternKind :=
  | kElementWise
  | kBroadcast
  | kInjective
  | kReduction
  | kOther.

#[global] Instance OpPatternKind_eq_dec : EqDecision OpPatternKind.
Proof. solve_decision. Defined.

(** Modelled from the spec: [symbol::DimExpr], a symbolic dimension-size
    expression. The code only compares two of them and compares one with the
    literal [1]. *)
Inductive DimExpr :=
  | DimInt (n : Z)
  | DimSym (name : string).

#[global] Instance DimExpr_eq_dec : EqDecision DimExpr.
Proof. solve_decision. Defined.

Abbreviation LoopExprs := (list DimExpr) (only parsing).

(** Modelled from the spec: [ValueDim], one axis of one tensor value, a pair
    of a value handle and an axis index. *)
Record ValueDim := mkValueDim { v_ : Value; idx_ : Z }.

#[global] Instance ValueDim_eq_dec : EqDecision ValueDim.
Proof. solve_decision. Defined.

(** What the operator graph and shape inference supply: the queries of
    [operator_fusion/utils.h] and of the graph that the fuser calls, taken as
    parameters. *)
Record OpGraph := {
  GetOpPatternKind : Operation → OpPatternKind;
  op_result : Operation → Z → Value;
  op_operand_source : Operation → Z → Value;
  FindDownstreamOps : Operation → list Operation;
  FindUserOp : list Operation → Value → list Operation;
  GetDimExprsFromValue : Value → LoopExprs;
  GetAllValueDimFromValue : Value → list ValueDim;
  GetReduceAxisIdx : Operation → list Z;
}.

(** Pattern identifiers, as [id()] returns them, and the counter they are
    drawn from. *)
Abbreviation PatternId := nat (only parsing).
Abbreviation IdSupply := nat (only parsing).

(** Modelled from the spec: every pattern is constructed as a fresh value;
    the constructors of [pattern.h] give it the next identifier of a counter.
    No property below depends on the values of identifiers. *)
Definition UniqueId (s : IdSupply) : PatternId * IdSupply := (S s, S s).

(** Modelled from the spec: the instructions of a fusion tracker. *)
Inductive FusionInstruction :=
  | InitPatternInstr (op : Operation) (id : PatternId)
  | ReturnInstr (id : PatternId).

(** Modelled from the spec: the fusion tracker, an append-only log of
    construction instructions; the tracker of a merged pattern references
    the trackers of both parents. *)
Inductive FusionTracker :=
  | NewTracker (instructions : list FusionInstruction)
  | MergedTracker (up down : FusionTracker) (instructions : list FusionInstruction).

(** Modelled from the spec: the log of a tracker itself. *)
Definition instructions_ (t : FusionTracker) : list FusionInstruction :=
  match t with
  | NewTracker l => l
  | MergedTracker _ _ l => l
  end.

(** Modelled from the spec: [FusionTracker::append], one more instruction at
    the end of the log. *)
Definition append (t : FusionTracker) (i : FusionInstruction) : FusionTracker :=
  match t with
  | NewTracker l => NewTracker (l ++ [i])
  | MergedTracker u d l => MergedTracker u d (l ++ [i])
  end.

(** Modelled from the spec: [ReducePattern], a single reduction op with the
    ops fused into it: op list and tracker. *)
Record ReducePattern := mkReducePattern {
  reduce_id : PatternId;
  reduce_ops : list Operation;
  reduce_tracker : FusionTracker;
}.

(** Modelled from the spec: [TrivialPattern], an elementwise, broadcast or
    injective chain with one sink op: op list, sink op and tracker. *)
Record TrivialPattern := mkTrivialPattern {
  trivial_id : PatternId;
  trivial_ops : list Operation;
  sink_op : Operation;
  trivial_tracker : FusionTracker;
}.

(** Modelled from the spec: [UnsupportPattern], an op that cannot be fused:
    op list and tracker. *)
Record UnsupportPattern := mkUnsupportPattern {
  unsupport_id : PatternId;
  unsupport_ops : list Operation;
  unsupport_tracker : FusionTracker;
}.

(** Modelled from the spec: [ReduceTreePattern], a reduction (the root) and
    the upstream reduction trees feeding it: children list, root and
    tracker. *)
Inductive ReduceTreePattern :=
  | mkReduceTreePattern (id : PatternId) (childs : list ReduceTreePattern)
      (root : ReducePattern) (tracker : FusionTracker).

Definition tree_id (t : ReduceTreePattern) : PatternId :=
  let '(mkReduceTreePattern i _ _ _) := t in i.
Definition childs (t : ReduceTreePattern) : list ReduceTreePattern :=
  let '(mkReduceTreePattern _ c _ _) := t in c.
Definition GetRootPattern (t : ReduceTreePattern) : ReducePattern :=
  let '(mkReduceTreePattern _ _ r _) := t in r.
Definition tree_tracker (t : ReduceTreePattern) : FusionTracker :=
  let '(mkReduceTreePattern _ _ _ k) := t in k.

(** Modelled from the spec: [ReduceTreePlusTrivialPattern], a reduction tree
    whose root feeds a trivial sink: tree, sink, the fake reduce axes and
    tracker. *)
Record ReduceTreePlusTrivialPattern := mkReduceTreePlusTrivialPattern {
  rtt_id : PatternId;
  tree : ReduceTreePattern;
  sink_trivial : TrivialPattern;
  fake_reduce_iter_idx : list nat;
  rtt_tracker : FusionTracker;
}.

(** Modelled from the spec: [ItersPermutationPattern], a pattern whose loop
    dimensions are given: op list, tracker and the pair of sizes and
    reduction flags. *)
Record ItersPermutationPattern := mkItersPermutationPattern {
  iters_id : PatternId;
  iters_ops : list Operation;
  iters_tracker : FusionTracker;
  loop_dims : LoopExprs * list bool;
}.

(** Modelled from the spec: [HorizontalFusionPattern::PaddingStmtPattern], a
    member of a horizontal pattern with its padding positions. The member is
    a [StmtPattern], declared below. *)
Record PaddingStmtPattern_ (P : Type) := mkPaddingStmtPattern {
  pattern : P;
  padding_pos : list Z;
}.
Arguments mkPaddingStmtPattern {P} pattern padding_pos.
Arguments pattern {P} _.
Arguments padding_pos {P} _.

(** Modelled from the spec: [HorizontalFusionPattern], side-by-side patterns
    sharing a padded iteration space: the padded members and tracker. *)
Record HorizontalFusionPattern_ (P : Type) := mkHorizontalFusionPattern {
  horizontal_id : PatternId;
  padding_patterns_ : list (PaddingStmtPattern_ P);
  horizontal_tracker : FusionTracker;
}.
Arguments mkHorizontalFusionPattern {P} horizontal_id padding_patterns_ horizontal_tracker.
Arguments horizontal_id {P} _.
Arguments padding_patterns_ {P} _.
Arguments horizontal_tracker {P} _.

(** Modelled from the spec: [StmtPattern], the variant over the pattern
    classes. *)
Inductive StmtPattern :=
  | Trivial (p : TrivialPattern)
  | Reduce (p : ReducePattern)
  | ReduceTree (p : ReduceTreePattern)
  | ReduceTreePlusTrivial (p : ReduceTreePlusTrivialPattern)
  | HorizontalFusion (p : HorizontalFusionPattern_ StmtPattern)
  | Unsupport (p : UnsupportPattern)
  | ItersPermutation (p : ItersPermutationPattern).

Abbreviation PaddingStmtPattern := (PaddingStmtPattern_ StmtPattern).
Abbreviation HorizontalFusionPattern := (HorizontalFusionPattern_ StmtPattern).

(** Construction of patterns: an identifier supply is threaded through, and
    a call may throw. *)
Definition M (A : Type) : Type := IdSupply → Result (A * IdSupply).

#[global] Instance M_ret : MRet M := fun _ a s => Ok (a, s).
#[global] Instance M_bind : MBind M := fun _ _ f m s =>
  match m s with
  | Ok (a, s') => f a s'
  | Fatal ty msg => Fatal ty msg
  | Undefined => Undefined
  end.

Definition lift {A} (r : Result A) : M A := fun s =>
  match r with
  | Ok a => Ok (a, s)
  | Fatal ty msg => Fatal ty msg
  | Undefined => Undefined
  end.

(** Modelled from the spec: the constructors of the pattern classes; each
    takes the fields given and draws the identifier. *)
Definition new_ReducePattern (ops : list Operation) (tracker : FusionTracker)
  : M ReducePattern := fun s =>
  let '(id, s') := UniqueId s in Ok (mkReducePattern id ops tracker, s').

(** Modelled from the spec: the constructor of [TrivialPattern]. *)
Definition new_TrivialPattern (ops : list Operation) (sink : Operation)
    (tracker : FusionTracker) : M TrivialPattern := fun s =>
  let '(id, s') := UniqueId s in Ok (mkTrivialPattern id ops sink tracker, s').

(** Modelled from the spec: the constructor of [UnsupportPattern]. *)
Definition new_UnsupportPattern (ops : list Operation) (tracker : FusionTracker)
  : M UnsupportPattern := fun s =>
  let '(id, s') := UniqueId s in Ok (mkUnsupportPattern id ops tracker, s').

(** Modelled from the spec: the constructor of [ReduceTreePattern]. *)
Definition new_ReduceTreePattern (childs : list ReduceTreePattern)
    (root : ReducePattern) (tracker : FusionTracker) : M ReduceTreePattern :=
  fun s =>
  let '(id, s') := UniqueId s in Ok (mkReduceTreePattern id childs root tracker, s').

(** Modelled from the spec: the constructor of [ReduceTreePlusTrivialPattern]. *)
Definition new_ReduceTreePlusTrivialPattern (tree : ReduceTreePattern)
    (sink_trivial : TrivialPattern) (tracker : FusionTracker)
  : M ReduceTreePlusTrivialPattern := fun s =>
  let '(id, s') := UniqueId s in
  Ok (mkReduceTreePlusTrivialPattern id tree sink_trivial [] tracker, s').

(** Modelled from the spec: the constructor of [ItersPermutationPattern]. *)
Definition new_ItersPermutationPattern (ops : list Operation)
    (tracker : FusionTracker) (loop_dims : LoopExprs * list bool)
  : M ItersPermutationPattern := fun s =>
  let '(id, s') := UniqueId s in
  Ok (mkItersPermutationPattern id ops tracker loop_dims, s').

(** Modelled from the spec: the constructor of [HorizontalFusionPattern]. *)
Definition new_HorizontalFusionPattern (patterns : list PaddingStmtPattern)
    (tracker : FusionTracker) : M HorizontalFusionPattern := fun s =>
  let '(id, s') := UniqueId s in
  Ok (mkHorizontalFusionPattern id patterns tracker, s').

(** Modelled from the spec: [tracker_] of a pattern, whatever its variant. *)
Definition tracker_ (p : StmtPattern) : FusionTracker :=
  match p with
  | Trivial p => trivial_tracker p
  | Reduce p => reduce_tracker p
  | ReduceTree p => tree_tracker p
  | ReduceTreePlusTrivial p => rtt_tracker p
  | HorizontalFusion p => horizontal_tracker p
  | Unsupport p => unsupport_tracker p
  | ItersPermutation p => iters_tracker p
  end.

(** Modelled from the spec: [GetPatternId], the identifier of a pattern. *)
Definition GetPatternId (p : StmtPattern) : PatternId :=
  match p with
  | Trivial p => trivial_id p
  | Reduce p => reduce_id p
  | ReduceTree p => tree_id p
  | ReduceTreePlusTrivial p => rtt_id p
  | HorizontalFusion p => horizontal_id p
  | Unsupport p => unsupport_id p
  | ItersPermutation p => iters_id p
  end.

(** * Vector helpers of [operator_fusion/utils.h] *)

(** Modelled from the spec: [ConcatVector], one vector after the other. *)
Definition ConcatVector {A} (first second : list A) : list A := first ++ second.

(** Modelled from the spec: [UniqueConcatVector], the deduplicated union, in
    stable order, first-seen preserved. *)
Definition UniqueConcatVector (first second : list Operation) : list Operation :=
  foldl (fun res e => if decide (e ∈ res) then res else res ++ [e]) [] (first ++ second).

(** Modelled from the spec: [AnyFirstInSecond], whether some entry of the
    first vector is in the second. *)
Definition AnyFirstInSecond (first second : list Operation) : bool :=
  existsb (fun e => bool_decide (e ∈ second)) first.

(** Modelled from the spec: [GatherVector(inp, gathers)], the entries of
    [inp] at the listed positions, in the order listed. *)
Definition GatherVector {A} (inp : list A) (gathers : list Z) : Result (list A) :=
  mapR (at_ inp) gathers.

(** Modelled from the spec: [ExcludeIndex(n, excludes)], the positions below
    [n] that are not listed. *)
Definition ExcludeIndex (n : nat) (excludes : list Z) : list Z :=
  filter (fun i => i ∉ excludes) (seqZ 0 (Z.of_nat n)).

(** Modelled from the spec: [SliceVector(inp, start, end)], the entries from
    [start] up to [end]; a negative bound counts from the end of the vector. *)
Definition SliceVector {A} (inp : list A) (start end_ : Z) : Result (list A) :=
  let start := if decide (start < 0) then Z.of_nat (length inp) + start else start in
  let end_ := if decide (end_ < 0) then Z.of_nat (length inp) + end_ else end_ in
  mapR (at_ inp) (seqZ start (end_ - start)).

(** [std::vector<size_t>] read as a vector of positions. *)
Definition sizes_to_Z (l : list nat) : list Z := Z.of_nat <$> l.

(** * The op lists of patterns *)

(** Modelled from the spec: [ReduceTreePattern::ops], the ops of the root
    and of all the children of a tree. *)
Fixpoint tree_ops (t : ReduceTreePattern) : list Operation :=
  let '(mkReduceTreePattern _ cs root _) := t in
  foldl (fun res c => UniqueConcatVector res (tree_ops c)) (reduce_ops root) cs.

(** Modelled from the spec: [ReduceTreePlusTrivialPattern::ops], the ops of
    the tree and of the sink. *)
Definition rtt_ops (p : ReduceTreePlusTrivialPattern) : list Operation :=
  UniqueConcatVector (tree_ops (tree p)) (trivial_ops (sink_trivial p)).

(** Modelled from the spec: [GetOpsInPattern], the ops of a pattern; those
    of a horizontal pattern are the ops of all its members. *)
Fixpoint GetOpsInPattern (p : StmtPattern) : list Operation :=
  match p with
  | Trivial p => trivial_ops p
  | Reduce p => reduce_ops p
  | ReduceTree p => tree_ops p
  | ReduceTreePlusTrivial p => rtt_ops p
  | HorizontalFusion p =>
      foldl (fun res pp => UniqueConcatVector res (GetOpsInPattern (pattern pp)))
        [] (padding_patterns_ p)
  | Unsupport p => unsupport_ops p
  | ItersPermutation p => iters_ops p
  end.

Definition PADDLE_THROW {A} (ty : ErrorType) (msg : string) : M A :=
  fun _ => Fatal ty msg.

(** [std::get<B>] on the result of a merge; it throws on another
    alternative. *)
Definition get_Trivial (p : StmtPattern) : M TrivialPattern :=
  match p with Trivial q => mret q | _ => fun _ => Fatal BadVariantAccess "std::get" end.
Definition get_Reduce (p : StmtPattern) : M ReducePattern :=
  match p with Reduce q => mret q | _ => fun _ => Fatal BadVariantAccess "std::get" end.
Definition get_ReduceTree (p : StmtPattern) : M ReduceTreePattern :=
  match p with ReduceTree q => mret q | _ => fun _ => Fatal BadVariantAccess "std::get" end.

(** Monadic map over a vector with the identifier supply, left to right. *)
Fixpoint mapM {A B} (f : A → M B) (l : list A) : M (list B) :=
  match l with
  | [] => mret []
  | x :: l' => y ← f x; ys ← mapM f l'; mret (y :: ys)
  end.

Section WithGraph.

Variable G : OpGraph.

(** [ReducePattern::GetReduceOp], an accessor of [pattern.h], taken as a
    parameter. *)
Variable GetReduceOp : ReducePattern → Operation.

(** * Classification entry point *)

Record PatternContent := mkPatternContent { op : Operation }.

Definition ConvertToStmtPattern (content : PatternContent) : M StmtPattern :=
  let kind := GetOpPatternKind G (op content) in
  if decide (kind = kReduction) then
    result ← new_ReducePattern [op content] (NewTracker []);
    mret (Reduce
      (mkReducePattern (reduce_id result) (reduce_ops result)
         (append (reduce_tracker result)
            (InitPatternInstr (op content) (reduce_id result)))))
  else if decide (kind = kElementWise ∨ kind = kBroadcast ∨ kind = kInjective) then
    result ← new_TrivialPattern [op content] (op content) (NewTracker []);
    mret (Trivial
      (mkTrivialPattern (trivial_id result) (trivial_ops result) (sink_op result)
         (append (trivial_tracker result)
            (InitPatternInstr (op content) (trivial_id result)))))
  else
    result ← new_UnsupportPattern [op content] (NewTracker []);
    mret (Unsupport
      (mkUnsupportPattern (unsupport_id result) (unsupport_ops result)
         (append (unsupport_tracker result)
            (InitPatternInstr (op content) (unsupport_id result))))).

(** * Merge engine *)

(** Trivial x other *)

Definition MergePatternImpl_Trivial_Trivial (first second : TrivialPattern)
  : M StmtPattern :=
  let contents :=
    UniqueConcatVector (GetOpsInPattern (Trivial first))
                       (GetOpsInPattern (Trivial second)) in
  result ← new_TrivialPattern contents (sink_op second)
    (MergedTracker (trivial_tracker first) (trivial_tracker second) []);
  mret (Trivial result).

Definition MergePatternImpl_Trivial_Reduce (first : TrivialPattern)
    (second : ReducePattern) : M StmtPattern :=
  let contents :=
    UniqueConcatVector (GetOpsInPattern (Trivial first))
                       (GetOpsInPattern (Reduce second)) in
  result ← new_ReducePattern contents
    (MergedTracker (trivial_tracker first) (reduce_tracker second) []);
  mret (Reduce result).

(** [FusePatternIfConnected<A, B>]: [ops] and [get] are [B::ops] and
    [std::get<B>], [MergePatternImpl] the overload chosen for [(A, B)]. *)
Definition FusePatternIfConnected {A B} (ops : B → list Operation)
    (get : StmtPattern → M B) (MergePatternImpl : A → B → M StmtPattern)
    (up_pattern : A) (down_pattern : B) (connect_ops : list Operation) : M B :=
  if AnyFirstInSecond connect_ops (ops down_pattern)
  then merged ← MergePatternImpl up_pattern down_pattern; get merged
  else mret down_pattern.

Fixpoint MergePatternImpl_Trivial_ReduceTree (first : TrivialPattern)
    (second : ReduceTreePattern) {struct second} : M StmtPattern :=
  let connect_ops := FindDownstreamOps G (sink_op first) in
  let '(mkReduceTreePattern _ old_childs root tracker) := second in
  new_childs ← mapM (fun old_child =>
      FusePatternIfConnected tree_ops get_ReduceTree
        MergePatternImpl_Trivial_ReduceTree first old_child connect_ops)
    old_childs;
  new_root ← FusePatternIfConnected reduce_ops get_Reduce
      MergePatternImpl_Trivial_Reduce first root connect_ops;
  result ← new_ReduceTreePattern new_childs new_root
    (MergedTracker (trivial_tracker first) tracker []);
  mret (ReduceTree result).

Definition MergePatternImpl_Trivial_ReduceTreePlusTrivial (first : TrivialPattern)
    (second : ReduceTreePlusTrivialPattern) : M StmtPattern :=
  let connect_ops := FindDownstreamOps G (sink_op first) in
  new_tree ← FusePatternIfConnected tree_ops get_ReduceTree
      MergePatternImpl_Trivial_ReduceTree first (tree second) connect_ops;
  new_sink ← FusePatternIfConnected trivial_ops get_Trivial
      MergePatternImpl_Trivial_Trivial first (sink_trivial second) connect_ops;
  result ← new_ReduceTreePlusTrivialPattern new_tree new_sink
      (MergedTracker (trivial_tracker first) (rtt_tracker second) []);
  mret (ReduceTreePlusTrivial
    (mkReduceTreePlusTrivialPattern (rtt_id result) (tree result)
       (sink_trivial result) (fake_reduce_iter_idx second) (rtt_tracker result))).

Definition MergePatternImpl_Trivial_ItersPermutation (first : TrivialPattern)
    (second : ItersPermutationPattern) : M StmtPattern :=
  result ← new_ItersPermutationPattern
      (UniqueConcatVector (GetOpsInPattern (Trivial first))
                          (GetOpsInPattern (ItersPermutation second)))
      (MergedTracker (trivial_tracker first) (iters_tracker second) [])
      (loop_dims second);
  mret (ItersPermutation result).

(** RR & RT *)

(** The lambda [is_direct_upstream] of [InsertUpstreamIntoTree]. *)
Definition is_direct_upstream (upstream downstream : ReducePattern) : bool :=
  let upstream_result := op_result G (GetReduceOp upstream) 0 in
  let user_ops := FindUserOp G (reduce_ops downstream) upstream_result in
  negb (bool_decide (user_ops = [])).

(** Modelled from the spec: [ReduceTreePattern::InsertChild] makes the given
    tree one more child of the node. *)
Definition InsertChild (t child : ReduceTreePattern) : ReduceTreePattern :=
  let '(mkReduceTreePattern id cs root tracker) := t in
  mkReduceTreePattern id (cs ++ [child]) root tracker.

(** [downstream] is updated in place by the source; here the updated tree is
    returned with the count. *)
Fixpoint InsertUpstreamIntoTree (upstream downstream : ReduceTreePattern)
    {struct downstream} : Z * ReduceTreePattern :=
  if is_direct_upstream (GetRootPattern upstream) (GetRootPattern downstream)
  then (1, InsertChild downstream upstream)
  else
    let '(mkReduceTreePattern id cs root tracker) := downstream in
    let fix loop (cs : list ReduceTreePattern) (insert_num : Z)
        : Z * list ReduceTreePattern :=
      match cs with
      | [] => (insert_num, [])
      | child :: cs' =>
          let '(n, child') := InsertUpstreamIntoTree upstream child in
          let '(insert_num', cs'') := loop cs' (insert_num + n) in
          (insert_num', child' :: cs'')
      end in
    let '(insert_num, cs') := loop cs 0 in
    (insert_num, mkReduceTreePattern id cs' root tracker).

Definition MergePatternImpl_ReduceTree_ReduceTree
    (upstream downstream : ReduceTreePattern) : M StmtPattern :=
  result ← new_ReduceTreePattern (childs downstream) (GetRootPattern downstream)
      (MergedTracker (tree_tracker upstream) (tree_tracker downstream) []);
  let '(insert_num, result) := InsertUpstreamIntoTree upstream result in
  if decide (insert_num = 1) then mret (ReduceTree result)
  else PADDLE_THROW PreconditionNotMet "Must insert only once, but insert %d".

Definition MergePatternImpl_ReduceTree_Trivial (first : ReduceTreePattern)
    (second : TrivialPattern) : M StmtPattern :=
  result ← new_ReduceTreePlusTrivialPattern first second
      (MergedTracker (tree_tracker first) (trivial_tracker second) []);
  mret (ReduceTreePlusTrivial result).

(** * Loop value dims *)

Abbreviation LoopValueDims := (list ValueDim) (only parsing).

(** [ValueDim()], the value of vector entries that are never assigned. *)
Variable default_ValueDim : ValueDim.

Definition LoopValueDimsVisitor_Reduce (pattern : ReducePattern)
  : Result (list LoopValueDims) :=
  let reduce_op := GetReduceOp pattern in
  let flatten_loops := GetAllValueDimFromValue G (op_result G reduce_op 0) in
  let reduce_axes := GetReduceAxisIdx G reduce_op in
  let f := fun i => mkValueDim (op_operand_source G reduce_op 0) i in
  Ok [ConcatVector flatten_loops (f <$> reduce_axes)].

Definition LoopValueDimsVisitor_Trivial (pattern : TrivialPattern)
  : Result (list LoopValueDims) :=
  let t_op := sink_op pattern in
  let value_dims := GetAllValueDimFromValue G (op_result G t_op 0) in
  Ok [value_dims].

Definition LoopValueDimsVisitor_ReduceTreePlusTrivial
    (pattern : ReduceTreePlusTrivialPattern) : Result (list LoopValueDims) :=
  trivial_loop ← LoopValueDimsVisitor_Trivial (sink_trivial pattern);
  if bool_decide (fake_reduce_iter_idx pattern = []) then
    let reduce_axes_len :=
      Z.of_nat (length (GetReduceAxisIdx G (GetReduceOp (GetRootPattern (tree pattern))))) in
    reduce_loop ← LoopValueDimsVisitor_Reduce (GetRootPattern (tree pattern));
    trivial_loop0 ← at_ trivial_loop 0;
    reduce_loop0 ← at_ reduce_loop 0;
    sliced ← SliceVector reduce_loop0 (- reduce_axes_len) (Z.of_nat (length reduce_loop0));
    Ok [ConcatVector trivial_loop0 sliced]
  else
    trivial_loop0 ← at_ trivial_loop 0;
    non_fake ← GatherVector trivial_loop0
      (ExcludeIndex (length trivial_loop0) (sizes_to_Z (fake_reduce_iter_idx pattern)));
    fake ← GatherVector trivial_loop0 (sizes_to_Z (fake_reduce_iter_idx pattern));
    Ok [ConcatVector non_fake fake].

(** The loop of the horizontal case: entry [i] of the padded vector is the
    next entry of [base] unless [i] is a padding position. *)
Fixpoint pad_with {A} (padding_vector : list Z) (base : list A) (filler : A)
    (positions : list Z) (pointer : Z) : Result (list A) :=
  match positions with
  | [] => Ok []
  | i :: positions' =>
      if decide (i ∉ padding_vector) then
        x ← at_ base pointer;
        rest ← pad_with padding_vector base filler positions' (pointer + 1);
        Ok (x :: rest)
      else
        rest ← pad_with padding_vector base filler positions' pointer;
        Ok (filler :: rest)
  end.

Fixpoint GetLoopValueDims (stmt : StmtPattern) : Result (list LoopValueDims) :=
  match stmt with
  | Reduce p => LoopValueDimsVisitor_Reduce p
  | ReduceTree p => LoopValueDimsVisitor_Reduce (GetRootPattern p)
  | Trivial p => LoopValueDimsVisitor_Trivial p
  | HorizontalFusion p =>
      res ← mapR (fun padding_stmt =>
          base_vdims_vec ← GetLoopValueDims (pattern padding_stmt);
          let padding_vector := padding_pos padding_stmt in
          mapR (fun base_value_dims =>
              pad_with padding_vector base_value_dims default_ValueDim
                (seqZ 0 (Z.of_nat (length base_value_dims + length padding_vector))) 0)
            base_vdims_vec)
        (padding_patterns_ p);
      Ok (concat res)
  | ReduceTreePlusTrivial p => LoopValueDimsVisitor_ReduceTreePlusTrivial p
  | Unsupport _ => Fatal EnforceNotMet "Not support GetLoopRange."
  | ItersPermutation _ =>
      Fatal Unimplemented
        "Can't get loop value dims for ItersPermutationPattern Currently."
  end.

(** * Loop frameworks *)

Record MaybeLoopFramework := mkMaybeLoopFramework {
  loop : LoopExprs;
  is_reduce : list bool;
}.

Definition SqueezeLoopFramework (input : MaybeLoopFramework)
  : Result MaybeLoopFramework :=
  let loop_ := loop input in
  foldlR (fun result i =>
      loop_i ← at_ loop_ i;
      if decide (loop_i = DimInt 1) then Ok result  (* skip 1 *)
      else
        is_reduce_i ← at_ (is_reduce input) i;
        Ok (mkMaybeLoopFramework (loop result ++ [loop_i])
                                 (is_reduce result ++ [is_reduce_i])))
    (mkMaybeLoopFramework [] []) (seqZ 0 (Z.of_nat (length loop_))).

Definition SplitReduceLoop (loops : MaybeLoopFramework)
  : Result (LoopExprs * LoopExprs) :=
  foldlR (fun '(non_reduce_loops, reduce_loops) i =>
      is_reduce_i ← at_ (is_reduce loops) i;
      loop_i ← at_ (loop loops) i;
      if is_reduce_i : bool then Ok (non_reduce_loops, reduce_loops ++ [loop_i])
      else Ok (non_reduce_loops ++ [loop_i], reduce_loops))
    ([], []) (seqZ 0 (Z.of_nat (length (is_reduce loops)))).

Definition CreateIsReduceVector (nums_flatten nums_reduce : nat) : list bool :=
  ConcatVector (replicate nums_flatten false) (replicate nums_reduce true).

Definition LoopFrameworkVisitor_Reduce (pattern : ReducePattern)
  : Result MaybeLoopFramework :=
  let reduce_op := GetReduceOp pattern in
  let flatten_loops := GetDimExprsFromValue G (op_result G reduce_op 0) in
  let reduce_axes := GetReduceAxisIdx G reduce_op in
  reduce_loops ← GatherVector
      (GetDimExprsFromValue G (op_operand_source G reduce_op 0)) reduce_axes;
  let loop := ConcatVector flatten_loops reduce_loops in
  let is_reduce := CreateIsReduceVector (length flatten_loops) (length reduce_loops) in
  Ok (mkMaybeLoopFramework loop is_reduce).

Definition LoopFrameworkVisitor_Trivial (pattern : TrivialPattern)
  : Result MaybeLoopFramework :=
  let t_op := sink_op pattern in
  let loop := GetDimExprsFromValue G (op_result G t_op 0) in
  Ok (mkMaybeLoopFramework loop (replicate (length loop) false)).

Definition LoopFrameworkVisitor_ReduceTreePlusTrivial
    (pattern : ReduceTreePlusTrivialPattern) : Result MaybeLoopFramework :=
  trivial_framework ← LoopFrameworkVisitor_Trivial (sink_trivial pattern);
  let trivial_loop := loop trivial_framework in
  trivial_loop ←
    (if negb (bool_decide (fake_reduce_iter_idx pattern = [])) then
       GatherVector trivial_loop
         (ExcludeIndex (length trivial_loop)
            (sizes_to_Z (fake_reduce_iter_idx pattern)))
     else Ok trivial_loop);
  root_framework ← LoopFrameworkVisitor_Reduce (GetRootPattern (tree pattern));
  '(_, reduce_loop) ← SplitReduceLoop root_framework;
  Ok (mkMaybeLoopFramework (ConcatVector trivial_loop reduce_loop)
        (CreateIsReduceVector (length trivial_loop) (length reduce_loop))).

Definition holds_Reduce (p : StmtPattern) : bool :=
  match p with Reduce _ => true | _ => false end.

(** In the horizontal case only the framework of the base member is asked
    for; [frameworks] pairs every member with the (unevaluated) call. The two
    vectors are filled by one loop in the source, with one pointer. *)
Fixpoint GetLoopFramework (stmt : StmtPattern) : Result MaybeLoopFramework :=
  match stmt with
  | Reduce p => LoopFrameworkVisitor_Reduce p
  | ReduceTree p => LoopFrameworkVisitor_Reduce (GetRootPattern p)
  | Trivial p => LoopFrameworkVisitor_Trivial p
  | HorizontalFusion p =>
      let frameworks :=
        (fun padding_pattern =>
           (padding_pattern, GetLoopFramework (pattern padding_pattern)))
          <$> padding_patterns_ p in
      base ← back frameworks;
      let base :=
        match List.find (fun m => holds_Reduce (pattern (fst m))) frameworks with
        | Some m => m
        | None => base
        end in
      base_framework ← snd base;
      let base_loop := loop base_framework in
      let base_is_reduce := is_reduce base_framework in
      let padding_vector := padding_pos (fst base) in
      let padded_size := (length base_loop + length padding_vector)%nat in
      let positions := seqZ 0 (Z.of_nat padded_size) in
      loop ← pad_with padding_vector base_loop (DimInt 1) positions 0;
      is_reduce ← pad_with padding_vector base_is_reduce false positions 0;
      Ok (mkMaybeLoopFramework loop is_reduce)
  | ReduceTreePlusTrivial p => LoopFrameworkVisitor_ReduceTreePlusTrivial p
  | Unsupport _ => Fatal Unimplemented "Unsupport for GetLoopRange."
  | ItersPermutation p =>
      Ok (mkMaybeLoopFramework (fst (loop_dims p)) (snd (loop_dims p)))
  end.

(** The lambda [get_reduce_loop] of [IsLoopFrameworkEqual]. *)
Definition get_reduce_loop (loop_ : MaybeLoopFramework) : Result LoopExprs :=
  foldlR (fun reduce_loop i =>
      is_reduce_i ← at_ (is_reduce loop_) i;
      if is_reduce_i : bool then
        loop_i ← at_ (loop loop_) i; Ok (reduce_loop ++ [loop_i])
      else Ok reduce_loop)
    [] (seqZ 0 (Z.of_nat (length (is_reduce loop_)))).

Definition IsLoopFrameworkEqual (lhs rhs : StmtPattern) : Result bool :=
  lhs_loops ← GetLoopFramework lhs;
  rhs_loops ← GetLoopFramework rhs;
  lhs_reduce_loop ← get_reduce_loop lhs_loops;
  rhs_reduce_loop ← get_reduce_loop rhs_loops;
  let reduce_euqal :=
    if bool_decide (lhs_reduce_loop = []) || bool_decide (rhs_reduce_loop = [])
    then true
    else bool_decide (lhs_reduce_loop = rhs_reduce_loop) in
  squeezed_lhs_loops ← SqueezeLoopFramework lhs_loops;
  squeezed_rhs_loops ← SqueezeLoopFramework rhs_loops;
  let loop_equal := bool_decide (loop squeezed_lhs_loops = loop squeezed_rhs_loops) in
  Ok (loop_equal && reduce_euqal).

(** * Padding vectors

    [RecursivePadding(pf, ps, padding_size)]: the pointers [pf] and [ps] are
    kept as the rests [first[pf..]] and [second[ps..]] of the two sequences;
    [padding_f] and [padding_s], captured by reference in the source, are
    passed along. *)
Fixpoint RecursivePadding (first second : LoopExprs) (padding_size : Z)
    (padding_f padding_s : list Z) {struct first} : Result (list Z * list Z) :=
  let fix first_kept (second : LoopExprs) (padding_size : Z)
      (padding_f padding_s : list Z) {struct second} : Result (list Z * list Z) :=
    match first, second with
    | [], [] => Ok (padding_f, padding_s)
    | [], second_ps :: second' =>
        _ ← PADDLE_ENFORCE (bool_decide (second_ps = DimInt 1))
              "second[ps] must be '1' to padding.";
        first_kept second' (padding_size + 1) (padding_f ++ [padding_size]) padding_s
    | first_pf :: first', [] =>
        _ ← PADDLE_ENFORCE (bool_decide (first_pf = DimInt 1))
              "second[ps] must be '1' to padding.";
        RecursivePadding first' [] (padding_size + 1)
          padding_f (padding_s ++ [padding_size])
    | first_pf :: first', second_ps :: second' =>
        if decide (second_ps = first_pf) then
          RecursivePadding first' second' (padding_size + 1) padding_f padding_s
        else if decide (second_ps = DimInt 1) then
          first_kept second' (padding_size + 1) (padding_f ++ [padding_size]) padding_s
        else if decide (first_pf = DimInt 1) then
          RecursivePadding first' second (padding_size + 1)
            padding_f (padding_s ++ [padding_size])
        else Fatal EnforceNotMet "Padding Error."
    end in
  first_kept second padding_size padding_f padding_s.

Definition GetPaddingVector (first second : LoopExprs) : Result (list Z * list Z) :=
  RecursivePadding first second 0 [] [].

Definition MergePatternImpl_Horizontal_Horizontal
    (first second : HorizontalFusionPattern) : M StmtPattern :=
  first_framework ← lift (GetLoopFramework (HorizontalFusion first));
  second_framework ← lift (GetLoopFramework (HorizontalFusion second));
  '(f, s) ← lift (GetPaddingVector (loop first_framework) (loop second_framework));
  let pad_first := mkPaddingStmtPattern (HorizontalFusion first) f in
  let pad_second := mkPaddingStmtPattern (HorizontalFusion second) s in
  result ← new_HorizontalFusionPattern [pad_first; pad_second]
      (MergedTracker (horizontal_tracker first) (horizontal_tracker second) []);
  mret (HorizontalFusion result).

Definition MergePattern (first second : StmtPattern) : M StmtPattern :=
  match first, second with
  | ReduceTree lhs, ReduceTree rhs => MergePatternImpl_ReduceTree_ReduceTree lhs rhs
  | ReduceTree lhs, Trivial rhs => MergePatternImpl_ReduceTree_Trivial lhs rhs
  | Trivial lhs, Reduce rhs => MergePatternImpl_Trivial_Reduce lhs rhs
  | Trivial lhs, Trivial rhs => MergePatternImpl_Trivial_Trivial lhs rhs
  | Trivial lhs, ReduceTree rhs => MergePatternImpl_Trivial_ReduceTree lhs rhs
  | Trivial lhs, ReduceTreePlusTrivial rhs =>
      MergePatternImpl_Trivial_ReduceTreePlusTrivial lhs rhs
  | Trivial lhs, ItersPermutation rhs =>
      MergePatternImpl_Trivial_ItersPermutation lhs rhs
  | HorizontalFusion lhs, HorizontalFusion rhs =>
      MergePatternImpl_Horizontal_Horizontal lhs rhs
  | _, _ => PADDLE_THROW Unimplemented "Not support for MergePatternImpl"
  end.

(** * Output ops

    [GetOutputOpsInPattern]: the visitor returns the reduce op of a
    [ReducePattern] and the sink op of a [TrivialPattern]; the tree cases
    call these two on the root and on the sink (the braces of
    [{this->operator()(pattern.sink_trivial)}] copy the vector returned); the
    horizontal case maps the visitor over the members and concatenates
    ([VectorFlatMap]). *)
Definition OutputOpsVisitor_Reduce (pattern : ReducePattern)
  : Result (list Operation) :=
  Ok [GetReduceOp pattern].

Definition OutputOpsVisitor_Trivial (pattern : TrivialPattern)
  : Result (list Operation) :=
  Ok [sink_op pattern].

Fixpoint GetOutputOpsInPattern (stmt : StmtPattern) : Result (list Operation) :=
  match stmt with
  | Reduce p => OutputOpsVisitor_Reduce p
  | Trivial p => OutputOpsVisitor_Trivial p
  | Unsupport _ =>
      Fatal Unimplemented "Get output ops in UnsupportPattern is not implement!"
  | ReduceTree p => OutputOpsVisitor_Reduce (GetRootPattern p)
  | ReduceTreePlusTrivial p => OutputOpsVisitor_Trivial (sink_trivial p)
  | HorizontalFusion horizontal =>
      res ← mapR (fun padding_pattern =>
                    GetOutputOpsInPattern (pattern padding_pattern))
               (padding_patterns_ horizontal);
      Ok (concat res)
  | ItersPermutation _ =>
      Fatal Unimplemented
        "Can't get output ops for ItersPermutationPattern Currently."
  end.

(** * Return instruction

    [SetReturnInstr]: whatever the alternative, the tracker of the pattern
    gets one more instruction, the [ReturnInstr] of the identifier of the
    pattern. The tracker is updated in place by the source; here the pattern
    with the updated tracker is returned. *)
Definition set_tracker (s : StmtPattern) (tracker : FusionTracker) : StmtPattern :=
  match s with
  | Trivial p => Trivial (mkTrivialPattern (trivial_id p) (trivial_ops p) (sink_op p) tracker)
  | Reduce p => Reduce (mkReducePattern (reduce_id p) (reduce_ops p) tracker)
  | ReduceTree p =>
      ReduceTree (mkReduceTreePattern (tree_id p) (childs p) (GetRootPattern p) tracker)
  | ReduceTreePlusTrivial p =>
      ReduceTreePlusTrivial
        (mkReduceTreePlusTrivialPattern (rtt_id p) (tree p) (sink_trivial p)
           (fake_reduce_iter_idx p) tracker)
  | HorizontalFusion p =>
      HorizontalFusion
        (mkHorizontalFusionPattern (horizontal_id p) (padding_patterns_ p) tracker)
  | Unsupport p => Unsupport (mkUnsupportPattern (unsupport_id p) (unsupport_ops p) tracker)
  | ItersPermutation p =>
      ItersPermutation
        (mkItersPermutationPattern (iters_id p) (iters_ops p) tracker (loop_dims p))
  end.

Definition SetReturnInstr (s : StmtPattern) : StmtPattern :=
  set_tracker s (append (tracker_ s) (ReturnInstr (GetPatternId s))).

End WithGraph.

(** * What the description says of loop frameworks *)

(** The data-model invariant of a stored framework: as many flags as sizes.
    Only an [ItersPermutationPattern] stores one. *)
Definition stored_framework_wf (p : StmtPattern) : Prop :=
  match p with
  | ItersPermutation ip => length (fst (loop_dims ip)) = length (snd (loop_dims ip))
  | _ => True
  end.

(** A sequence of sizes with the unit dimensions squeezed out. *)
Definition squeeze (l : LoopExprs) : LoopExprs :=
  filter (fun d => d ≠ DimInt 1) l.

(** The reduction dimensions of a framework, in order. *)
Definition reduce_dims (fw : MaybeLoopFramework) : LoopExprs :=
  fst <$> filter (fun p => snd p = true) (zip (loop fw) (is_reduce fw)).

Definition non_reduce_dims (fw : MaybeLoopFramework) : LoopExprs :=
  fst <$> filter (fun p => snd p = false) (zip (loop fw) (is_reduce fw)).

(** The entries of [l] (at positions [i], [i+1], ...) whose position is not
    listed in [idx]. *)
Fixpoint without_positions {A} (i : Z) (idx : list Z) (l : list A) : list A :=
  match l with
  | [] => []
  | x :: l' =>
      if decide (i ∈ idx) then without_positions (i + 1) idx l'
      else x :: without_positions (i + 1) idx l'
  end.

(** The fake-reduce case as the description words it: the entries at the
    listed positions are moved to the tail. *)
Definition relocate_to_tail {A} (trivial_loop : list A) (idx : list Z)
  : Result (list A) :=
  fake ← GatherVector trivial_loop idx;
  Ok (without_positions 0 idx trivial_loop ++ fake).

(** * What the description says of the insertion into a reduction tree *)

Section TreeInsertion.

Variable G : OpGraph.
Variable GetReduceOp : ReducePattern → Operation.

(** The number of nodes of a tree. *)
Fixpoint TreeSize (t : ReduceTreePattern) : nat :=
  let '(mkReduceTreePattern _ cs _ _) := t in
  S (foldr Nat.add 0%nat (TreeSize <$> cs)).

(** The result of the root reduction of [upstream] is read by the root
    reduction of some node of [t]. *)
Fixpoint consumed_in (upstream t : ReduceTreePattern) : bool :=
  let '(mkReduceTreePattern _ cs root _) := t in
  is_direct_upstream G GetReduceOp (GetRootPattern upstream) root
  || existsb (consumed_in upstream) cs.

(** [InsertedAt upstream t t']: [t'] is [t] with [upstream] made one more
    child of one node, the only node of [t] that reads the result of
    [upstream] and has no ancestor reading it. *)
Inductive InsertedAt (upstream : ReduceTreePattern)
  : ReduceTreePattern → ReduceTreePattern → Prop :=
  | InsertedAt_here id cs root tracker :
      is_direct_upstream G GetReduceOp (GetRootPattern upstream) root = true →
      InsertedAt upstream (mkReduceTreePattern id cs root tracker)
        (mkReduceTreePattern id (cs ++ [upstream]) root tracker)
  | InsertedAt_child id before child child' after root tracker :
      is_direct_upstream G GetReduceOp (GetRootPattern upstream) root = false →
      Forall (fun c => consumed_in upstream c = false) (before ++ after) →
      InsertedAt upstream child child' →
      InsertedAt upstream
        (mkReduceTreePattern id (before ++ child :: after) root tracker)
        (mkReduceTreePattern id (before ++ child' :: after) root tracker).

(** The traversal as the description words it: at every node the children
    are searched first, and the upstream tree is attached at the node when
    the root of the node reads the result of the upstream root. *)
Fixpoint InsertUpstreamIntoTree_children_first
    (upstream downstream : ReduceTreePattern) {struct downstream}
  : Z * ReduceTreePattern :=
  let '(mkReduceTreePattern id cs root tracker) := downstream in
  let searched := InsertUpstreamIntoTree_children_first upstream <$> cs in
  let insert_num := foldr Z.add 0 (fst <$> searched) in
  let node := mkReduceTreePattern id (snd <$> searched) root tracker in
  if is_direct_upstream G GetReduceOp (GetRootPattern upstream) root
  then (insert_num + 1, InsertChild node upstream)
  else (insert_num, node).

End TreeInsertion.

(** The alternative a [StmtPattern] holds. *)
Inductive Variant :=
  | VTrivial | VReduce | VReduceTree | VReduceTreePlusTrivial
  | VHorizontalFusion | VUnsupport | VItersPermutation.

Definition variant_of (p : StmtPattern) : Variant :=
  match p with
  | Trivial _ => VTrivial
  | Reduce _ => VReduce
  | ReduceTree _ => VReduceTree
  | ReduceTreePlusTrivial _ => VReduceTreePlusTrivial
  | HorizontalFusion _ => VHorizontalFusion
  | Unsupport _ => VUnsupport
  | ItersPermutation _ => VItersPermutation
  end.

(** The pairs of alternatives the description of the merge engine lists as
    supported. *)
Definition supported_pair (first second : Variant) : bool :=
  match first, second with
  | VTrivial, VTrivial
  | VTrivial, VReduce
  | VTrivial, VReduceTree
  | VTrivial, VReduceTreePlusTrivial
  | VTrivial, VItersPermutation
  | VReduceTree, VReduceTree
  | VReduceTree, VTrivial
  | VHorizontalFusion, VHorizontalFusion => true
  | _, _ => false
  end.

(** Whether a merge takes the ops of the first pattern. A trivial pattern
    is fused into a tree only where it is connected: where its sink has a
    downstream op among the ops of the tree. *)
Definition connected (G : OpGraph) (first second : StmtPattern) : bool :=
  match first, second with
  | Trivial t, ReduceTree _ | Trivial t, ReduceTreePlusTrivial _ =>
      AnyFirstInSecond (FindDownstreamOps G (sink_op t)) (GetOpsInPattern second)
  | _, _ => true
  end.

(** The ops [FusePatternIfConnected] leaves in a pattern that had the ops
    [before]: those, and the ops of the trivial pattern where it is
    connected. *)
Definition fused_ops (G : OpGraph) (first : TrivialPattern) (x : nat)
    (before after : list nat) : Prop :=
  x ∈ after ↔
  x ∈ before ∨
  (AnyFirstInSecond (FindDownstreamOps G (sink_op first)) before = true ∧
   x ∈ trivial_ops first).

(** The op set of a pattern. *)
Definition ops_set (p : StmtPattern) : gset nat := list_to_set (GetOpsInPattern p).

(** * Notions used to state further properties of the padding *)

(** [Aligned n first second f s common]: an alignment of two sequences of
    sizes from position [n] on. The two sequences are read side by side; at
    every position of [common] either both give the same entry, or one of
    them gives a [1] and the position is recorded for the other: in [f] when
    the entry is missing from [first], in [s] when it is missing from
    [second]. *)
Inductive Aligned
  : Z → LoopExprs → LoopExprs → list Z → list Z → LoopExprs → Prop :=
  | Aligned_nil n : Aligned n [] [] [] [] []
  | Aligned_both n x first second f s common :
      Aligned (n + 1) first second f s common →
      Aligned n (x :: first) (x :: second) f s (x :: common)
  | Aligned_pad_first n first second f s common :
      Aligned (n + 1) first second f s common →
      Aligned n first (DimInt 1 :: second) (n :: f) s (DimInt 1 :: common)
  | Aligned_pad_second n first second f s common :
      Aligned (n + 1) first second f s common →
      Aligned n (DimInt 1 :: first) second f (n :: s) (DimInt 1 :: common).

(** The member whose framework a horizontal pattern takes: the first member
    that holds a [ReducePattern], the last member when there is none. *)
Definition base_member (members : list PaddingStmtPattern)
  : option PaddingStmtPattern :=
  match List.find (fun m => holds_Reduce (pattern m)) members with
  | Some m => Some m
  | None => last members
  end.

(** The members of a pattern that are not horizontal patterns themselves,
    at any depth, from left to right. *)
Fixpoint members (p : StmtPattern) : list StmtPattern :=
  match p with
  | HorizontalFusion h =>
      concat ((fun padding_pattern => members (pattern padding_pattern))
                <$> padding_patterns_ h)
  | _ => [p]
  end.


(** The alternative of the result of a merge: that of the second pattern,
    but for a tree merged with a trivial pattern, which gives a tree with a
    sink. *)
Definition merged_variant (first second : Variant) : Variant :=
  match first, second with
  | VReduceTree, VTrivial => VReduceTreePlusTrivial
  | _, _ => second
  end.

(** The entries of a framework that [SqueezeLoopFramework] keeps, each with
    its flag. *)
Definition kept_dims (fw : MaybeLoopFramework) : list (DimExpr * bool) :=
  filter (fun p => fst p ≠ DimInt 1) (zip (loop fw) (is_reduce fw)).

End Fusion.

Module Unpool.

(** * The CPU unpool kernels *)

(** The index element types the kernels are instantiated at. *)
Inductive IndT := int | int64_t.

(** Modelled from the spec: [DenseTensor], as far as the kernels read it:
    [dtype()], [dims()] and the flat buffer of elements. The type
    [DataType] of the tag is a parameter. *)
Record DenseTensor (DataType E : Type) := mkDenseTensor {
  dtype : DataType;
  dims : list Z;
  data : list E;
}.
Arguments mkDenseTensor {DataType E} dtype dims data.
Arguments dtype {DataType E} _.
Arguments dims {DataType E} _.
Arguments data {DataType E} _.

(** [static_cast<int>] of a 64-bit dimension. *)
Definition to_int (x : Z) : Z := (x + 2 ^ 31) `mod` 2 ^ 32 - 2 ^ 31.

(** [int] multiplication; overflow is undefined. *)
Definition int_mul (a b : Z) : Result Z :=
  let r := a * b in
  if decide (- 2 ^ 31 ≤ r < 2 ^ 31) then Ok r else Undefined.

(** [p[i] = v] through a pointer into a buffer. *)
Definition store {A} (buf : list A) (i : Z) (v : A) : Result (list A) :=
  if decide (0 ≤ i < Z.of_nat (length buf))
  then Ok (<[Z.to_nat i := v]> buf)
  else Undefined.

Definition numel (dims : list Z) : Z := foldr Z.mul 1 dims.

Section Kernels.

(** The element type [T] of the kernel and [static_cast<T>(0)]. *)
Variable T : Type.
Variable zero : T.

(** [phi::DataType] and its member [INT32]. *)
Context {DataType : Type} `{!EqDecision DataType}.
Variable INT32 : DataType.

(** [indices.data<IndT>()]: the buffer of the indices tensor read at the
    element type [IndT]; [DenseTensor::data] is taken as a parameter. *)
Variable data_as : IndT → DenseTensor DataType Z → Result (list Z).

(** [dev_ctx.Alloc<T>(out)] followed by [set_zero]. *)
Definition Alloc_zero (out_dims : list Z) : list T :=
  replicate (Z.to_nat (numel out_dims)) zero.

(** The body of the two outer loops of [Unpool] and [Unpool3d]: the loop
    over one plane, then the three pointers move on. The pointers
    [input_data], [indices_data] and [output_data] are offsets into the
    buffers of [x], [indices] and [out]. *)
Definition unpool_plane (input_buf : list T) (indices_buf : list Z)
    (input_feasize output_feasize : Z) (message : string)
    (st : list T * Z * Z * Z) : Result (list T * Z * Z * Z) :=
  let '(output, input_data, indices_data, output_data) := st in
  output ← foldlR (fun output i =>
      index ← at_ indices_buf (indices_data + i);
      if decide (index < output_feasize) then
        v ← at_ input_buf (input_data + i);
        store output (output_data + index) v
      else Fatal InvalidArgument message)
    output (seqZ 0 input_feasize);
  Ok (output, input_data + input_feasize, indices_data + input_feasize,
      output_data + output_feasize).

(** The three nested loops shared by [Unpool] and [Unpool3d]. *)
Definition unpool_loops (input_buf : list T) (indices_buf : list Z)
    (batch_size output_channels input_feasize output_feasize : Z)
    (message : string) (output : list T) : Result (list T) :=
  st ← foldlR (fun st b =>
      foldlR (fun st c =>
          unpool_plane input_buf indices_buf input_feasize output_feasize
            message st)
        st (seqZ 0 output_channels))
      (output, 0, 0, 0) (seqZ 0 batch_size);
  Ok st.1.1.1.

Definition Unpool (I : IndT) (x : DenseTensor DataType T) (indices : DenseTensor DataType Z)
    (out_dims : list Z) : Result (list T) :=
  let output_data := Alloc_zero out_dims in
  batch_size ← to_int <$> at_ (dims x) 0;
  input_height ← to_int <$> at_ (dims x) 2;
  input_width ← to_int <$> at_ (dims x) 3;
  output_channels ← to_int <$> at_ out_dims 1;
  output_height ← to_int <$> at_ out_dims 2;
  output_width ← to_int <$> at_ out_dims 3;
  input_feasize ← int_mul input_height input_width;
  output_feasize ← int_mul output_height output_width;
  indices_data ← data_as I indices;
  unpool_loops (data x) indices_data
    batch_size output_channels input_feasize output_feasize
    "index should less than output tensor height * output tensor width."
    output_data.

Definition UnpoolKernel (x : DenseTensor DataType T) (indices : DenseTensor DataType Z)
    (ksize strides paddings output_size : list Z) (data_format : string)
    (out_dims : list Z) : Result (list T) :=
  let indices_type := dtype indices in
  if decide (indices_type = INT32)
  then Unpool int x indices out_dims
  else Unpool int64_t x indices out_dims.

Definition Unpool3d (I : IndT) (x : DenseTensor DataType T) (indices : DenseTensor DataType Z)
    (out_dims : list Z) : Result (list T) :=
  let output_data := Alloc_zero out_dims in
  batch_size ← to_int <$> at_ (dims x) 0;
  input_depth ← to_int <$> at_ (dims x) 2;
  input_height ← to_int <$> at_ (dims x) 3;
  input_width ← to_int <$> at_ (dims x) 4;
  output_channels ← to_int <$> at_ out_dims 1;
  output_depth ← to_int <$> at_ out_dims 2;
  output_height ← to_int <$> at_ out_dims 3;
  output_width ← to_int <$> at_ out_dims 4;
  input_feasize ← (dh ← int_mul input_depth input_height; int_mul dh input_width);
  output_feasize ← (dh ← int_mul output_depth output_height; int_mul dh output_width);
  indices_data ← data_as I indices;
  unpool_loops (data x) indices_data
    batch_size output_channels input_feasize output_feasize
    "index should less than output tensor depth * output tensor height * output tensor width."
    output_data.

Definition Unpool3dKernel (x : DenseTensor DataType T) (indices : DenseTensor DataType Z)
    (ksize strides paddings output_size : list Z) (data_format : string)
    (out_dims : list Z) : Result (list T) :=
  let indices_type := dtype indices in
  if decide (indices_type = INT32)
  then Unpool3d int x indices out_dims
  else Unpool3d int64_t x indices out_dims.

End Kernels.

(** * What the description says of the writes of the kernels

    The output of a run in which every index names a position of its plane:
    plane after plane, every input element is written at the position its
    index names in the plane of the output. *)

Definition write_plane {T} (values : list T) (indices : list Z) (base : Z)
    (output : list T) : list T :=
  foldl (fun output p => <[Z.to_nat (base + p.1) := p.2]> output) output
    (zip indices values).

Definition unpool_writes {T} (input_buf : list T) (indices_buf : list Z)
    (planes input_feasize output_feasize : nat) (output : list T) : list T :=
  foldl (fun output k =>
      write_plane (take input_feasize (drop (k * input_feasize) input_buf))
                  (take input_feasize (drop (k * input_feasize) indices_buf))
                  (Z.of_nat (k * output_feasize)) output)
    output (seq 0 planes).

(** The first [count] indices of the buffer name positions of an output
    plane: none is negative, and each is below the output feature size. *)
Definition indices_in_range (indices_buf : list Z) (count output_feasize : nat)
  : Prop :=
  ∀ j index, indices_buf !! j = Some index →
    (j < count)%nat → 0 ≤ index < Z.of_nat output_feasize.

End Unpool.

(** * Concrete graphs, patterns and tensors *)

Module Examples.
Import Fusion.

(** The consumers of the (single) result of each op. Ops 1, 2, 3, 4, 5, 6,
    9 and 13 are reductions, ops 7, 8, 10 and 14 elementwise:
    1 -> 2 -> 3, 14 -> 8 -> 3, 9 -> 4, 5 and 6, and 7 has no consumer. *)
Definition users (v : nat) : list nat :=
  match v with
  | 1 => [2] | 2 => [3] | 8 => [3] | 9 => [4; 5; 6] | 14 => [8]
  | _ => []
  end%nat.

Definition kind_of (o : nat) : OpPatternKind :=
  match o with
  | 7 | 8 | 10 | 14 => kElementWise
  | 0 => kOther
  | _ => kReduction
  end%nat.

(** Value 10: the result of the elementwise op 10, of sizes [2,3,4];
    value 11: the result of the reduction op 11, of sizes [2,4]; its operand,
    value 12, has sizes [2,5,4] and is reduced along axis 1. *)
Definition dims_of (v : nat) : list DimExpr :=
  match v with
  | 10 => [DimInt 2; DimInt 3; DimInt 4]
  | 11 => [DimInt 2; DimInt 4]
  | 12 => [DimInt 2; DimInt 5; DimInt 4]
  | _ => []
  end%nat.

Definition graph : OpGraph := {|
  GetOpPatternKind := kind_of;
  op_result := fun o _ => o;
  op_operand_source := fun o _ => S o;
  FindDownstreamOps := users;
  FindUserOp := fun candidates v => filter (fun u => u ∈ candidates) (users v);
  GetDimExprsFromValue := dims_of;
  GetAllValueDimFromValue := fun v => imap (fun i _ => mkValueDim v (Z.of_nat i)) (dims_of v);
  GetReduceAxisIdx := fun o => match o with 11%nat => [1] | _ => [] end;
|}.

(** The reduce op of a pattern: the last of its ops. *)
Definition reduce_op_of (p : ReducePattern) : nat := List.last (reduce_ops p) 0%nat.

Definition reduce_leaf (id o : nat) : ReducePattern :=
  mkReducePattern id [o] (NewTracker [InitPatternInstr o id]).

Definition tree_leaf (id o : nat) : ReduceTreePattern :=
  mkReduceTreePattern (id + 100) [] (reduce_leaf id o) (NewTracker []).

Definition trivial_leaf (id o : nat) : TrivialPattern :=
  mkTrivialPattern id [o] o (NewTracker [InitPatternInstr o id]).

(** An upstream tree with one child (op 1 feeding op 2), and a downstream
    tree of the single reduction op 3, which reads the result of op 2. *)
Definition up_chain : ReduceTreePattern :=
  mkReduceTreePattern 20 [tree_leaf 1 1] (reduce_leaf 2 2) (NewTracker []).

Definition down_single : ReduceTreePattern := tree_leaf 3 3.

(** The result of op 9 is read by the root (op 6) of a downstream tree and by
    both its children (ops 4 and 5). *)
Definition up_fan : ReduceTreePattern := tree_leaf 9 9.

Definition down_fan : ReduceTreePattern :=
  mkReduceTreePattern 21 [tree_leaf 4 4; tree_leaf 5 5] (reduce_leaf 6 6)
    (NewTracker []).

(** The same two children under the root op 13, which does not read the
    result of op 9. *)
Definition down_two_children : ReduceTreePattern :=
  mkReduceTreePattern 22 [tree_leaf 4 4; tree_leaf 5 5] (reduce_leaf 13 13)
    (NewTracker []).

(** A tree with a sink: the tree of the reduction op 11 and the elementwise
    op 10, whose axis 1 is marked as a fake reduce axis. *)
Definition rtt_fake : ReduceTreePlusTrivialPattern :=
  mkReduceTreePlusTrivialPattern 23 (tree_leaf 11 11) (trivial_leaf 10 10)
    [1%nat] (NewTracker []).

(** Tensors for the unpool kernels: elements are integers and the indices
    buffer is read as it is at both index types. *)
Definition plain_data (I : Unpool.IndT) (t : Unpool.DenseTensor string Z)
  : Result (list Z) :=
  Ok (Unpool.data t).

(** One batch, one channel, a 1x1 plane unpooled to a 1x1 plane; the index
    is -1. *)
Definition x_one : Unpool.DenseTensor string Z :=
  Unpool.mkDenseTensor "int64" [1; 1; 1; 1] [7].
Definition indices_negative : Unpool.DenseTensor string Z :=
  Unpool.mkDenseTensor "int32" [1; 1; 1; 1] [-1].

(** One batch, two channels; the index of the second channel is -1. *)
Definition x_two : Unpool.DenseTensor string Z :=
  Unpool.mkDenseTensor "int64" [1; 2; 1; 1] [5; 6].
Definition indices_second_negative : Unpool.DenseTensor string Z :=
  Unpool.mkDenseTensor "int32" [1; 2; 1; 1] [0; -1].

(** The same for [Unpool3d], with one more dimension of size 1. *)
Definition x3d_one : Unpool.DenseTensor string Z :=
  Unpool.mkDenseTensor "int64" [1; 1; 1; 1; 1] [7].
Definition indices3d_negative : Unpool.DenseTensor string Z :=
  Unpool.mkDenseTensor "int32" [1; 1; 1; 1; 1] [-1].

(** Patterns with stored loop dimensions: [2,3] with the second a reduction
    dimension, [4,8] and [4,1,8]. *)
Definition iters_2_3 : ItersPermutationPattern :=
  mkItersPermutationPattern 40 [15%nat] (NewTracker [])
    ([DimInt 2; DimInt 3], [false; true]).

Definition iters_4_8 : ItersPermutationPattern :=
  mkItersPermutationPattern 41 [16%nat] (NewTracker [])
    ([DimInt 4; DimInt 8], [false; false]).

Definition iters_4_1_8 : ItersPermutationPattern :=
  mkItersPermutationPattern 42 [17%nat] (NewTracker [])
    ([DimInt 4; DimInt 1; DimInt 8], [false; false; true]).

(** A horizontal pattern of an op that cannot be fused and of [iters_2_3]
    padded at position 1, and the same with the padding position 5. *)
Definition horizontal_padded : HorizontalFusionPattern :=
  mkHorizontalFusionPattern 43
    [mkPaddingStmtPattern (Unsupport (mkUnsupportPattern 44 [0%nat] (NewTracker []))) [];
     mkPaddingStmtPattern (ItersPermutation iters_2_3) [1]]
    (NewTracker []).

Definition horizontal_bad_padding : HorizontalFusionPattern :=
  mkHorizontalFusionPattern 45
    [mkPaddingStmtPattern (ItersPermutation iters_2_3) [5]] (NewTracker []).

(** Horizontal patterns of one member without padding. *)
Definition horizontal_of (id : nat) (p : StmtPattern) : HorizontalFusionPattern :=
  mkHorizontalFusionPattern id [mkPaddingStmtPattern p []] (NewTracker []).

(** One batch, one channel, a 1x2 plane unpooled to a 1x2 plane: the indices
    exchange the two elements, name the same position twice, or the second
    is too large. *)
Definition x_pair : Unpool.DenseTensor string Z :=
  Unpool.mkDenseTensor "int64" [1; 1; 1; 2] [7; 8].
Definition indices_exchange : Unpool.DenseTensor string Z :=
  Unpool.mkDenseTensor "int32" [1; 1; 1; 2] [1; 0].
Definition indices_twice : Unpool.DenseTensor string Z :=
  Unpool.mkDenseTensor "int32" [1; 1; 1; 2] [1; 1].
Definition indices_too_large : Unpool.DenseTensor string Z :=
  Unpool.mkDenseTensor "int32" [1; 1; 1; 2] [0; 2].

(** Indices for two channels of 1x2 planes. *)
Definition indices_two_channels : Unpool.DenseTensor string Z :=
  Unpool.mkDenseTensor "int32" [1; 2; 1; 2] [1; 0; 1; 0].

(** The same for [Unpool3d], with one more dimension of size 1. *)
Definition x3d_pair : Unpool.DenseTensor string Z :=
  Unpool.mkDenseTensor "int64" [1; 1; 1; 1; 2] [7; 8].
Definition indices3d_exchange : Unpool.DenseTensor string Z :=
  Unpool.mkDenseTensor "int32" [1; 1; 1; 1; 2] [1; 0].
Definition indices3d_too_large : Unpool.DenseTensor string Z :=
  Unpool.mkDenseTensor "int32" [1; 1; 1; 1; 2] [0; 2].

End Examples.

Import Fusion.
Import Examples.

(** * Loops over the positions of a vector *)

Ltac bind_simpl := cbn [mbind Result_bind mret Result_ret].

Lemma at_of_nat {A} (l : list A) (i : nat) :
  at_ l (Z.of_nat i) = match l !! i with Some x => Ok x | None => Undefined end.
Proof. unfold at_. rewrite decide_True by lia. by rewrite Nat2Z.id. Qed.

(** A loop over the positions of [l] whose body only uses the entry at the
    current position is a loop over the entries. *)
Lemma foldlR_positions {A B} (l : list B) (f : A → Z → Result A)
    (h : A → B → Result A) (a : A) :
  (∀ a i x, l !! i = Some x → f a (Z.of_nat i) = h a x) →
  foldlR f a (seqZ 0 (Z.of_nat (length l))) = foldlR h a l.
Proof.
  intros Hbody.
  assert (Hgen : ∀ suf pre a, l = pre ++ suf →
    foldlR f a (seqZ (Z.of_nat (length pre)) (Z.of_nat (length suf)))
    = foldlR h a suf).
  { induction suf as [|x suf IH]; intros pre a0 Hl; [done|].
    rewrite length_cons, Nat2Z.inj_succ, seqZ_cons by lia.
    rewrite Z.pred_succ. csimpl.
    rewrite (Hbody a0 (length pre) x)
      by (subst l; by rewrite lookup_app_r, Nat.sub_diag by lia).
    destruct (h a0 x) as [a1| |]; csimpl; [|done..].
    specialize (IH (pre ++ [x]) a1).
    rewrite length_app, Nat2Z.inj_add in IH. csimpl in IH.
    rewrite <- Z.add_1_r. apply IH. by rewrite <- app_assoc. }
  apply (Hgen l [] a). done.
Qed.

Lemma lookup_zip_Some {A B} (l1 : list A) (l2 : list B) (i : nat) (x : A) (y : B) :
  zip l1 l2 !! i = Some (x, y) → l1 !! i = Some x ∧ l2 !! i = Some y.
Proof.
  revert l2 i. induction l1 as [|a l1 IH]; intros [|b l2] [|i]; csimpl; try done.
  - by intros [= -> ->].
  - apply IH.
Qed.

(** * Properties of the classification entry point *)

(** C1: every operation is classified: a reduction op gives a [ReducePattern]
    with op list [[op]], an elementwise, broadcast or injective op a
    [TrivialPattern] with op list [[op]] and sink [op], any other op an
    [UnsupportPattern] with op list [[op]]; the call never throws, and the
    tracker of the result is a fresh one whose first instruction is the
    [InitPatternInstr] of [op] (with the identifier of the result). *)
Theorem ConvertToStmtPattern_classifies (G : OpGraph) (content : PatternContent)
    (s : nat) :
  ∃ p s',
    ConvertToStmtPattern G content s = Ok (p, s') ∧
    GetOpsInPattern p = [op content] ∧
    match GetOpPatternKind G (op content) with
    | kReduction => ∃ r, p = Reduce r
    | kElementWise | kBroadcast | kInjective =>
        ∃ t, p = Trivial t ∧ sink_op t = op content
    | kOther => ∃ u, p = Unsupport u
    end ∧
    tracker_ p = NewTracker [InitPatternInstr (op content) (GetPatternId p)] ∧
    head (instructions_ (tracker_ p))
      = Some (InitPatternInstr (op content) (GetPatternId p)).
Proof.
  unfold ConvertToStmtPattern.
  destruct (GetOpPatternKind G (op content)) eqn:Hkind;
    repeat case_decide; try discriminate; try (exfalso; intuition congruence);
    (eexists _, _; split; [reflexivity|]; simpl; eauto 10).
Qed.

(** * Properties of the dispatch of [MergePattern] *)

(** C8: for every ordered pair of alternatives outside the supported set,
    [MergePattern] throws the unsupported-pair error ([Unimplemented]); no
    pattern, merged or half merged, is returned. *)
Theorem MergePattern_unsupported_pair (G : OpGraph)
    (GetReduceOp : ReducePattern → nat) (first second : StmtPattern) (s : nat) :
  supported_pair (variant_of first) (variant_of second) = false →
  MergePattern G GetReduceOp first second s
    = Fatal Unimplemented "Not support for MergePatternImpl".
Proof.
  destruct first, second; simpl; intros Hpair; solve [discriminate | reflexivity].
Qed.

Lemma MergePattern_unsupported_pair_witness :
  MergePattern graph reduce_op_of (Reduce (reduce_leaf 2 2))
      (Trivial (trivial_leaf 8 8)) 50%nat
    = Fatal Unimplemented "Not support for MergePatternImpl" ∧
  MergePattern graph reduce_op_of
      (Unsupport (mkUnsupportPattern 1 [0%nat] (NewTracker [])))
      (Trivial (trivial_leaf 8 8)) 50%nat
    = Fatal Unimplemented "Not support for MergePatternImpl" ∧
  MergePattern graph reduce_op_of (Trivial (trivial_leaf 8 8))
      (Unsupport (mkUnsupportPattern 1 [0%nat] (NewTracker []))) 50%nat
    = Fatal Unimplemented "Not support for MergePatternImpl".
Proof.
  split_and!; apply MergePattern_unsupported_pair; reflexivity.
Defined.

(** * Properties of the insertion into a reduction tree *)

Section TreeInsertionProps.

Variable G : OpGraph.
Variable GetReduceOp : ReducePattern → nat.

#[local] Abbreviation direct up root :=
  (is_direct_upstream G GetReduceOp (GetRootPattern up) root).
#[local] Abbreviation Insert := (InsertUpstreamIntoTree G GetReduceOp).

(** Induction on trees, with the property known of all children. *)
Lemma ReduceTreePattern_forall_ind (P : ReduceTreePattern → Prop) :
  (∀ id cs root tracker,
      Forall P cs → P (mkReduceTreePattern id cs root tracker)) →
  ∀ t, P t.
Proof.
  intros Hnode. fix IH 1. intros [id cs root tracker].
  apply Hnode. induction cs as [|c cs IHcs]; constructor; [apply IH | exact IHcs].
Qed.

(** The loop over the children, as a map and a sum. *)
Lemma InsertUpstreamIntoTree_unfold up id cs root tracker :
  Insert up (mkReduceTreePattern id cs root tracker)
  = if direct up root
    then (1, mkReduceTreePattern id (cs ++ [up]) root tracker)
    else (foldr Z.add 0 (fst <$> (Insert up <$> cs)),
          mkReduceTreePattern id (snd <$> (Insert up <$> cs)) root tracker).
Proof.
  simpl. destruct (direct up root); [reflexivity|].
  match goal with
  | |- (let '(n, l) := ?loop cs 0 in _) = _ =>
      assert (Hloop : ∀ l acc,
        loop l acc = (acc + foldr Z.add 0 (fst <$> (Insert up <$> l)),
                      snd <$> (Insert up <$> l)))
  end.
  { intros l. induction l as [|c l IHl]; intros acc; simpl.
    - f_equal. lia.
    - destruct (Insert up c) as [n c'] eqn:Hc. rewrite IHl. simpl.
      f_equal. rewrite <- Z.add_assoc. reflexivity. }
  rewrite Hloop. reflexivity.
Qed.

Lemma sum_nonneg {A} (f : A → Z) (l : list A) :
  Forall (fun x => 0 ≤ f x) l → 0 ≤ foldr Z.add 0 (f <$> l).
Proof. induction 1; csimpl; lia. Qed.

Lemma sum_zero {A} (f : A → Z) (l : list A) :
  Forall (fun x => 0 ≤ f x) l → foldr Z.add 0 (f <$> l) = 0 →
  Forall (fun x => f x = 0) l.
Proof.
  induction 1 as [|x l Hx Hl IH]; csimpl; intros Hsum; constructor.
  - pose proof (sum_nonneg f l Hl). lia.
  - apply IH. pose proof (sum_nonneg f l Hl). lia.
Qed.

(** A sum of non-negative counts that is one has exactly one summand one. *)
Lemma sum_one {A} (f : A → Z) (l : list A) :
  Forall (fun x => 0 ≤ f x) l → foldr Z.add 0 (f <$> l) = 1 →
  ∃ before x after,
    l = before ++ x :: after ∧ f x = 1 ∧
    Forall (fun y => f y = 0) (before ++ after).
Proof.
  induction 1 as [|x l Hx Hl IH]; csimpl; intros Hsum; [lia|].
  pose proof (sum_nonneg f l Hl) as Hrest.
  destruct (decide (f x = 1)) as [Hone|Hnot].
  - exists [], x, l. split_and!; [done..|]. apply sum_zero; [done|]. csimpl. lia.
  - destruct IH as (before & y & after & -> & Hy & Hzero); [lia|].
    exists (x :: before), y, after. split_and!; [done..|].
    csimpl. constructor; [lia|done].
Qed.

Lemma InsertUpstreamIntoTree_count_nonneg up t : 0 ≤ (Insert up t).1.
Proof.
  induction t as [id cs root tracker IH] using ReduceTreePattern_forall_ind.
  rewrite InsertUpstreamIntoTree_unfold.
  destruct (direct up root); csimpl; [lia|].
  rewrite <- list_fmap_compose. by apply sum_nonneg.
Qed.

(** A tree holds a reader of the upstream result exactly when the search
    finds an attachment point in it. *)
Lemma consumed_in_count up t :
  consumed_in G GetReduceOp up t = bool_decide (1 ≤ (Insert up t).1).
Proof.
  induction t as [id cs root tracker IH] using ReduceTreePattern_forall_ind.
  rewrite InsertUpstreamIntoTree_unfold. csimpl.
  destruct (direct up root); csimpl; [done|].
  rewrite <- list_fmap_compose.
  induction IH as [|c cs Hc Hcs IHcs]; csimpl; [done|].
  rewrite Hc, IHcs.
  pose proof (InsertUpstreamIntoTree_count_nonneg up c).
  assert (0 ≤ foldr Z.add 0 ((fst ∘ Insert up) <$> cs)).
  { apply sum_nonneg, Forall_forall. intros. apply InsertUpstreamIntoTree_count_nonneg. }
  csimpl. repeat case_bool_decide; csimpl; try done; lia.
Qed.

(** Where the search finds nothing, the tree is left as it is. *)
Lemma InsertUpstreamIntoTree_zero up t :
  (Insert up t).1 = 0 → (Insert up t).2 = t.
Proof.
  induction t as [id cs root tracker IH] using ReduceTreePattern_forall_ind.
  rewrite InsertUpstreamIntoTree_unfold.
  destruct (direct up root); csimpl; [lia|]. intros Hsum.
  rewrite <- list_fmap_compose in Hsum.
  apply sum_zero in Hsum;
    [|apply Forall_forall; intros; apply InsertUpstreamIntoTree_count_nonneg].
  f_equal. rewrite <- list_fmap_compose.
  rewrite <- (list_fmap_id cs) at 2. apply Forall_fmap_ext.
  rewrite Forall_forall in IH, Hsum. apply Forall_forall. intros c Hin.
  csimpl. apply IH; [done|]. by apply Hsum.
Qed.

(** With one attachment point, the updated tree is the tree with [up]
    inserted at that point. *)
Lemma InsertUpstreamIntoTree_one up t :
  (Insert up t).1 = 1 → InsertedAt G GetReduceOp up t (Insert up t).2.
Proof.
  induction t as [id cs root tracker IH] using ReduceTreePattern_forall_ind.
  rewrite InsertUpstreamIntoTree_unfold.
  destruct (direct up root) eqn:Hdirect; csimpl.
  - intros _. by constructor.
  - intros Hsum. rewrite <- list_fmap_compose in Hsum.
    apply sum_one in Hsum as (before & c & after & -> & Hc & Hzero);
      [|apply Forall_forall; intros; apply InsertUpstreamIntoTree_count_nonneg].
    csimpl in Hc.
    assert (Hsame : ∀ l, Forall (fun y => (fst ∘ Insert up) y = 0) l →
                         snd <$> (Insert up <$> l) = l).
    { induction 1 as [|y l Hy Hl IHl]; csimpl; [done|].
      rewrite InsertUpstreamIntoTree_zero by done. by f_equal. }
    apply Forall_app in Hzero as [Hbefore Hafter].
    rewrite !fmap_app, !fmap_cons.
    rewrite !Hsame by done.
    constructor; [done| |].
    + apply Forall_app. split; eapply Forall_impl; eauto; csimpl; intros y Hy;
        rewrite consumed_in_count; apply bool_decide_eq_false_2; lia.
    + apply Forall_app in IH as [_ IH]. inversion IH; subst. auto.
Qed.

(** Every attachment adds a copy of the whole upstream tree. *)
Lemma InsertUpstreamIntoTree_TreeSize up t :
  TreeSize (Insert up t).2
  = (TreeSize t + Z.to_nat (Insert up t).1 * TreeSize up)%nat.
Proof.
  induction t as [id cs root tracker IH] using ReduceTreePattern_forall_ind.
  rewrite InsertUpstreamIntoTree_unfold.
  destruct (direct up root); csimpl.
  - rewrite fmap_app, foldr_app. csimpl.
    generalize (TreeSize <$> cs). intros l.
    assert (∀ a, foldr Nat.add a l = (foldr Nat.add 0 l + a)%nat) as ->.
    { induction l; csimpl; intros; [lia|]. rewrite IHl. lia. }
    lia.
  - f_equal. rewrite <- !list_fmap_compose.
    induction IH as [|c cs Hc Hcs IHcs]; csimpl; [done|].
    rewrite Hc, IHcs.
    pose proof (InsertUpstreamIntoTree_count_nonneg up c).
    assert (0 ≤ foldr Z.add 0 ((fst ∘ Insert up) <$> cs)).
    { apply sum_nonneg, Forall_forall. intros. apply InsertUpstreamIntoTree_count_nonneg. }
    rewrite Z2Nat.inj_add by done. lia.
Qed.

Lemma sum_app {A} (f : A → Z) (l1 l2 : list A) :
  foldr Z.add 0 (f <$> l1 ++ l2)
  = foldr Z.add 0 (f <$> l1) + foldr Z.add 0 (f <$> l2).
Proof. induction l1 as [|x l1 IH]; csimpl; [done|]. rewrite IH. lia. Qed.

Lemma sum_lookup_le {A} (f : A → Z) (l : list A) (i : nat) (x : A) :
  Forall (fun x => 0 ≤ f x) l → l !! i = Some x →
  f x ≤ foldr Z.add 0 (f <$> l).
Proof.
  intros Hl Hi. rewrite <- (take_drop_middle l i x Hi), sum_app. csimpl.
  rewrite <- (take_drop_middle l i x Hi) in Hl.
  apply Forall_app in Hl as [H1 H2]. apply Forall_cons in H2 as [_ H2].
  pose proof (sum_nonneg f _ H1). pose proof (sum_nonneg f _ H2). lia.
Qed.

(** Two children that each hold an attachment point give a count of two at
    least. *)
Lemma sum_two_lookups {A} (f : A → Z) (l : list A) (i j : nat) (x y : A) :
  Forall (fun x => 0 ≤ f x) l → i ≠ j →
  l !! i = Some x → l !! j = Some y →
  f x + f y ≤ foldr Z.add 0 (f <$> l).
Proof.
  intros Hl Hij Hi Hj.
  rewrite <- (take_drop_middle l i x Hi), sum_app. csimpl.
  pose proof Hl as Hl'. rewrite <- (take_drop_middle l i x Hi) in Hl'.
  apply Forall_app in Hl' as [H1 H2]. apply Forall_cons in H2 as [_ H2].
  pose proof (sum_nonneg f _ H1). pose proof (sum_nonneg f _ H2).
  destruct (decide (j < i)%nat) as [Hlt|Hge].
  - assert (take i l !! j = Some y) as Hy by (by rewrite lookup_take_lt).
    pose proof (sum_lookup_le f _ _ _ H1 Hy). lia.
  - assert (drop (S i) l !! (j - S i)%nat = Some y) as Hy.
    { rewrite lookup_drop. rewrite <- Hj. f_equal. lia. }
    pose proof (sum_lookup_le f _ _ _ H2 Hy). lia.
Qed.

(** C2, as the code has it: the merge of an upstream and a downstream
    reduction tree returns exactly when the search finds one attachment
    point; the result is then the (copied) downstream tree with the upstream
    tree inserted as one more child of the node found, and its node count is
    that of the downstream tree plus that of the whole upstream tree. With a
    count other than one the merge throws [PreconditionNotMet]; so it does
    when the downstream root does not read the upstream result and two
    different children hold a reader of it. *)
Theorem MergePatternImpl_ReduceTree_ReduceTree_inserts_once
    (up down : ReduceTreePattern) (s : nat) :
  let copy :=
    mkReduceTreePattern (S s) (childs down) (GetRootPattern down)
      (MergedTracker (tree_tracker up) (tree_tracker down) []) in
  let insert_num := (Insert up down).1 in
  (insert_num = 1 →
   ∃ result,
     MergePatternImpl_ReduceTree_ReduceTree G GetReduceOp up down s
       = Ok (ReduceTree result, S s) ∧
     InsertedAt G GetReduceOp up copy result ∧
     TreeSize result = (TreeSize down + TreeSize up)%nat) ∧
  (insert_num ≠ 1 →
   MergePatternImpl_ReduceTree_ReduceTree G GetReduceOp up down s
     = Fatal PreconditionNotMet "Must insert only once, but insert %d") ∧
  (direct up (GetRootPattern down) = false →
   ∀ i j ci cj, i ≠ j →
     childs down !! i = Some ci → childs down !! j = Some cj →
     consumed_in G GetReduceOp up ci = true →
     consumed_in G GetReduceOp up cj = true →
     MergePatternImpl_ReduceTree_ReduceTree G GetReduceOp up down s
       = Fatal PreconditionNotMet "Must insert only once, but insert %d").
Proof.
  intros copy insert_num.
  assert (Hcopy : (Insert up copy).1 = insert_num).
  { subst copy insert_num. destruct down as [id cs root tracker].
    rewrite !InsertUpstreamIntoTree_unfold. csimpl.
    by destruct (direct up root). }
  assert (Hsize : TreeSize copy = TreeSize down) by (by destruct down).
  assert (Hmerge :
    MergePatternImpl_ReduceTree_ReduceTree G GetReduceOp up down s
    = if decide ((Insert up copy).1 = 1)
      then Ok (ReduceTree (Insert up copy).2, S s)
      else Fatal PreconditionNotMet "Must insert only once, but insert %d").
  { unfold MergePatternImpl_ReduceTree_ReduceTree, new_ReduceTreePattern.
    unfold mbind, M_bind. cbn [UniqueId]. fold copy.
    destruct (Insert up copy) as [n result]. cbn [fst snd].
    by destruct (decide (n = 1)). }
  assert (Hfatal : insert_num ≠ 1 →
    MergePatternImpl_ReduceTree_ReduceTree G GetReduceOp up down s
    = Fatal PreconditionNotMet "Must insert only once, but insert %d").
  { intros Hne. rewrite Hmerge, Hcopy. by rewrite decide_False. }
  split_and!.
  - intros Hone. exists (Insert up copy).2. split_and!.
    + rewrite Hmerge, Hcopy. by rewrite decide_True.
    + apply InsertUpstreamIntoTree_one. by rewrite Hcopy.
    + rewrite InsertUpstreamIntoTree_TreeSize, Hcopy, Hone, Hsize.
      change (Z.to_nat 1) with 1%nat. lia.
  - exact Hfatal.
  - intros Hdirect i j ci cj Hij Hi Hj Hci Hcj. apply Hfatal.
    subst insert_num. destruct down as [id cs root tracker].
    rewrite InsertUpstreamIntoTree_unfold. simpl in Hdirect, Hi, Hj.
    rewrite Hdirect. cbn [fst]. rewrite <- list_fmap_compose.
    rewrite consumed_in_count in Hci, Hcj.
    apply bool_decide_eq_true_1 in Hci, Hcj.
    assert (Hall : Forall (fun c => 0 ≤ (fst ∘ Insert up) c) cs).
    { apply Forall_forall. intros. apply InsertUpstreamIntoTree_count_nonneg. }
    pose proof (sum_two_lookups (fst ∘ Insert up) cs i j ci cj Hall Hij Hi Hj) as Hsum.
    simpl in Hsum. lia.
Qed.

(** C3, as the code has it: at every node the traversal first tests whether
    the root reduction of the node reads the result of the upstream root. If
    it does, the upstream tree is attached at this node, the count is one and
    the children of the node are not searched (they stay as they are).
    Otherwise every child is searched in turn, whatever was found in its
    siblings, and the counts are summed. *)
Theorem InsertUpstreamIntoTree_node_first (up : ReduceTreePattern) (id : nat)
    (cs : list ReduceTreePattern) (root : ReducePattern)
    (tracker : FusionTracker) :
  (direct up root = true →
   Insert up (mkReduceTreePattern id cs root tracker)
     = (1, mkReduceTreePattern id (cs ++ [up]) root tracker)) ∧
  (direct up root = false →
   Insert up (mkReduceTreePattern id cs root tracker)
     = (foldr Z.add 0 (fst <$> (Insert up <$> cs)),
        mkReduceTreePattern id (snd <$> (Insert up <$> cs)) root tracker)).
Proof.
  rewrite InsertUpstreamIntoTree_unfold.
  split; intros Hdirect; by rewrite Hdirect.
Qed.

End TreeInsertionProps.

(** Not C2 as stated: the merge of [up_chain] (two nodes) into [down_single]
    returns a tree of three nodes, two more than the downstream tree had, not
    one more; and the merge of [up_fan] into [down_fan] returns although the
    result of the upstream root is read in two disjoint children of the
    downstream tree (it is read by the downstream root as well, where the
    search stops). *)
Lemma MergePatternImpl_ReduceTree_ReduceTree_counterexample :
  (∃ result s',
     MergePatternImpl_ReduceTree_ReduceTree graph reduce_op_of up_chain down_single 50%nat
       = Ok (ReduceTree result, s') ∧
     TreeSize result ≠ (TreeSize down_single + 1)%nat) ∧
  (childs down_fan = [tree_leaf 4 4; tree_leaf 5 5] ∧
   consumed_in graph reduce_op_of up_fan (tree_leaf 4 4) = true ∧
   consumed_in graph reduce_op_of up_fan (tree_leaf 5 5) = true ∧
   ∃ result s',
     MergePatternImpl_ReduceTree_ReduceTree graph reduce_op_of up_fan down_fan 50%nat
       = Ok (ReduceTree result, s')).
Proof.
  split.
  - eexists _, _. split; [vm_compute; reflexivity|]. vm_compute. lia.
  - split_and!; [reflexivity..|]. eexists _, _. vm_compute. reflexivity.
Qed.

Lemma MergePatternImpl_ReduceTree_ReduceTree_inserts_once_witness :
  (∃ result,
     MergePatternImpl_ReduceTree_ReduceTree graph reduce_op_of up_chain down_single 50%nat
       = Ok (ReduceTree result, 51%nat) ∧
     InsertedAt graph reduce_op_of up_chain
       (mkReduceTreePattern 51 (childs down_single) (GetRootPattern down_single)
          (MergedTracker (tree_tracker up_chain) (tree_tracker down_single) []))
       result ∧
     TreeSize result = (TreeSize down_single + TreeSize up_chain)%nat) ∧
  MergePatternImpl_ReduceTree_ReduceTree graph reduce_op_of up_chain up_fan 50%nat
    = Fatal PreconditionNotMet "Must insert only once, but insert %d" ∧
  MergePatternImpl_ReduceTree_ReduceTree graph reduce_op_of up_fan down_two_children 50%nat
    = Fatal PreconditionNotMet "Must insert only once, but insert %d".
Proof.
  split_and!.
  - apply (MergePatternImpl_ReduceTree_ReduceTree_inserts_once
             graph reduce_op_of up_chain down_single 50%nat).
    vm_compute. reflexivity.
  - apply (MergePatternImpl_ReduceTree_ReduceTree_inserts_once
             graph reduce_op_of up_chain up_fan 50%nat).
    vm_compute. discriminate.
  - apply (proj2 (proj2 (MergePatternImpl_ReduceTree_ReduceTree_inserts_once
             graph reduce_op_of up_fan down_two_children 50%nat)))
      with (i := 0%nat) (j := 1%nat) (ci := tree_leaf 4 4) (cj := tree_leaf 5 5);
      first [reflexivity | discriminate].
Defined.

(** Not C3 as stated: in [down_fan] the root and both children read the
    result of the upstream root. A traversal that searched the children of a
    node first would attach the upstream tree in the first child; the code
    tests the node before its children, attaches at the root and leaves the
    first child as it was. *)
Lemma InsertUpstreamIntoTree_children_first_counterexample :
  consumed_in graph reduce_op_of up_fan (tree_leaf 4 4) = true ∧
  childs (InsertUpstreamIntoTree_children_first graph reduce_op_of up_fan down_fan).2 !! 0%nat
    = Some (InsertChild (tree_leaf 4 4) up_fan) ∧
  childs (InsertUpstreamIntoTree graph reduce_op_of up_fan down_fan).2 !! 0%nat
    = Some (tree_leaf 4 4) ∧
  InsertUpstreamIntoTree graph reduce_op_of up_fan down_fan
    ≠ InsertUpstreamIntoTree_children_first graph reduce_op_of up_fan down_fan.
Proof.
  split_and!; [reflexivity..|]. vm_compute. discriminate.
Qed.

Lemma InsertUpstreamIntoTree_node_first_witness :
  InsertUpstreamIntoTree graph reduce_op_of up_fan down_fan
    = (1, mkReduceTreePattern 21 [tree_leaf 4 4; tree_leaf 5 5; up_fan]
            (reduce_leaf 6 6) (NewTracker [])) ∧
  InsertUpstreamIntoTree graph reduce_op_of up_fan down_two_children
    = (2, mkReduceTreePattern 22
            [InsertChild (tree_leaf 4 4) up_fan; InsertChild (tree_leaf 5 5) up_fan]
            (reduce_leaf 13 13) (NewTracker [])).
Proof.
  split.
  - apply (InsertUpstreamIntoTree_node_first graph reduce_op_of up_fan 21
             [tree_leaf 4 4; tree_leaf 5 5] (reduce_leaf 6 6) (NewTracker [])).
    reflexivity.
  - apply (InsertUpstreamIntoTree_node_first graph reduce_op_of up_fan 22
             [tree_leaf 4 4; tree_leaf 5 5] (reduce_leaf 13 13) (NewTracker [])).
    reflexivity.
Defined.

(** * Properties of the op sets of merged patterns *)

Lemma elem_of_UniqueConcatVector (x : nat) (first second : list nat) :
  x ∈ UniqueConcatVector first second ↔ x ∈ first ∨ x ∈ second.
Proof.
  unfold UniqueConcatVector. rewrite <- elem_of_app.
  generalize (first ++ second). intros l.
  assert (Hgen : ∀ res,
    x ∈ foldl (fun res e => if decide (e ∈ res) then res else res ++ [e]) res l
    ↔ x ∈ res ∨ x ∈ l).
  { induction l as [|e l IH]; intros res; cbn [foldl].
    - rewrite elem_of_nil. tauto.
    - rewrite IH, elem_of_cons. destruct (decide (e ∈ res)) as [Hin|Hout].
      + split; [tauto|]. intros [?|[->|?]]; tauto.
      + rewrite elem_of_app, list_elem_of_singleton. tauto. }
  rewrite Hgen, elem_of_nil. tauto.
Qed.

Lemma elem_of_tree_ops (x : nat) (id : nat) (cs : list ReduceTreePattern)
    (root : ReducePattern) (tracker : FusionTracker) :
  x ∈ tree_ops (mkReduceTreePattern id cs root tracker)
  ↔ x ∈ reduce_ops root ∨ ∃ c, c ∈ cs ∧ x ∈ tree_ops c.
Proof.
  cbn [tree_ops]. generalize (reduce_ops root). intros res. revert res.
  induction cs as [|c cs IH]; intros res; cbn [foldl].
  - split; [tauto|]. intros [?|(c & Hc & _)]; [done|]. by apply elem_of_nil in Hc.
  - rewrite IH, elem_of_UniqueConcatVector. split.
    + intros [[?|?]|(c' & Hc' & ?)]; [tauto| |].
      * right. exists c. split; [apply list_elem_of_here|done].
      * right. exists c'. split; [by apply list_elem_of_further|done].
    + intros [?|(c' & Hc' & ?)]; [tauto|].
      apply elem_of_cons in Hc' as [->|Hc']; [tauto|]. right. eauto.
Qed.

Lemma sum_positive {A} (f : A → Z) (l : list A) :
  Forall (fun x => 0 ≤ f x) l →
  1 ≤ foldr Z.add 0 (f <$> l) ↔ ∃ x, x ∈ l ∧ 1 ≤ f x.
Proof.
  induction 1 as [|x l Hx Hl IH]; csimpl.
  - split; [lia|]. intros (x & Hin & _). by apply elem_of_nil in Hin.
  - pose proof (sum_nonneg f l Hl). split.
    + intros Hsum. destruct (decide (1 ≤ f x)).
      * exists x. split; [apply list_elem_of_here|done].
      * destruct IH as [(y & Hy & ?) _]; [lia|].
        exists y. split; [by apply list_elem_of_further|done].
    + intros (y & Hy & ?). apply elem_of_cons in Hy as [->|Hy]; [lia|].
      destruct IH as [_ IH']. specialize (IH' (ex_intro _ y (conj Hy H0))). lia.
Qed.

(** The ops of the updated tree: those of the tree and, where the search
    attached it, those of the upstream tree. *)
Lemma elem_of_tree_ops_Insert (G : OpGraph) (GetReduceOp : ReducePattern → nat)
    (x : nat) (up t : ReduceTreePattern) :
  x ∈ tree_ops (InsertUpstreamIntoTree G GetReduceOp up t).2
  ↔ x ∈ tree_ops t
    ∨ (1 ≤ (InsertUpstreamIntoTree G GetReduceOp up t).1 ∧ x ∈ tree_ops up).
Proof.
  induction t as [id cs root tracker IH] using ReduceTreePattern_forall_ind.
  rewrite InsertUpstreamIntoTree_unfold.
  destruct (is_direct_upstream _ _ _ _); cbn [fst snd].
  - rewrite !elem_of_tree_ops. split.
    + intros [?|(c & Hc & ?)]; [tauto|].
      apply elem_of_app in Hc as [Hc|Hc]; [eauto|].
      apply list_elem_of_singleton in Hc as ->. right. split; [lia|done].
    + intros [[?|(c & Hc & ?)]|[_ ?]]; [tauto| |].
      * right. exists c. split; [apply elem_of_app; tauto|done].
      * right. exists up. split; [|done].
        apply elem_of_app. right. by apply list_elem_of_singleton.
  - rewrite !elem_of_tree_ops, <- !list_fmap_compose.
    rewrite sum_positive
      by (apply Forall_forall; intros; apply InsertUpstreamIntoTree_count_nonneg).
    rewrite Forall_forall in IH. split.
    + intros [?|(c' & Hc' & Hx)]; [tauto|].
      apply list_elem_of_fmap in Hc' as (c & -> & Hc).
      apply IH in Hx as [?|[? ?]]; [eauto| |done]. right. split; [|done]. eauto.
    + intros [[?|(c & Hc & ?)]|[(c & Hc & ?) ?]]; [tauto| |].
      * right. exists (InsertUpstreamIntoTree G GetReduceOp up c).2. split.
        -- apply list_elem_of_fmap. eauto.
        -- apply IH; [done|]. tauto.
      * right. exists (InsertUpstreamIntoTree G GetReduceOp up c).2. split.
        -- apply list_elem_of_fmap. eauto.
        -- apply IH; [done|]. tauto.
Qed.

(** Inversion of a bind that returned. *)
Lemma M_bind_Ok {A B} (m : M A) (f : A → M B) (s : nat) (r : B * nat) :
  (m ≫= f) s = Ok r → ∃ a s1, m s = Ok (a, s1) ∧ f a s1 = Ok r.
Proof.
  unfold mbind, M_bind. destruct (m s) as [[a s1]| |]; [|done..]. eauto.
Qed.

Ltac invert_binds H :=
  repeat (let a := fresh "a" in let s1 := fresh "s" in let Ha := fresh "Hstep" in
          apply M_bind_Ok in H as (a & s1 & Ha & H)).

Lemma AnyFirstInSecond_true (first second : list nat) :
  AnyFirstInSecond first second = true ↔ ∃ e, e ∈ first ∧ e ∈ second.
Proof.
  unfold AnyFirstInSecond. induction first as [|a first IH]; cbn [existsb].
  - split; [done|]. intros (e & He & _). by apply elem_of_nil in He.
  - rewrite orb_true_iff, IH, bool_decide_eq_true. split.
    + intros [?|(e & ? & ?)].
      * exists a. split; [apply list_elem_of_here|done].
      * exists e. split; [by apply list_elem_of_further|done].
    + intros (e & He & ?). apply elem_of_cons in He as [->|He]; eauto.
Qed.

(** Connection to a list of ops only depends on the ops as a set. *)
Lemma AnyFirstInSecond_ext (first second second' : list nat) :
  (∀ x, x ∈ second ↔ x ∈ second') →
  AnyFirstInSecond first second = AnyFirstInSecond first second'.
Proof.
  intros Hext. apply eq_true_iff_eq. rewrite !AnyFirstInSecond_true.
  by setoid_rewrite Hext.
Qed.

Lemma mapM_Ok {A B} (f : A → M B) (l : list A) (s : nat) (l' : list B) (s' : nat) :
  mapM f l s = Ok (l', s') →
  Forall2 (fun x y => ∃ sa sb, f x sa = Ok (y, sb)) l l'.
Proof.
  revert s l'. induction l as [|x l IH]; intros s l' H; cbn [mapM] in H.
  - injection H as <- _. constructor.
  - invert_binds H. injection H as <- <-. constructor; eauto.
Qed.

Section TrivialIntoTree.

Variable G : OpGraph.
Variable first : TrivialPattern.

#[local] Abbreviation connect_ops := (FindDownstreamOps G (sink_op first)).
#[local] Abbreviation fused_ops := (fused_ops G first).

Lemma FusePatternIfConnected_Reduce_ops (x : nat) (root root' : ReducePattern)
    (s s' : nat) :
  FusePatternIfConnected reduce_ops get_Reduce MergePatternImpl_Trivial_Reduce
    first root connect_ops s = Ok (root', s') →
  fused_ops x (reduce_ops root) (reduce_ops root').
Proof.
  unfold FusePatternIfConnected, fused_ops.
  destruct (AnyFirstInSecond connect_ops (reduce_ops root)); intros H.
  - unfold MergePatternImpl_Trivial_Reduce in H. invert_binds H. invert_binds Hstep.
    injection Hstep0 as <- <-. injection Hstep as <- <-. injection H as <- _.
    cbn [reduce_ops GetOpsInPattern]. rewrite elem_of_UniqueConcatVector. tauto.
  - injection H as <- _. split; [tauto|]. intros [?|[? _]]; done.
Qed.

Lemma FusePatternIfConnected_Trivial_ops (x : nat) (sink sink' : TrivialPattern)
    (s s' : nat) :
  FusePatternIfConnected trivial_ops get_Trivial MergePatternImpl_Trivial_Trivial
    first sink connect_ops s = Ok (sink', s') →
  fused_ops x (trivial_ops sink) (trivial_ops sink').
Proof.
  unfold FusePatternIfConnected, fused_ops.
  destruct (AnyFirstInSecond connect_ops (trivial_ops sink)); intros H.
  - unfold MergePatternImpl_Trivial_Trivial in H. invert_binds H. invert_binds Hstep.
    injection Hstep0 as <- <-. injection Hstep as <- <-. injection H as <- _.
    cbn [trivial_ops GetOpsInPattern]. rewrite elem_of_UniqueConcatVector. tauto.
  - injection H as <- _. split; [tauto|]. intros [?|[? _]]; done.
Qed.

(** A trivial pattern merged into a tree: the result is a tree with the ops
    of the tree and, where connected, the ops of the trivial pattern. *)
Lemma MergePatternImpl_Trivial_ReduceTree_ops (x : nat) (t : ReduceTreePattern) :
  ∀ s result s',
    MergePatternImpl_Trivial_ReduceTree G first t s = Ok (result, s') →
    ∃ t', result = ReduceTree t' ∧ fused_ops x (tree_ops t) (tree_ops t').
Proof.
  induction t as [id cs root tracker IH] using ReduceTreePattern_forall_ind.
  intros s result s' H. cbn [MergePatternImpl_Trivial_ReduceTree] in H.
  invert_binds H. injection H as <- _. injection Hstep1 as <- _.
  eexists. split; [reflexivity|].
  apply FusePatternIfConnected_Reduce_ops with (x := x) in Hstep0.
  apply mapM_Ok in Hstep.
  assert (Hchilds : Forall2 (fun c c' => fused_ops x (tree_ops c) (tree_ops c')) cs a).
  { clear Hstep0. induction Hstep as [|c c' cs cs' (sa & sb & Hc) Hcs IHcs];
      [constructor|].
    apply Forall_cons in IH as [IHc IH]. constructor; [|by apply IHcs].
    unfold FusePatternIfConnected in Hc. unfold fused_ops.
    destruct (AnyFirstInSecond connect_ops (tree_ops c)) eqn:Hconn.
    - invert_binds Hc.
      match goal with
      | Hm : MergePatternImpl_Trivial_ReduceTree _ _ _ _ = Ok _ |- _ =>
          apply IHc in Hm as (t' & -> & Ht')
      end.
      injection Hc as <- _. unfold fused_ops in Ht'. by rewrite Hconn in Ht'.
    - injection Hc as <- _. split; [tauto|]. intros [?|[? _]]; done. }
  unfold fused_ops in *. rewrite !elem_of_tree_ops, Hstep0.
  rewrite !AnyFirstInSecond_true. setoid_rewrite elem_of_tree_ops.
  clear IH Hstep Hstep0. split.
  - intros [[?|[(e & ? & ?) ?]]|(c' & Hc' & Hx)].
    + tauto.
    + right. split; [|done]. exists e. tauto.
    + induction Hchilds as [|c c'' cs cs' Hc Hcs IHcs];
        [by apply elem_of_nil in Hc'|].
      apply elem_of_cons in Hc' as [->|Hc'].
      * apply Hc in Hx as [?|[Hconn ?]].
        -- left. right. exists c. split; [apply list_elem_of_here|done].
        -- right. split; [|done].
           apply AnyFirstInSecond_true in Hconn as (e & ? & ?).
           exists e. split; [done|]. right. exists c.
           split; [apply list_elem_of_here|done].
      * destruct (IHcs Hc') as [[?|(c0 & ? & ?)]|[(e & ? & [?|(c0 & ? & ?)]) ?]].
        -- tauto.
        -- left. right. exists c0. split; [by apply list_elem_of_further|done].
        -- right. split; [|done]. exists e. tauto.
        -- right. split; [|done]. exists e. split; [done|]. right. exists c0.
           split; [by apply list_elem_of_further|done].
  - intros [[?|(c & Hc & Hx)]|[(e & He & [?|(c & Hc & Hx)]) HT]].
    + tauto.
    + right. induction Hchilds as [|c0 c' cs cs' Hc0 Hcs IHcs];
        [by apply elem_of_nil in Hc|].
      apply elem_of_cons in Hc as [->|Hc].
      * exists c'. split; [apply list_elem_of_here|]. apply Hc0. tauto.
      * destruct (IHcs Hc) as (c1 & ? & ?). exists c1.
        split; [by apply list_elem_of_further|done].
    + left. right. split; [|done]. eauto.
    + right. induction Hchilds as [|c0 c' cs cs' Hc0 Hcs IHcs];
        [by apply elem_of_nil in Hc|].
      apply elem_of_cons in Hc as [->|Hc].
      * exists c'. split; [apply list_elem_of_here|]. apply Hc0. right.
        split; [|done]. apply AnyFirstInSecond_true. eauto.
      * destruct (IHcs Hc) as (c1 & ? & ?). exists c1.
        split; [by apply list_elem_of_further|done].
Qed.

End TrivialIntoTree.

(** The ops of a merged pattern: those of the second pattern and, unless the
    first is a trivial pattern not connected to the tree it is merged into,
    those of the first. *)
Lemma MergePattern_ops (G : OpGraph) (GetReduceOp : ReducePattern → nat)
    (first second result : StmtPattern) (s s' : nat) (x : nat) :
  MergePattern G GetReduceOp first second s = Ok (result, s') →
  x ∈ GetOpsInPattern result
  ↔ x ∈ GetOpsInPattern second
    ∨ (connected G first second = true ∧ x ∈ GetOpsInPattern first).
Proof.
  intros H.
  destruct first as [t1|r1|rt1|rtt1|h1|u1|ip1],
           second as [t2|r2|rt2|rtt2|h2|u2|ip2];
    cbn [MergePattern] in H; try discriminate; cbn [connected].
  - unfold MergePatternImpl_Trivial_Trivial in H. invert_binds H.
    injection H as <- <-. injection Hstep as <- _.
    cbn [GetOpsInPattern trivial_ops]. rewrite elem_of_UniqueConcatVector. tauto.
  - unfold MergePatternImpl_Trivial_Reduce in H. invert_binds H.
    injection H as <- <-. injection Hstep as <- _.
    cbn [GetOpsInPattern reduce_ops]. rewrite elem_of_UniqueConcatVector. tauto.
  - apply (MergePatternImpl_Trivial_ReduceTree_ops G t1 x) in H as (t' & -> & Ht').
    exact Ht'.
  - unfold MergePatternImpl_Trivial_ReduceTreePlusTrivial in H. invert_binds H.
    injection H as <- <-. injection Hstep1 as <- _.
    apply FusePatternIfConnected_Trivial_ops with (x := x) in Hstep0.
    assert (Htree : fused_ops G t1 x (tree_ops (tree rtt2)) (tree_ops a)).
    { unfold FusePatternIfConnected in Hstep. unfold fused_ops.
      destruct (AnyFirstInSecond _ (tree_ops (tree rtt2))) eqn:Hconn.
      - invert_binds Hstep.
        match goal with
        | Hm : MergePatternImpl_Trivial_ReduceTree _ _ _ _ = Ok _ |- _ =>
            apply (MergePatternImpl_Trivial_ReduceTree_ops G t1 x) in Hm
              as (t' & -> & Ht')
        end.
        injection Hstep as <- _. unfold fused_ops in Ht'. by rewrite Hconn in Ht'.
      - injection Hstep as <- _. split; [tauto|]. intros [?|[? _]]; done. }
    unfold fused_ops in *. cbn [GetOpsInPattern]. unfold rtt_ops.
    cbn [tree sink_trivial].
    rewrite !elem_of_UniqueConcatVector, Htree, Hstep0.
    rewrite !AnyFirstInSecond_true. setoid_rewrite elem_of_UniqueConcatVector.
    split.
    + intros [[?|[(e & ? & ?) ?]]|[?|[(e & ? & ?) ?]]]; try tauto;
        (right; split; [exists e; tauto|done]).
    + intros [[?|?]|[(e & ? & [?|?]) ?]]; try tauto.
      * left. right. split; [eauto|done].
      * right. right. split; [eauto|done].
  - unfold MergePatternImpl_Trivial_ItersPermutation in H. invert_binds H.
    injection H as <- <-. injection Hstep as <- _.
    cbn [GetOpsInPattern iters_ops]. rewrite elem_of_UniqueConcatVector. tauto.
  - unfold MergePatternImpl_ReduceTree_Trivial in H. invert_binds H.
    injection H as <- <-. injection Hstep as <- _.
    cbn [GetOpsInPattern]. unfold rtt_ops. cbn [tree sink_trivial].
    rewrite elem_of_UniqueConcatVector. tauto.
  - unfold MergePatternImpl_ReduceTree_ReduceTree in H. invert_binds H.
    injection Hstep as <- _.
    destruct (InsertUpstreamIntoTree _ _ _ _) as [n t] eqn:Hinsert.
    destruct (decide (n = 1)) as [->|]; [|done]. injection H as <- <-.
    cbn [GetOpsInPattern].
    change t with (1, t).2. rewrite <- Hinsert.
    rewrite elem_of_tree_ops_Insert, Hinsert. cbn [fst].
    assert (Hcopy : ∀ id tracker,
      tree_ops (mkReduceTreePattern id (childs rt2) (GetRootPattern rt2) tracker)
      = tree_ops rt2) by (by destruct rt2).
    rewrite Hcopy. split; [tauto|]. intros [?|[_ ?]]; [tauto|].
    right. split; [lia|done].
  - unfold MergePatternImpl_Horizontal_Horizontal in H. invert_binds H.
    destruct a1 as [f p]. invert_binds H.
    injection H as <- <-. injection Hstep2 as <- _.
    change (GetOpsInPattern (HorizontalFusion (mkHorizontalFusionPattern _ _ _)))
      with (UniqueConcatVector
              (UniqueConcatVector [] (GetOpsInPattern (HorizontalFusion h1)))
              (GetOpsInPattern (HorizontalFusion h2))).
    rewrite !elem_of_UniqueConcatVector, elem_of_nil. tauto.
Qed.

(** C4, as the code has it: let both merge orders of three patterns be legal
    merge sequences in which every trivial pattern merged into a tree is
    connected to it (its sink has a downstream op among the ops of the tree).
    Then merging A with B and the result with C gives the same op set as
    merging B with C and A with the result: the union of the three op sets. *)
Theorem MergePattern_ops_assoc (G : OpGraph) (GetReduceOp : ReducePattern → nat)
    (A B C AB BC R1 R2 : StmtPattern) (s1 s1' s2 s2' s3 s3' s4 s4' : nat) :
  MergePattern G GetReduceOp A B s1 = Ok (AB, s1') →
  MergePattern G GetReduceOp AB C s2 = Ok (R1, s2') →
  MergePattern G GetReduceOp B C s3 = Ok (BC, s3') →
  MergePattern G GetReduceOp A BC s4 = Ok (R2, s4') →
  connected G A B = true → connected G AB C = true →
  connected G B C = true → connected G A BC = true →
  ops_set R1 = ops_set R2 ∧
  ops_set R1 = ops_set A ∪ ops_set B ∪ ops_set C.
Proof.
  intros H1 H2 H3 H4 HAB HABC HBC HABC'.
  assert (HR1 : ops_set R1 = ops_set A ∪ ops_set B ∪ ops_set C).
  { unfold ops_set. apply set_eq. intros x.
    rewrite !elem_of_union, !elem_of_list_to_set.
    rewrite (MergePattern_ops _ _ _ _ _ _ _ x H2), HABC.
    rewrite (MergePattern_ops _ _ _ _ _ _ _ x H1), HAB. tauto. }
  assert (HR2 : ops_set R2 = ops_set A ∪ ops_set B ∪ ops_set C).
  { unfold ops_set. apply set_eq. intros x.
    rewrite !elem_of_union, !elem_of_list_to_set.
    rewrite (MergePattern_ops _ _ _ _ _ _ _ x H4), HABC'.
    rewrite (MergePattern_ops _ _ _ _ _ _ _ x H3), HBC. tauto. }
  split; [congruence|done].
Qed.

(** Not C4 as stated: the trivial pattern of op 7, whose result nobody
    reads, the trivial pattern of op 8, read by the reduction op 3, and the
    tree of op 3. Both orders are legal; merging the two trivial patterns
    first keeps op 7, merging the second with the tree first loses it. *)
Lemma MergePattern_ops_assoc_counterexample :
  ∃ AB BC R1 R2 s1 s2 s3 s4,
    MergePattern graph reduce_op_of
      (Trivial (trivial_leaf 7 7)) (Trivial (trivial_leaf 8 8)) 50%nat = Ok (AB, s1) ∧
    MergePattern graph reduce_op_of AB (ReduceTree down_single) s1 = Ok (R1, s2) ∧
    MergePattern graph reduce_op_of
      (Trivial (trivial_leaf 8 8)) (ReduceTree down_single) 50%nat = Ok (BC, s3) ∧
    MergePattern graph reduce_op_of (Trivial (trivial_leaf 7 7)) BC s3 = Ok (R2, s4) ∧
    GetOpsInPattern R1 = [7; 8; 3]%nat ∧
    GetOpsInPattern R2 = [8; 3]%nat ∧
    ops_set R1 ≠ ops_set R2.
Proof.
  do 8 eexists. split_and!; [vm_compute; reflexivity..| |].
  - vm_compute. reflexivity.
  - intros Heq.
    match type of Heq with
    | ops_set ?r1 = ops_set ?r2 =>
        assert (H7 : 7%nat ∈ ops_set r1)
          by (apply elem_of_list_to_set; vm_compute; apply list_elem_of_here);
        rewrite Heq in H7; apply elem_of_list_to_set in H7; vm_compute in H7
    end.
    apply elem_of_cons in H7 as [H7|H7]; [discriminate|].
    apply elem_of_cons in H7 as [H7|H7]; [discriminate|].
    by apply elem_of_nil in H7.
Qed.

Lemma MergePattern_ops_assoc_witness :
  ∃ AB BC R1 R2 s1 s2 s3 s4,
    MergePattern graph reduce_op_of
      (Trivial (trivial_leaf 14 14)) (Trivial (trivial_leaf 8 8)) 50%nat = Ok (AB, s1) ∧
    MergePattern graph reduce_op_of AB (ReduceTree down_single) s1 = Ok (R1, s2) ∧
    MergePattern graph reduce_op_of
      (Trivial (trivial_leaf 8 8)) (ReduceTree down_single) 50%nat = Ok (BC, s3) ∧
    MergePattern graph reduce_op_of (Trivial (trivial_leaf 14 14)) BC s3 = Ok (R2, s4) ∧
    ops_set R1 = ops_set R2 ∧
    ops_set R1 = ops_set (Trivial (trivial_leaf 14 14))
                 ∪ ops_set (Trivial (trivial_leaf 8 8))
                 ∪ ops_set (ReduceTree down_single).
Proof.
  do 8 eexists.
  split; [vm_compute; reflexivity|].
  split; [vm_compute; reflexivity|].
  split; [vm_compute; reflexivity|].
  split; [vm_compute; reflexivity|].
  eapply (MergePattern_ops_assoc graph reduce_op_of
            (Trivial (trivial_leaf 14 14)) (Trivial (trivial_leaf 8 8))
            (ReduceTree down_single) _ _ _ _ 50%nat _ _ _ 50%nat);
    [vm_compute; reflexivity..].
Defined.

(** * Properties of [GetPaddingVector] *)

Lemma bool_decide_Forall_cons {A} (P : A → Prop) `{!∀ x, Decision (P x)}
    (x : A) (l : list A) :
  bool_decide (Forall P (x :: l)) = bool_decide (P x) && bool_decide (Forall P l).
Proof. rewrite <- bool_decide_and. apply bool_decide_ext, Forall_cons. Qed.

Lemma RecursivePadding_nil_l (second : list DimExpr) (n : Z) (pf ps : list Z) :
  RecursivePadding [] second n pf ps
  = if bool_decide (Forall (fun d => d = DimInt 1) second)
    then Ok (pf ++ seqZ n (Z.of_nat (length second)), ps)
    else Fatal EnforceNotMet "second[ps] must be '1' to padding.".
Proof.
  revert n pf. induction second as [|d second IH]; intros n pf.
  - simpl. by rewrite app_nil_r.
  - change (RecursivePadding [] (d :: second) n pf ps)
      with (PADDLE_ENFORCE (bool_decide (d = DimInt 1))
              "second[ps] must be '1' to padding."
            ≫= λ _, RecursivePadding [] second (n + 1) (pf ++ [n]) ps).
    rewrite bool_decide_Forall_cons, length_cons, Nat2Z.inj_succ.
    destruct (bool_decide (d = DimInt 1)); simpl; [|done].
    rewrite IH, (seqZ_cons n) by lia.
    by rewrite Z.pred_succ, <- Z.add_1_r, <- app_assoc.
Qed.

Lemma RecursivePadding_nil_r (first : list DimExpr) (n : Z) (pf ps : list Z) :
  RecursivePadding first [] n pf ps
  = if bool_decide (Forall (fun d => d = DimInt 1) first)
    then Ok (pf, ps ++ seqZ n (Z.of_nat (length first)))
    else Fatal EnforceNotMet "second[ps] must be '1' to padding.".
Proof.
  revert n ps. induction first as [|d first IH]; intros n ps.
  - simpl. by rewrite app_nil_r.
  - change (RecursivePadding (d :: first) [] n pf ps)
      with (PADDLE_ENFORCE (bool_decide (d = DimInt 1))
              "second[ps] must be '1' to padding."
            ≫= λ _, RecursivePadding first [] (n + 1) pf (ps ++ [n])).
    rewrite bool_decide_Forall_cons, length_cons, Nat2Z.inj_succ.
    destruct (bool_decide (d = DimInt 1)); simpl; [|done].
    rewrite IH, (seqZ_cons n) by lia.
    by rewrite Z.pred_succ, <- Z.add_1_r, <- app_assoc.
Qed.

Lemma RecursivePadding_cons (x y : DimExpr) (first second : list DimExpr)
    (n : Z) (pf ps : list Z) :
  RecursivePadding (x :: first) (y :: second) n pf ps
  = if decide (y = x) then RecursivePadding first second (n + 1) pf ps
    else if decide (y = DimInt 1)
      then RecursivePadding (x :: first) second (n + 1) (pf ++ [n]) ps
    else if decide (x = DimInt 1)
      then RecursivePadding first (y :: second) (n + 1) pf (ps ++ [n])
    else Fatal EnforceNotMet "Padding Error.".
Proof. reflexivity. Qed.

(** C5: [GetPaddingVector] aligns two dimension-size sequences with two
    pointers. [GetPaddingVector([2,3],[2,1,3])] is [padding_f = [1]],
    [padding_s = []]; [GetPaddingVector([1,5],[5])] is [padding_f = []],
    [padding_s = [0]]. At a step with equal current entries both pointers
    advance and no padding is recorded. When one sequence is exhausted the
    call goes on only if every remaining entry of the other is [1], and the
    positions are recorded for the exhausted side; otherwise it throws. At a
    step whose current entries differ and are both other than [1] it throws. *)
Theorem GetPaddingVector_alignment (x y : DimExpr) (first second : list DimExpr)
    (n : Z) (pf ps : list Z) :
  GetPaddingVector [DimInt 2; DimInt 3] [DimInt 2; DimInt 1; DimInt 3]
    = Ok ([1], []) ∧
  GetPaddingVector [DimInt 1; DimInt 5] [DimInt 5] = Ok ([], [0]) ∧
  RecursivePadding (x :: first) (x :: second) n pf ps
    = RecursivePadding first second (n + 1) pf ps ∧
  RecursivePadding [] second n pf ps
    = (if bool_decide (Forall (fun d => d = DimInt 1) second)
       then Ok (pf ++ seqZ n (Z.of_nat (length second)), ps)
       else Fatal EnforceNotMet "second[ps] must be '1' to padding.") ∧
  RecursivePadding first [] n pf ps
    = (if bool_decide (Forall (fun d => d = DimInt 1) first)
       then Ok (pf, ps ++ seqZ n (Z.of_nat (length first)))
       else Fatal EnforceNotMet "second[ps] must be '1' to padding.") ∧
  (y ≠ x → y ≠ DimInt 1 → x ≠ DimInt 1 →
   RecursivePadding (x :: first) (y :: second) n pf ps
     = Fatal EnforceNotMet "Padding Error.").
Proof.
  split_and!.
  - reflexivity.
  - reflexivity.
  - rewrite RecursivePadding_cons. by rewrite decide_True.
  - apply RecursivePadding_nil_l.
  - apply RecursivePadding_nil_r.
  - intros Hxy Hy Hx. rewrite RecursivePadding_cons.
    by rewrite !decide_False.
Qed.

Lemma GetPaddingVector_alignment_witness :
  RecursivePadding [DimInt 4; DimInt 8] [DimInt 5; DimInt 8] 0 [] []
    = Fatal EnforceNotMet "Padding Error.".
Proof.
  apply (GetPaddingVector_alignment (DimInt 4) (DimInt 5) [DimInt 8] [DimInt 8] 0 [] []);
    discriminate.
Defined.

(** * Properties of loop frameworks *)

Lemma get_reduce_loop_reduce_dims (fw : MaybeLoopFramework) :
  length (loop fw) = length (is_reduce fw) →
  get_reduce_loop fw = Ok (reduce_dims fw).
Proof.
  intros Hlen. unfold get_reduce_loop.
  replace (length (is_reduce fw)) with (length (zip (loop fw) (is_reduce fw)))
    by (rewrite length_zip; lia).
  rewrite (foldlR_positions _ _
    (fun acc p => if snd p : bool then Ok (acc ++ [fst p]) else Ok acc)).
  - unfold reduce_dims. generalize (zip (loop fw) (is_reduce fw)). intros l.
    assert (Hgen : ∀ acc : list DimExpr,
      foldlR (fun acc p => if snd p : bool then Ok (acc ++ [fst p]) else Ok acc) acc l
      = Ok (acc ++ (fst <$> filter (fun p : DimExpr * bool => snd p = true) l))).
    { induction l as [|[d []] l IH]; intros acc; csimpl.
      - by rewrite app_nil_r.
      - rewrite IH. by rewrite <- app_assoc.
      - by rewrite IH. }
    apply (Hgen []).
  - intros acc i [d b] Hi. apply lookup_zip_Some in Hi as [Hd Hb].
    rewrite !at_of_nat, Hb, Hd. csimpl. by destruct b.
Qed.

Lemma SqueezeLoopFramework_squeeze (fw : MaybeLoopFramework) :
  length (loop fw) = length (is_reduce fw) →
  ∃ squeezed, SqueezeLoopFramework fw = Ok squeezed ∧
              loop squeezed = squeeze (loop fw).
Proof.
  intros Hlen. unfold SqueezeLoopFramework.
  replace (length (loop fw)) with (length (zip (loop fw) (is_reduce fw)))
    by (rewrite length_zip; lia).
  rewrite (foldlR_positions _ _
    (fun result p =>
       if decide (fst p = DimInt 1) then Ok result
       else Ok (mkMaybeLoopFramework (loop result ++ [fst p])
                                     (is_reduce result ++ [snd p])))).
  - assert (Hsq : squeeze (loop fw) = squeeze (fst <$> zip (loop fw) (is_reduce fw))).
    { f_equal. rewrite fst_zip; [done|lia]. }
    rewrite Hsq. generalize (zip (loop fw) (is_reduce fw)). intros l.
    assert (Hgen : ∀ acc, ∃ squeezed,
      foldlR (fun result p =>
         if decide (fst p = DimInt 1) then Ok result
         else Ok (mkMaybeLoopFramework (loop result ++ [fst p])
                                       (is_reduce result ++ [snd p]))) acc l
      = Ok squeezed ∧ loop squeezed = loop acc ++ squeeze (fst <$> l)).
    { induction l as [|[d b] l IH]; intros acc; csimpl.
      - exists acc. by rewrite app_nil_r.
      - unfold squeeze in *. destruct (decide (d = DimInt 1)) as [->|Hd].
        + rewrite filter_cons_False by naive_solver. bind_simpl. apply IH.
        + rewrite filter_cons_True by done. bind_simpl.
          destruct (IH (mkMaybeLoopFramework (loop acc ++ [d]) (is_reduce acc ++ [b])))
            as (sq & -> & Hsq'). exists sq. split; [done|].
          rewrite Hsq'. csimpl. by rewrite <- app_assoc. }
    apply (Hgen (mkMaybeLoopFramework [] [])).
  - intros acc i [d b] Hi. apply lookup_zip_Some in Hi as [Hd Hb].
    rewrite !at_of_nat, Hd. csimpl.
    destruct (decide (d = DimInt 1)); [done|]. by rewrite Hb.
Qed.

Lemma SplitReduceLoop_dims (fw : MaybeLoopFramework) :
  length (loop fw) = length (is_reduce fw) →
  SplitReduceLoop fw = Ok (non_reduce_dims fw, reduce_dims fw).
Proof.
  intros Hlen. unfold SplitReduceLoop.
  replace (length (is_reduce fw)) with (length (zip (loop fw) (is_reduce fw)))
    by (rewrite length_zip; lia).
  rewrite (foldlR_positions _ _
    (fun acc p =>
       if snd p : bool then Ok (fst acc, snd acc ++ [fst p])
       else Ok (fst acc ++ [fst p], snd acc))).
  - unfold non_reduce_dims, reduce_dims.
    generalize (zip (loop fw) (is_reduce fw)). intros l.
    assert (Hgen : ∀ acc : list DimExpr * list DimExpr,
      foldlR (fun acc p =>
         if snd p : bool then Ok (fst acc, snd acc ++ [fst p])
         else Ok (fst acc ++ [fst p], snd acc)) acc l
      = Ok (fst acc ++ (fst <$> filter (fun p : DimExpr * bool => snd p = false) l),
            snd acc ++ (fst <$> filter (fun p : DimExpr * bool => snd p = true) l))).
    { induction l as [|[d []] l IH]; intros [nr r]; csimpl.
      - by rewrite !app_nil_r.
      - rewrite IH. csimpl. by rewrite <- app_assoc.
      - rewrite IH. csimpl. by rewrite <- app_assoc. }
    apply (Hgen ([], [])).
  - intros [nr r] i [d b] Hi. apply lookup_zip_Some in Hi as [Hd Hb].
    rewrite !at_of_nat, Hb, Hd. csimpl. by destruct b.
Qed.

Lemma pad_with_length {A} (padding_vector : list Z) (base : list A) (filler : A)
    (positions : list Z) (pointer : Z) (l : list A) :
  pad_with padding_vector base filler positions pointer = Ok l →
  length l = length positions.
Proof.
  revert pointer l. induction positions as [|i positions IH]; intros pointer l.
  - by intros [= <-].
  - cbn [pad_with]. destruct (decide (i ∉ padding_vector)).
    + destruct (at_ base pointer) as [x| |]; bind_simpl; [|done..].
      destruct (pad_with _ _ _ positions (pointer + 1)) as [rest| |] eqn:Hrest;
        bind_simpl; [|done..].
      intros [= <-]. cbn [length]. f_equal. by eapply IH.
    + destruct (pad_with _ _ _ positions pointer) as [rest| |] eqn:Hrest;
        bind_simpl; [|done..].
      intros [= <-]. cbn [length]. f_equal. by eapply IH.
Qed.

Lemma CreateIsReduceVector_length (n m : nat) :
  length (CreateIsReduceVector n m) = (n + m)%nat.
Proof.
  unfold CreateIsReduceVector, ConcatVector.
  by rewrite length_app, !length_replicate.
Qed.

(** Every framework the code computes has as many flags as sizes. *)
Lemma GetLoopFramework_wf (G : OpGraph) (GetReduceOp : ReducePattern → nat)
    (p : StmtPattern) (fw : MaybeLoopFramework) :
  stored_framework_wf p →
  GetLoopFramework G GetReduceOp p = Ok fw →
  length (loop fw) = length (is_reduce fw).
Proof.
  assert (Hreduce : ∀ r fw,
    LoopFrameworkVisitor_Reduce G GetReduceOp r = Ok fw →
    length (loop fw) = length (is_reduce fw)).
  { intros r fw'. unfold LoopFrameworkVisitor_Reduce.
    destruct (GatherVector _ _) as [reduce_loops| |]; bind_simpl; [|done..].
    intros [= <-]. cbn [loop is_reduce].
    by rewrite CreateIsReduceVector_length, length_app. }
  destruct p as [t|r|t|rtt|h|u|ip]; cbn [GetLoopFramework]; intros Hwf.
  - intros [= <-]. cbn [loop is_reduce]. by rewrite length_replicate.
  - apply Hreduce.
  - apply Hreduce.
  - unfold LoopFrameworkVisitor_ReduceTreePlusTrivial, LoopFrameworkVisitor_Trivial.
    bind_simpl. cbn [loop].
    destruct (if negb _ then _ else _) as [trivial_loop| |]; bind_simpl; [|done..].
    destruct (LoopFrameworkVisitor_Reduce _ _ _) as [root_fw| |]; bind_simpl; [|done..].
    destruct (SplitReduceLoop root_fw) as [[nr reduce_loop]| |]; bind_simpl; [|done..].
    intros [= <-]. cbn [loop is_reduce].
    by rewrite CreateIsReduceVector_length, length_app.
  - destruct (back _) as [base| |]; bind_simpl; [|done..].
    destruct (snd _) as [base_fw| |]; bind_simpl; [|done..].
    destruct (pad_with _ (loop base_fw) _ _ _) as [l| |] eqn:Hl; bind_simpl; [|done..].
    destruct (pad_with _ (is_reduce base_fw) _ _ _) as [l'| |] eqn:Hl'; bind_simpl; [|done..].
    intros [= <-]. cbn [loop is_reduce].
    apply pad_with_length in Hl, Hl'. congruence.
  - done.
  - intros [= <-]. exact Hwf.
Qed.

(** C6: for two patterns whose loop frameworks are defined,
    [IsLoopFrameworkEqual] returns [true] exactly when the two frameworks
    with the unit dimensions squeezed out are the same sequence of sizes and,
    besides, one side has no reduction dimension or the reduction dimensions
    of the two sides are the same sequence. *)
Theorem IsLoopFrameworkEqual_iff (G : OpGraph) (GetReduceOp : ReducePattern → nat)
    (lhs rhs : StmtPattern) (lhs_loops rhs_loops : MaybeLoopFramework) :
  GetLoopFramework G GetReduceOp lhs = Ok lhs_loops →
  GetLoopFramework G GetReduceOp rhs = Ok rhs_loops →
  stored_framework_wf lhs → stored_framework_wf rhs →
  ∃ b, IsLoopFrameworkEqual G GetReduceOp lhs rhs = Ok b ∧
       (b = true ↔
        squeeze (loop lhs_loops) = squeeze (loop rhs_loops) ∧
        (reduce_dims lhs_loops = [] ∨ reduce_dims rhs_loops = [] ∨
         reduce_dims lhs_loops = reduce_dims rhs_loops)).
Proof.
  intros Hlhs Hrhs Hwfl Hwfr.
  pose proof (GetLoopFramework_wf _ _ _ _ Hwfl Hlhs) as Hlenl.
  pose proof (GetLoopFramework_wf _ _ _ _ Hwfr Hrhs) as Hlenr.
  unfold IsLoopFrameworkEqual. rewrite Hlhs, Hrhs. bind_simpl.
  rewrite !get_reduce_loop_reduce_dims by done. bind_simpl.
  destruct (SqueezeLoopFramework_squeeze lhs_loops Hlenl) as (sl & -> & Hsl).
  destruct (SqueezeLoopFramework_squeeze rhs_loops Hlenr) as (sr & -> & Hsr).
  bind_simpl. rewrite Hsl, Hsr. eexists. split; [reflexivity|].
  rewrite andb_true_iff, bool_decide_eq_true.
  apply and_iff_compat_l.
  destruct (bool_decide (reduce_dims lhs_loops = [])) eqn:Hl0.
  { apply bool_decide_eq_true_1 in Hl0. cbn [orb]. tauto. }
  destruct (bool_decide (reduce_dims rhs_loops = [])) eqn:Hr0.
  { apply bool_decide_eq_true_1 in Hr0. cbn [orb]. tauto. }
  apply bool_decide_eq_false_1 in Hl0, Hr0. cbn [orb].
  rewrite bool_decide_eq_true. tauto.
Qed.

Lemma GatherVector_ExcludeIndex {A} (l : list A) (idx : list Z) :
  GatherVector l (ExcludeIndex (length l) idx) = Ok (without_positions 0 idx l).
Proof.
  unfold GatherVector, ExcludeIndex.
  assert (Hgen : ∀ suf pre, l = pre ++ suf →
    mapR (at_ l)
      (filter (fun i => i ∉ idx) (seqZ (Z.of_nat (length pre)) (Z.of_nat (length suf))))
    = Ok (without_positions (Z.of_nat (length pre)) idx suf)).
  { induction suf as [|x suf IH]; intros pre Hl; [done|].
    rewrite length_cons, Nat2Z.inj_succ, seqZ_cons by lia.
    rewrite Z.pred_succ. cbn [without_positions].
    specialize (IH (pre ++ [x])).
    rewrite length_app, Nat2Z.inj_add in IH. cbn [length] in IH.
    change (Z.of_nat 1) with 1 in IH. rewrite <- Z.add_1_r.
    destruct (decide (Z.of_nat (length pre) ∈ idx)) as [Hin|Hout].
    - rewrite filter_cons_False by naive_solver.
      apply IH. by rewrite <- app_assoc.
    - rewrite filter_cons_True by done. cbn [mapR].
      rewrite at_of_nat. subst l.
      rewrite lookup_app_r, Nat.sub_diag by lia. bind_simpl.
      rewrite IH by (by rewrite <- app_assoc). done. }
  apply (Hgen l []). done.
Qed.

Lemma without_positions_nil {A} (i : Z) (l : list A) :
  without_positions i [] l = l.
Proof.
  revert i. induction l as [|x l IH]; intros i; cbn [without_positions]; [done|].
  rewrite decide_False by apply not_elem_of_nil. by rewrite IH.
Qed.

(** The reduction dimensions of the framework of a [ReducePattern] are the
    trailing ones. *)
Lemma reduce_dims_trailing (flatten_loops reduce_loops : list DimExpr) :
  reduce_dims (mkMaybeLoopFramework (ConcatVector flatten_loops reduce_loops)
    (CreateIsReduceVector (length flatten_loops) (length reduce_loops)))
  = reduce_loops.
Proof.
  unfold reduce_dims, CreateIsReduceVector, ConcatVector. cbn [loop is_reduce].
  induction flatten_loops as [|d l IH]; csimpl.
  - induction reduce_loops as [|d l IH]; csimpl; [done|]. by rewrite IH.
  - exact IH.
Qed.

(** C7, as the code has it: for a tree with a sink, [GetLoopFramework] is
    the loop of the sink followed by the reduction dimensions of the root of
    the tree, flagged as reduction. With an empty [fake_reduce_iter_idx] the
    loop of the sink is kept whole; otherwise its entries at the listed
    positions are dropped (not moved), and the reduction dimensions of the
    root take their place at the tail. It is [GetLoopValueDims] that moves the
    value dims at the listed positions to the tail. *)
Theorem GetLoopFramework_ReduceTreePlusTrivial (G : OpGraph)
    (GetReduceOp : ReducePattern → nat) (default_ValueDim : ValueDim)
    (p : ReduceTreePlusTrivialPattern) (reduce_loops : list DimExpr) :
  let reduce_op := GetReduceOp (GetRootPattern (tree p)) in
  let sink_result := op_result G (sink_op (sink_trivial p)) 0 in
  let fake := sizes_to_Z (fake_reduce_iter_idx p) in
  let kept := without_positions 0 fake (GetDimExprsFromValue G sink_result) in
  GatherVector (GetDimExprsFromValue G (op_operand_source G reduce_op 0))
    (GetReduceAxisIdx G reduce_op) = Ok reduce_loops →
  GetLoopFramework G GetReduceOp (ReduceTreePlusTrivial p)
    = Ok (mkMaybeLoopFramework (kept ++ reduce_loops)
            (replicate (length kept) false
             ++ replicate (length reduce_loops) true)) ∧
  (fake_reduce_iter_idx p = [] → kept = GetDimExprsFromValue G sink_result) ∧
  (fake_reduce_iter_idx p ≠ [] →
   GetLoopValueDims G GetReduceOp default_ValueDim (ReduceTreePlusTrivial p)
   = (relocated ← relocate_to_tail (GetAllValueDimFromValue G sink_result) fake;
      Ok [relocated])).
Proof.
  intros reduce_op sink_result fake kept Hgather. split_and!.
  - cbn [GetLoopFramework].
    unfold LoopFrameworkVisitor_ReduceTreePlusTrivial, LoopFrameworkVisitor_Trivial.
    bind_simpl. cbn [loop]. fold sink_result.
    assert (Hkept :
      (if negb (bool_decide (fake_reduce_iter_idx p = []))
       then GatherVector (GetDimExprsFromValue G sink_result)
              (ExcludeIndex (length (GetDimExprsFromValue G sink_result))
                 (sizes_to_Z (fake_reduce_iter_idx p)))
       else Ok (GetDimExprsFromValue G sink_result)) = Ok kept).
    { subst kept fake. case_bool_decide as Hfake; cbn [negb].
      - rewrite Hfake. cbn. by rewrite without_positions_nil.
      - apply GatherVector_ExcludeIndex. }
    rewrite Hkept. bind_simpl.
    unfold LoopFrameworkVisitor_Reduce. fold reduce_op.
    rewrite Hgather. bind_simpl.
    rewrite SplitReduceLoop_dims
      by (cbn [loop is_reduce]; by rewrite CreateIsReduceVector_length, length_app).
    bind_simpl. by rewrite reduce_dims_trailing.
  - intros Hfake. subst kept fake. rewrite Hfake. cbn.
    apply without_positions_nil.
  - intros Hfake. cbn [GetLoopValueDims].
    unfold LoopValueDimsVisitor_ReduceTreePlusTrivial, LoopValueDimsVisitor_Trivial.
    bind_simpl. rewrite bool_decide_eq_false_2 by done.
    fold sink_result. fold fake.
    change (at_ [GetAllValueDimFromValue G sink_result] 0)
      with (Ok (GetAllValueDimFromValue G sink_result)).
    bind_simpl. rewrite GatherVector_ExcludeIndex. bind_simpl.
    unfold relocate_to_tail.
    by destruct (GatherVector (GetAllValueDimFromValue G sink_result) fake).
Qed.

(** Not C7 as stated: in [rtt_fake] the sink has the loop [[2,3,4]] and
    position 1 is a fake reduce axis; moving that entry to the tail would give
    [[2,4,3]], but [GetLoopFramework] drops it and appends the reduction
    dimension of the root, of size 5. *)
Lemma GetLoopFramework_ReduceTreePlusTrivial_counterexample :
  fake_reduce_iter_idx rtt_fake = [1%nat] ∧
  LoopFrameworkVisitor_Trivial graph (sink_trivial rtt_fake)
    = Ok (mkMaybeLoopFramework [DimInt 2; DimInt 3; DimInt 4] [false; false; false]) ∧
  relocate_to_tail [DimInt 2; DimInt 3; DimInt 4] [1]
    = Ok [DimInt 2; DimInt 4; DimInt 3] ∧
  GetLoopFramework graph reduce_op_of (ReduceTreePlusTrivial rtt_fake)
    = Ok (mkMaybeLoopFramework [DimInt 2; DimInt 4; DimInt 5] [false; false; true]) ∧
  [DimInt 2; DimInt 4; DimInt 5] ≠ [DimInt 2; DimInt 4; DimInt 3].
Proof. split_and!; [reflexivity..|discriminate]. Qed.

Lemma GetLoopFramework_ReduceTreePlusTrivial_witness :
  GetLoopFramework graph reduce_op_of (ReduceTreePlusTrivial rtt_fake)
    = Ok (mkMaybeLoopFramework [DimInt 2; DimInt 4; DimInt 5] [false; false; true]) ∧
  GetLoopValueDims graph reduce_op_of (mkValueDim 0 0) (ReduceTreePlusTrivial rtt_fake)
    = Ok [[mkValueDim 10 0; mkValueDim 10 2; mkValueDim 10 1]] ∧
  GetLoopFramework graph reduce_op_of
      (ReduceTreePlusTrivial
         (mkReduceTreePlusTrivialPattern 24 (tree_leaf 11 11) (trivial_leaf 10 10)
            [] (NewTracker [])))
    = Ok (mkMaybeLoopFramework [DimInt 2; DimInt 3; DimInt 4; DimInt 5]
            [false; false; false; true]).
Proof.
  split_and!.
  - apply (GetLoopFramework_ReduceTreePlusTrivial graph reduce_op_of
             (mkValueDim 0 0) rtt_fake [DimInt 5]). reflexivity.
  - apply (GetLoopFramework_ReduceTreePlusTrivial graph reduce_op_of
             (mkValueDim 0 0) rtt_fake [DimInt 5]); [reflexivity|discriminate].
  - apply (GetLoopFramework_ReduceTreePlusTrivial graph reduce_op_of
             (mkValueDim 0 0)
             (mkReduceTreePlusTrivialPattern 24 (tree_leaf 11 11) (trivial_leaf 10 10)
                [] (NewTracker [])) [DimInt 5]). reflexivity.
Defined.

Lemma IsLoopFrameworkEqual_iff_witness :
  ∃ b,
    IsLoopFrameworkEqual graph reduce_op_of (Trivial (trivial_leaf 10 10))
      (ItersPermutation
         (mkItersPermutationPattern 25 [10%nat] (NewTracker [])
            ([DimInt 2; DimInt 1; DimInt 3; DimInt 4], [false; false; false; false])))
    = Ok b ∧
    (b = true ↔
     squeeze [DimInt 2; DimInt 3; DimInt 4]
       = squeeze [DimInt 2; DimInt 1; DimInt 3; DimInt 4] ∧
     (reduce_dims (mkMaybeLoopFramework [DimInt 2; DimInt 3; DimInt 4]
                     [false; false; false]) = [] ∨
      reduce_dims (mkMaybeLoopFramework [DimInt 2; DimInt 1; DimInt 3; DimInt 4]
                     [false; false; false; false]) = [] ∨
      reduce_dims (mkMaybeLoopFramework [DimInt 2; DimInt 3; DimInt 4]
                     [false; false; false])
      = reduce_dims (mkMaybeLoopFramework [DimInt 2; DimInt 1; DimInt 3; DimInt 4]
                       [false; false; false; false]))).
Proof.
  apply (IsLoopFrameworkEqual_iff graph reduce_op_of
           (Trivial (trivial_leaf 10 10))
           (ItersPermutation
              (mkItersPermutationPattern 25 [10%nat] (NewTracker [])
                 ([DimInt 2; DimInt 1; DimInt 3; DimInt 4],
                  [false; false; false; false])))
           (mkMaybeLoopFramework [DimInt 2; DimInt 3; DimInt 4] [false; false; false])
           (mkMaybeLoopFramework [DimInt 2; DimInt 1; DimInt 3; DimInt 4]
              [false; false; false; false])).
  - reflexivity.
  - reflexivity.
  - exact I.
  - reflexivity.
Defined.

(** The reduction dimensions compared are those of the frameworks as they
    are, unit dimensions included: the frameworks [[4,1,4]] (the last two
    reduced) and [[4,4]] (the last reduced) squeeze to the same sizes, but
    their reduction dimensions [[1,4]] and [[4]] differ, and the answer is
    [false]. *)
Example IsLoopFrameworkEqual_unit_reduce_dim :
  IsLoopFrameworkEqual graph reduce_op_of
    (ItersPermutation
       (mkItersPermutationPattern 26 [10%nat] (NewTracker [])
          ([DimInt 4; DimInt 1; DimInt 4], [false; true; true])))
    (ItersPermutation
       (mkItersPermutationPattern 27 [10%nat] (NewTracker [])
          ([DimInt 4; DimInt 4], [false; true])))
  = Ok false.
Proof. reflexivity. Qed.

(** * Properties of the unpool kernels *)

(** C10: [UnpoolKernel] and [Unpool3dKernel] look at the dtype of the indices
    tensor only to compare it with [INT32]: then the [int] instantiation runs,
    and for every other dtype the [int64_t] instantiation; the kernel itself
    rejects no dtype, its outcome is the outcome of the instantiation. *)
Theorem UnpoolKernel_dispatch (T : Type) (zero : T)
    (DataType : Type) `{!EqDecision DataType} (INT32 : DataType)
    (data_as : Unpool.IndT → Unpool.DenseTensor DataType Z → Result (list Z))
    (x : Unpool.DenseTensor DataType T) (indices : Unpool.DenseTensor DataType Z)
    (ksize strides paddings output_size : list Z) (data_format : string)
    (out_dims : list Z) :
  Unpool.UnpoolKernel T zero INT32 data_as x indices ksize strides paddings
      output_size data_format out_dims
    = Unpool.Unpool T zero data_as
        (if bool_decide (Unpool.dtype indices = INT32)
         then Unpool.int else Unpool.int64_t)
        x indices out_dims ∧
  Unpool.Unpool3dKernel T zero INT32 data_as x indices ksize strides paddings
      output_size data_format out_dims
    = Unpool.Unpool3d T zero data_as
        (if bool_decide (Unpool.dtype indices = INT32)
         then Unpool.int else Unpool.int64_t)
        x indices out_dims.
Proof.
  unfold Unpool.UnpoolKernel, Unpool.Unpool3dKernel.
  destruct (decide (Unpool.dtype indices = INT32)) as [Heq|Hne].
  - by rewrite bool_decide_eq_true_2.
  - by rewrite bool_decide_eq_false_2.
Qed.

(** * The loops of the kernels on indices within range *)

(** A loop whose body keeps an invariant indexed by the number of rounds. *)
Lemma foldlR_invariant {A} (F : A → Z → Result A) (P : nat → A → Prop)
    (n : nat) (z : Z) (a : A) :
  P 0%nat a →
  (∀ k a i, (k < n)%nat → P k a → ∃ a', F a i = Ok a' ∧ P (S k) a') →
  ∃ a', foldlR F a (seqZ z (Z.of_nat n)) = Ok a' ∧ P n a'.
Proof.
  intros Hinit Hstep.
  assert (Hgen : ∀ m k a z, (k + m = n)%nat → P k a →
    ∃ a', foldlR F a (seqZ z (Z.of_nat m)) = Ok a' ∧ P n a').
  { induction m as [|m IH]; intros k a0 z0 Hk Ha.
    - exists a0. split; [done|]. by replace n with k by lia.
    - rewrite Nat2Z.inj_succ, seqZ_cons, Z.pred_succ by lia. cbn [foldlR].
      destruct (Hstep k a0 z0) as (a1 & -> & Ha1); [lia|done|]. bind_simpl.
      apply (IH (S k)); [lia|done]. }
  apply (Hgen n 0%nat); [lia|done].
Qed.

Lemma store_in_range {A} (buf : list A) (i : Z) (v : A) :
  0 ≤ i < Z.of_nat (length buf) →
  Unpool.store buf i v = Ok (<[Z.to_nat i := v]> buf).
Proof. intros Hi. unfold Unpool.store. by destruct (decide _). Qed.

(** A loop whose body keeps an invariant for [n] rounds and throws in the
    next one. *)
Lemma foldlR_fails {A} (F : A → Z → Result A) (P : nat → A → Prop)
    (n m : nat) (z : Z) (a : A) (ty : ErrorType) (msg : string) :
  (n < m)%nat →
  P 0%nat a →
  (∀ k a i, (k < n)%nat → P k a → ∃ a', F a i = Ok a' ∧ P (S k) a') →
  (∀ a i, P n a → F a i = Fatal ty msg) →
  foldlR F a (seqZ z (Z.of_nat m)) = Fatal ty msg.
Proof.
  intros Hnm Hinit Hstep Hfail.
  assert (Hgen : ∀ r k a z, (k + r = n)%nat → P k a →
    foldlR F a (seqZ z (Z.of_nat (r + (m - n)))) = Fatal ty msg).
  { induction r as [|r IH]; intros k a0 z0 Hk Ha.
    - replace (0 + (m - n))%nat with (S (m - n - 1)) by lia.
      rewrite Nat2Z.inj_succ, seqZ_cons, Z.pred_succ by lia. cbn [foldlR].
      rewrite Hfail; [done|]. by replace n with k by lia.
    - replace (S r + (m - n))%nat with (S (r + (m - n))) by lia.
      rewrite Nat2Z.inj_succ, seqZ_cons, Z.pred_succ by lia. cbn [foldlR].
      destruct (Hstep k a0 z0) as (a1 & -> & Ha1); [lia|done|]. bind_simpl.
      apply (IH (S k)); [lia|done]. }
  replace m with (n + (m - n))%nat at 1 by lia. apply (Hgen n 0%nat); [lia|done].
Qed.

Section UnpoolLoops.

Variable T : Type.
Variables (input_buf : list T) (indices_buf : list Z).
Variables (input_feasize output_feasize : nat).
Variable message : string.

#[local] Abbreviation plane_values k :=
  (take input_feasize (drop (k * input_feasize) input_buf)).
#[local] Abbreviation plane_indices k :=
  (take input_feasize (drop (k * input_feasize) indices_buf)).
#[local] Abbreviation pointers k output :=
  (output, Z.of_nat (k * input_feasize), Z.of_nat (k * input_feasize),
   Z.of_nat (k * output_feasize)).
#[local] Abbreviation plane :=
  (Unpool.unpool_plane T input_buf indices_buf (Z.of_nat input_feasize)
     (Z.of_nat output_feasize) message).

(** The loop over plane [k] reads the entries of the plane in turn. *)
Lemma unpool_plane_entries (k : nat) (output : list T) :
  (k * input_feasize + input_feasize ≤ length input_buf)%nat →
  (k * input_feasize + input_feasize ≤ length indices_buf)%nat →
  plane (pointers k output)
  = (output ← foldlR (fun output p =>
         if decide (p.1 < Z.of_nat output_feasize)
         then Unpool.store output (Z.of_nat (k * output_feasize) + p.1) p.2
         else Fatal InvalidArgument message)
       output (zip (plane_indices k) (plane_values k));
     Ok (pointers (S k) output)).
Proof.
  intros Hinput Hindices. unfold Unpool.unpool_plane.
  assert (Hlen : length (zip (plane_indices k) (plane_values k)) = input_feasize).
  { rewrite length_zip, !length_take, !length_drop. lia. }
  rewrite <- Hlen at 1.
  rewrite (foldlR_positions (zip (plane_indices k) (plane_values k)) _
    (fun output p =>
       if decide (p.1 < Z.of_nat output_feasize)
       then Unpool.store output (Z.of_nat (k * output_feasize) + p.1) p.2
       else Fatal InvalidArgument message)).
  - destruct (foldlR _ _ _) as [output'| |]; bind_simpl; [|done..].
    repeat f_equal; lia.
  - intros output0 i [index v] Hi. apply lookup_zip_Some in Hi as [Hindex Hv].
    apply lookup_take_Some in Hindex as [Hindex _].
    apply lookup_take_Some in Hv as [Hv _].
    rewrite lookup_drop in Hindex. rewrite lookup_drop in Hv.
    rewrite <- !Nat2Z.inj_add, !at_of_nat, Hindex, Hv. done.
Qed.

(** On a plane whose indices name positions of the output plane, every
    element is written where its index names. *)
Lemma unpool_plane_in_range (k : nat) (output : list T) :
  (k * input_feasize + input_feasize ≤ length input_buf)%nat →
  (k * input_feasize + input_feasize ≤ length indices_buf)%nat →
  (k * output_feasize + output_feasize ≤ length output)%nat →
  (∀ j index, indices_buf !! j = Some index →
     (k * input_feasize ≤ j < k * input_feasize + input_feasize)%nat →
     0 ≤ index < Z.of_nat output_feasize) →
  plane (pointers k output)
  = Ok (pointers (S k)
          (Unpool.write_plane (plane_values k) (plane_indices k)
             (Z.of_nat (k * output_feasize)) output)) ∧
  length (Unpool.write_plane (plane_values k) (plane_indices k)
            (Z.of_nat (k * output_feasize)) output) = length output.
Proof.
  intros Hinput Hindices Houtput Hrange.
  rewrite unpool_plane_entries by done. unfold Unpool.write_plane.
  assert (Hall : ∀ p, p ∈ zip (plane_indices k) (plane_values k) →
                      0 ≤ p.1 < Z.of_nat output_feasize).
  { intros [index v] Hp. apply list_elem_of_lookup in Hp as [i Hi].
    apply lookup_zip_Some in Hi as [Hi _].
    apply lookup_take_Some in Hi as [Hi Hlt]. rewrite lookup_drop in Hi.
    apply (Hrange _ _ Hi). lia. }
  revert output Houtput Hall.
  generalize (zip (plane_indices k) (plane_values k)). intros l.
  induction l as [|[index v] l IH]; intros output Houtput Hall; [done|].
  cbn [foldlR foldl fst snd].
  assert (0 ≤ index < Z.of_nat output_feasize) as Hindex
    by (apply (Hall (index, v)), list_elem_of_here).
  destruct (decide (index < Z.of_nat output_feasize)) as [_|?]; [|lia].
  rewrite store_in_range by lia. bind_simpl.
  destruct (IH (<[Z.to_nat (Z.of_nat (k * output_feasize) + index) := v]> output))
    as [-> ->].
  - rewrite length_insert. lia.
  - intros p Hp. apply Hall. by apply list_elem_of_further.
  - by rewrite length_insert.
Qed.

(** The loop over a plane throws at the first index that is not below the
    output feature size. *)
Lemma unpool_plane_too_large (k i0 : nat) (index0 : Z) (output : list T) :
  (k * input_feasize + input_feasize ≤ length input_buf)%nat →
  (k * input_feasize + input_feasize ≤ length indices_buf)%nat →
  (k * output_feasize + output_feasize ≤ length output)%nat →
  (i0 < input_feasize)%nat →
  indices_buf !! (k * input_feasize + i0)%nat = Some index0 →
  Z.of_nat output_feasize ≤ index0 →
  (∀ j index, indices_buf !! j = Some index →
     (k * input_feasize ≤ j < k * input_feasize + i0)%nat →
     0 ≤ index < Z.of_nat output_feasize) →
  plane (pointers k output) = Fatal InvalidArgument message.
Proof.
  intros Hinput Hindices Houtput Hi0 Hindex0 Hlarge Hrange.
  rewrite unpool_plane_entries by done.
  assert (Hlen : length (zip (plane_indices k) (plane_values k)) = input_feasize).
  { rewrite length_zip, !length_take, !length_drop. lia. }
  assert (Hat : ∃ v, zip (plane_indices k) (plane_values k) !! i0
                     = Some (index0, v)).
  { destruct (lookup_lt_is_Some_2 (zip (plane_indices k) (plane_values k)) i0)
      as [[index v] Hp]; [lia|].
    exists v. pose proof Hp as Hp'. apply lookup_zip_Some in Hp' as [Hindex _].
    apply lookup_take_Some in Hindex as [Hindex _].
    rewrite lookup_drop in Hindex. congruence. }
  destruct Hat as [v0 Hat].
  assert (Hbefore : ∀ i p, (i < i0)%nat →
            zip (plane_indices k) (plane_values k) !! i = Some p →
            0 ≤ p.1 < Z.of_nat output_feasize).
  { intros i [index v] Hi Hp. apply lookup_zip_Some in Hp as [Hindex _].
    apply lookup_take_Some in Hindex as [Hindex _].
    rewrite lookup_drop in Hindex. apply (Hrange _ _ Hindex). lia. }
  clear Hlen Hi0 Hindex0 Hrange. revert i0 output Houtput Hat Hbefore.
  generalize (zip (plane_indices k) (plane_values k)). intros l.
  induction l as [|[index v] l IH]; intros i0 output Houtput Hat Hbefore; [done|].
  destruct i0 as [|i0]; cbn [foldlR fst snd].
  - injection Hat as -> ->.
    destruct (decide (index0 < Z.of_nat output_feasize)); [lia|done].
  - assert (0 ≤ index < Z.of_nat output_feasize) as Hindex
      by (apply (Hbefore 0%nat (index, v)); [lia|done]).
    destruct (decide (index < Z.of_nat output_feasize)) as [_|?]; [|lia].
    rewrite store_in_range by lia. bind_simpl.
    apply (IH i0); [by rewrite length_insert|done|].
    intros i p Hi Hp. apply (Hbefore (S i)); [lia|done].
Qed.

Lemma unpool_writes_S (planes : nat) (output : list T) :
  Unpool.unpool_writes input_buf indices_buf (S planes) input_feasize
    output_feasize output
  = Unpool.write_plane (plane_values planes) (plane_indices planes)
      (Z.of_nat (planes * output_feasize))
      (Unpool.unpool_writes input_buf indices_buf planes input_feasize
         output_feasize output).
Proof. unfold Unpool.unpool_writes. by rewrite seq_S, foldl_app. Qed.

#[local] Abbreviation writes output k :=
  (Unpool.unpool_writes input_buf indices_buf k input_feasize output_feasize
     output).

(** The state of the loops after [k] planes without a throw. *)
#[local] Abbreviation after output k st :=
  (st = pointers k (writes output k) ∧ length (writes output k) = length output).

(** One more plane, when its indices are within range. *)
Lemma unpool_plane_step (planes k : nat) (output : list T)
    (st : list T * Z * Z * Z) :
  (planes * input_feasize ≤ length input_buf)%nat →
  (planes * input_feasize ≤ length indices_buf)%nat →
  (planes * output_feasize ≤ length output)%nat →
  (k < planes)%nat →
  (∀ j index, indices_buf !! j = Some index →
     (j < S k * input_feasize)%nat → 0 ≤ index < Z.of_nat output_feasize) →
  after output k st →
  ∃ st', plane st = Ok st' ∧ after output (S k) st'.
Proof.
  intros Hinput Hindices Houtput Hk Hrange [-> Hlen].
  assert (S k * input_feasize ≤ planes * input_feasize)%nat
    by (apply Nat.mul_le_mono_r; lia).
  assert (S k * output_feasize ≤ planes * output_feasize)%nat
    by (apply Nat.mul_le_mono_r; lia).
  destruct (unpool_plane_in_range k (writes output k)) as [Hplane Hlenk];
    [lia..| |].
  { intros j index Hj Hjk. apply (Hrange j index Hj). lia. }
  eexists. split; [exact Hplane|].
  rewrite unpool_writes_S. split; [done|congruence].
Qed.

(** When every index read names a position of its output plane, the three
    loops complete, and the output is the buffer given with every input
    element written at the position its index names. *)
Lemma unpool_loops_in_range (batch_size output_channels : nat) (output : list T) :
  (batch_size * output_channels * input_feasize ≤ length input_buf)%nat →
  (batch_size * output_channels * input_feasize ≤ length indices_buf)%nat →
  (batch_size * output_channels * output_feasize ≤ length output)%nat →
  (∀ j index, indices_buf !! j = Some index →
     (j < batch_size * output_channels * input_feasize)%nat →
     0 ≤ index < Z.of_nat output_feasize) →
  Unpool.unpool_loops T input_buf indices_buf (Z.of_nat batch_size)
    (Z.of_nat output_channels) (Z.of_nat input_feasize)
    (Z.of_nat output_feasize) message output
  = Ok (writes output (batch_size * output_channels)%nat).
Proof.
  intros Hinput Hindices Houtput Hrange. unfold Unpool.unpool_loops.
  match goal with
  | |- (foldlR ?F ?a _ ≫= _) = _ =>
      destruct (foldlR_invariant F
                  (fun b st => after output (b * output_channels)%nat st)
                  batch_size 0 a) as (st & -> & -> & _)
  end.
  - by split.
  - intros b st i Hb Hst.
    match goal with
    | |- ∃ a', foldlR ?F ?a _ = _ ∧ _ =>
        destruct (foldlR_invariant F
                    (fun c st => after output (b * output_channels + c)%nat st)
                    output_channels 0 a) as (st' & Hst' & HP')
    end.
    + by rewrite Nat.add_0_r.
    + intros c st' i' Hc Hst'.
      replace (b * output_channels + S c)%nat
        with (S (b * output_channels + c)) by lia.
      apply (unpool_plane_step (batch_size * output_channels)); [done..|nia| |done].
      intros j index Hj Hlt. apply (Hrange j index Hj).
      assert (S (b * output_channels + c) * input_feasize
              ≤ batch_size * output_channels * input_feasize)%nat
        by (apply Nat.mul_le_mono_r; nia).
      lia.
    + exists st'. split; [done|].
      by replace (S b * output_channels)%nat
        with (b * output_channels + output_channels)%nat by lia.
  - done.
Qed.

(** The three loops throw [InvalidArgument] at the first index read that is
    not below the output feature size, when the indices read before it name
    positions of their output planes. *)
Lemma unpool_loops_index_too_large (batch_size output_channels : nat)
    (b0 c0 i0 : nat) (index0 : Z) (output : list T) :
  (batch_size * output_channels * input_feasize ≤ length input_buf)%nat →
  (batch_size * output_channels * input_feasize ≤ length indices_buf)%nat →
  (batch_size * output_channels * output_feasize ≤ length output)%nat →
  (b0 < batch_size)%nat → (c0 < output_channels)%nat → (i0 < input_feasize)%nat →
  indices_buf !! ((b0 * output_channels + c0) * input_feasize + i0)%nat
    = Some index0 →
  Z.of_nat output_feasize ≤ index0 →
  (∀ j index, indices_buf !! j = Some index →
     (j < (b0 * output_channels + c0) * input_feasize + i0)%nat →
     0 ≤ index < Z.of_nat output_feasize) →
  Unpool.unpool_loops T input_buf indices_buf (Z.of_nat batch_size)
    (Z.of_nat output_channels) (Z.of_nat input_feasize)
    (Z.of_nat output_feasize) message output
  = Fatal InvalidArgument message.
Proof.
  intros Hinput Hindices Houtput Hb0 Hc0 Hi0 Hindex0 Hlarge Hrange.
  unfold Unpool.unpool_loops.
  assert (Hk0 : (b0 * output_channels + c0 < batch_size * output_channels)%nat)
    by nia.
  assert (Hstep : ∀ k st, (k < b0 * output_channels + c0)%nat →
            after output k st → ∃ st', plane st = Ok st' ∧ after output (S k) st').
  { intros k st Hk Hst.
    apply (unpool_plane_step (batch_size * output_channels)); [done..|lia| |done].
    intros j index Hj Hlt. apply (Hrange j index Hj).
    assert (S k * input_feasize ≤ (b0 * output_channels + c0) * input_feasize)%nat
      by (apply Nat.mul_le_mono_r; lia).
    lia. }
  match goal with
  | |- (foldlR ?F ?a _ ≫= _) = _ =>
      rewrite (foldlR_fails F
                 (fun b st => after output (b * output_channels)%nat st)
                 b0 batch_size 0 a InvalidArgument message); [done|done| | |]
  end.
  - by split.
  - intros b st i Hb Hst.
    match goal with
    | |- ∃ a', foldlR ?F ?a _ = _ ∧ _ =>
        destruct (foldlR_invariant F
                    (fun c st => after output (b * output_channels + c)%nat st)
                    output_channels 0 a) as (st' & Hst' & HP')
    end.
    + by rewrite Nat.add_0_r.
    + intros c st' i' Hc Hst'.
      replace (b * output_channels + S c)%nat
        with (S (b * output_channels + c)) by lia.
      apply Hstep; [nia|done].
    + exists st'. split; [done|].
      by replace (S b * output_channels)%nat
        with (b * output_channels + output_channels)%nat by lia.
  - intros st i Hst.
    match goal with
    | |- foldlR ?F ?a _ = _ =>
        apply (foldlR_fails F
                 (fun c st => after output (b0 * output_channels + c)%nat st)
                 c0 output_channels 0 a InvalidArgument message); [done| | |]
    end.
    + by rewrite Nat.add_0_r.
    + intros c st' i' Hc Hst'.
      replace (b0 * output_channels + S c)%nat
        with (S (b0 * output_channels + c)) by lia.
      apply Hstep; [lia|done].
    + intros st' i' [-> Hlen].
      assert (S (b0 * output_channels + c0) * input_feasize
              ≤ batch_size * output_channels * input_feasize)%nat
        by (apply Nat.mul_le_mono_r; lia).
      assert (S (b0 * output_channels + c0) * output_feasize
              ≤ batch_size * output_channels * output_feasize)%nat
        by (apply Nat.mul_le_mono_r; lia).
      apply (unpool_plane_too_large _ i0 index0); [lia..|done|done|].
      intros j index Hj Hjk. apply (Hrange j index Hj). lia.
Qed.

End UnpoolLoops.

(** * The lower bound of the index

    The bounds check of the kernels is [PADDLE_ENFORCE_LT(index,
    output_feasize)]: an index below zero passes it. *)

(** C9 fails on the code at a negative index. Every index below is less than
    the output feature size (1), so by C9 the kernel should complete with
    every input element written at the position its index names. With the
    single index -1 the write [output_data[-1] = ...] lands before the output
    buffer: the behaviour is undefined. With -1 as the index of the second
    channel the kernel completes, but the element of the second channel (6)
    has been written over the element of the first channel, and the plane of
    the second channel is still zero. The same holds for [Unpool3d]. *)
Theorem Unpool_negative_index :
  Forall (fun index => index < 1) (Unpool.data indices_negative) ∧
  Unpool.Unpool Z 0 plain_data Unpool.int x_one indices_negative [1; 1; 1; 1]
    = Undefined ∧
  Forall (fun index => index < 1) (Unpool.data indices_second_negative) ∧
  Unpool.Unpool Z 0 plain_data Unpool.int x_two indices_second_negative [1; 2; 1; 1]
    = Ok [6; 0] ∧
  Unpool.Unpool3d Z 0 plain_data Unpool.int x3d_one indices3d_negative [1; 1; 1; 1; 1]
    = Undefined.
Proof.
  split_and!.
  - repeat constructor.
  - vm_compute. reflexivity.
  - repeat constructor.
  - vm_compute. reflexivity.
  - vm_compute. reflexivity.
Qed.

(** * Further properties of [GetPaddingVector] *)

Lemma squeeze_cons (d : DimExpr) (l : list DimExpr) :
  squeeze (d :: l) = if decide (d = DimInt 1) then squeeze l else d :: squeeze l.
Proof.
  unfold squeeze. destruct (decide (d = DimInt 1)).
  - by rewrite filter_cons_False by naive_solver.
  - by rewrite filter_cons_True.
Qed.

Lemma squeeze_units (l : list DimExpr) :
  squeeze l = [] ↔ Forall (fun d => d = DimInt 1) l.
Proof.
  induction l as [|d l IH]; [by split; [constructor|]|].
  rewrite squeeze_cons, Forall_cons. destruct (decide (d = DimInt 1)); [tauto|].
  split; [done|tauto].
Qed.

Lemma Aligned_units_l (second : list DimExpr) (n : Z) :
  Forall (fun d => d = DimInt 1) second →
  Aligned n [] second (seqZ n (Z.of_nat (length second))) [] second.
Proof.
  intros Hall. revert n. induction Hall as [|d second -> _ IH]; intros n.
  - constructor.
  - rewrite length_cons, Nat2Z.inj_succ, (seqZ_cons n), Z.pred_succ by lia.
    constructor. rewrite <- Z.add_1_r. apply IH.
Qed.

Lemma Aligned_units_r (first : list DimExpr) (n : Z) :
  Forall (fun d => d = DimInt 1) first →
  Aligned n first [] [] (seqZ n (Z.of_nat (length first))) first.
Proof.
  intros Hall. revert n. induction Hall as [|d first -> _ IH]; intros n.
  - constructor.
  - rewrite length_cons, Nat2Z.inj_succ, (seqZ_cons n), Z.pred_succ by lia.
    constructor. rewrite <- Z.add_1_r. apply IH.
Qed.

(** The recursion either returns the positions of an alignment, appended to
    the positions it was given, or throws; it throws exactly where the two
    sequences differ by more than entries [1]. *)
Lemma RecursivePadding_cases (first : list DimExpr) : ∀ second n pf ps,
  (∃ f s common,
     RecursivePadding first second n pf ps = Ok (pf ++ f, ps ++ s) ∧
     Aligned n first second f s common) ∨
  (∃ msg,
     RecursivePadding first second n pf ps = Fatal EnforceNotMet msg ∧
     squeeze first ≠ squeeze second).
Proof.
  induction first as [|x first IHf].
  - intros second n pf ps. rewrite RecursivePadding_nil_l. case_bool_decide as Hall.
    + left. exists (seqZ n (Z.of_nat (length second))), [], second.
      rewrite app_nil_r. split; [done|]. by apply Aligned_units_l.
    + right. eexists. split; [done|]. intros Heq. apply Hall, squeeze_units.
      by rewrite <- Heq.
  - induction second as [|y second IHs]; intros n pf ps.
    + rewrite RecursivePadding_nil_r. case_bool_decide as Hall.
      * left. exists [], (seqZ n (Z.of_nat (length (x :: first)))), (x :: first).
        rewrite app_nil_r. split; [done|]. by apply Aligned_units_r.
      * right. eexists. split; [done|]. intros Heq. apply Hall, squeeze_units.
        by rewrite Heq.
    + rewrite RecursivePadding_cons. rewrite !squeeze_cons.
      destruct (decide (y = x)) as [->|Hyx].
      { destruct (IHf second (n + 1) pf ps) as [(f & s & c & -> & HA)|(msg & -> & Hne)].
        - left. exists f, s, (x :: c). split; [done|]. by constructor.
        - right. exists msg. split; [done|].
          destruct (decide (x = DimInt 1)); congruence. }
      destruct (decide (y = DimInt 1)) as [->|Hy].
      { destruct (IHs (n + 1) (pf ++ [n]) ps) as [(f & s & c & -> & HA)|(msg & -> & Hne)].
        - left. exists (n :: f), s, (DimInt 1 :: c). rewrite <- app_assoc.
          split; [done|]. by constructor.
        - right. exists msg. split; [done|]. by rewrite squeeze_cons in Hne. }
      destruct (decide (x = DimInt 1)) as [->|Hx].
      { destruct (IHf (y :: second) (n + 1) pf (ps ++ [n]))
          as [(f & s & c & -> & HA)|(msg & -> & Hne)].
        - left. exists f, (n :: s), (DimInt 1 :: c). rewrite <- app_assoc.
          split; [done|]. by constructor.
        - right. exists msg. split; [done|].
          rewrite squeeze_cons in Hne. by rewrite decide_False in Hne. }
      right. eexists. split; [done|]. congruence.
Qed.

Lemma Aligned_bounds n first second f s common :
  Aligned n first second f s common →
  Forall (fun i => n ≤ i < n + Z.of_nat (length common)) f ∧
  Forall (fun i => n ≤ i < n + Z.of_nat (length common)) s.
Proof.
  induction 1 as [n|n x first second f s c _ [IHf IHs]
                 |n first second f s c _ [IHf IHs]
                 |n first second f s c _ [IHf IHs]];
    [by split|..]; rewrite length_cons, Nat2Z.inj_succ;
    (split; repeat apply Forall_cons_2; try lia;
     (eapply Forall_impl; [eassumption|]); csimpl; intros; lia).
Qed.

Lemma Aligned_length n first second f s common :
  Aligned n first second f s common →
  length common = (length first + length f)%nat ∧
  length common = (length second + length s)%nat.
Proof. induction 1; csimpl; lia. Qed.

Lemma Aligned_squeeze n first second f s common :
  Aligned n first second f s common →
  squeeze common = squeeze first ∧ squeeze common = squeeze second.
Proof.
  induction 1 as [n|n x first second f s c _ [IHf IHs]
                 |n first second f s c _ [IHf IHs]
                 |n first second f s c _ [IHf IHs]];
    [done|..]; rewrite !squeeze_cons; repeat case_decide; try done; split; congruence.
Qed.

Lemma Aligned_sym n first second f s common :
  Aligned n first second f s common → Aligned n second first s f common.
Proof. induction 1; by constructor. Qed.

Lemma Aligned_disjoint n first second f s common :
  Aligned n first second f s common → ∀ i, i ∈ f → i ∉ s.
Proof.
  induction 1 as [n|n x first second f s c HA IH
                 |n first second f s c HA IH
                 |n first second f s c HA IH]; intros i Hf Hs.
  - by apply elem_of_nil in Hf.
  - by apply (IH i).
  - apply Aligned_bounds in HA as [Hbf Hbs]. rewrite Forall_forall in Hbf, Hbs.
    apply elem_of_cons in Hf as [->|Hf]; [apply Hbs in Hs; lia|by apply (IH i)].
  - apply Aligned_bounds in HA as [Hbf Hbs]. rewrite Forall_forall in Hbf, Hbs.
    apply elem_of_cons in Hs as [->|Hs]; [apply Hbf in Hf; lia|by apply (IH i)].
Qed.

(** The padding loop of the horizontal case, run on the first sequence of an
    alignment with its padding positions, rebuilds the common sequence. *)
Lemma Aligned_pad n first second f s common :
  Aligned n first second f s common →
  ∀ pv pre, (∀ i, n ≤ i → i ∈ pv ↔ i ∈ f) →
  pad_with pv (pre ++ first) (DimInt 1) (seqZ n (Z.of_nat (length common)))
    (Z.of_nat (length pre)) = Ok common.
Proof.
  induction 1 as [n|n x first second f s c HA IH
                 |n first second f s c HA IH
                 |n first second f s c HA IH]; intros pv pre Hpv; [done|..];
    rewrite length_cons, Nat2Z.inj_succ, (seqZ_cons n), Z.pred_succ by lia;
    cbn [pad_with]; pose proof (Aligned_bounds _ _ _ _ _ _ HA) as [Hbf _];
    rewrite Forall_forall in Hbf.
  - rewrite decide_True by (rewrite Hpv by lia; intros Hin; apply Hbf in Hin; lia).
    rewrite at_of_nat, lookup_app_r, Nat.sub_diag by lia. csimpl. bind_simpl.
    specialize (IH pv (pre ++ [x])).
    rewrite <- app_assoc, length_app, Nat2Z.inj_add in IH. csimpl in IH.
    change (Z.of_nat 1) with 1 in IH.
    rewrite <- Z.add_1_r, IH; [done|]. intros i Hi. apply Hpv. lia.
  - rewrite decide_False
      by (intros Hout; apply Hout, Hpv; [lia|apply list_elem_of_here]).
    rewrite <- Z.add_1_r, IH; [done|]. intros i Hi. rewrite Hpv, elem_of_cons by lia.
    split; [intros [?|?]; [lia|done]|tauto].
  - rewrite decide_True by (rewrite Hpv by lia; intros Hin; apply Hbf in Hin; lia).
    rewrite at_of_nat, lookup_app_r, Nat.sub_diag by lia. csimpl. bind_simpl.
    specialize (IH pv (pre ++ [DimInt 1])).
    rewrite <- app_assoc, length_app, Nat2Z.inj_add in IH. csimpl in IH.
    change (Z.of_nat 1) with 1 in IH.
    rewrite <- Z.add_1_r, IH; [done|]. intros i Hi. apply Hpv. lia.
Qed.

(** Without the positions recorded for it, the common sequence is the first
    sequence again. *)
Lemma Aligned_without_positions n first second f s common :
  Aligned n first second f s common →
  ∀ idx, (∀ i, n ≤ i → i ∈ idx ↔ i ∈ f) →
  without_positions n idx common = first.
Proof.
  induction 1 as [n|n x first second f s c HA IH
                 |n first second f s c HA IH
                 |n first second f s c HA IH]; intros idx Hidx; [done|..];
    cbn [without_positions]; pose proof (Aligned_bounds _ _ _ _ _ _ HA) as [Hbf _];
    rewrite Forall_forall in Hbf.
  - rewrite decide_False by (rewrite Hidx by lia; intros Hin; apply Hbf in Hin; lia).
    f_equal. apply IH. intros i Hi. apply Hidx. lia.
  - rewrite decide_True by (apply Hidx; [lia|apply list_elem_of_here]).
    apply IH. intros i Hi. rewrite Hidx, elem_of_cons by lia.
    split; [intros [?|?]; [lia|done]|tauto].
  - rewrite decide_False by (rewrite Hidx by lia; intros Hin; apply Hbf in Hin; lia).
    f_equal. apply IH. intros i Hi. apply Hidx. lia.
Qed.

(** X1: [GetPaddingVector] returns padding positions exactly for two
    sequences of sizes that are the same once the entries [1] are dropped
    from both; for any other two sequences it throws, and it never reads
    outside the two sequences. *)
Theorem GetPaddingVector_defined_iff (first second : list DimExpr) :
  match GetPaddingVector first second with
  | Ok _ => squeeze first = squeeze second
  | Fatal ty _ => ty = EnforceNotMet ∧ squeeze first ≠ squeeze second
  | Undefined => False
  end.
Proof.
  unfold GetPaddingVector.
  destruct (RecursivePadding_cases first second 0 [] [])
    as [(f & s & c & -> & HA)|(msg & -> & Hne)]; [|done].
  apply Aligned_squeeze in HA as [<- <-]. done.
Qed.

(** X2: the positions [GetPaddingVector] returns bring the two sequences to
    one common sequence. Padding [first] at the positions [padding_f] and
    [second] at the positions [padding_s] with [1], by the loop of the
    horizontal case of [GetLoopFramework], gives the same sequence; dropping
    the positions again gives [first] and [second] back; and no position is
    a padding position of both. *)
Theorem GetPaddingVector_common_loop (first second : list DimExpr) (f s : list Z) :
  GetPaddingVector first second = Ok (f, s) →
  ∃ common,
    pad_with f first (DimInt 1) (seqZ 0 (Z.of_nat (length first + length f))) 0
      = Ok common ∧
    pad_with s second (DimInt 1) (seqZ 0 (Z.of_nat (length second + length s))) 0
      = Ok common ∧
    without_positions 0 f common = first ∧
    without_positions 0 s common = second ∧
    (∀ i, i ∈ f → i ∉ s).
Proof.
  unfold GetPaddingVector. intros H.
  destruct (RecursivePadding_cases first second 0 [] [])
    as [(f' & s' & c & Heq & HA)|(msg & Heq & _)]; [|congruence].
  rewrite Heq in H. injection H as <- <-.
  pose proof (Aligned_length _ _ _ _ _ _ HA) as [Hlf Hls].
  exists c. rewrite <- Hlf, <- Hls. split_and!.
  - by apply (Aligned_pad _ _ _ _ _ _ HA f' []).
  - by apply (Aligned_pad _ _ _ _ _ _ (Aligned_sym _ _ _ _ _ _ HA) s' []).
  - by apply (Aligned_without_positions _ _ _ _ _ _ HA).
  - by apply (Aligned_without_positions _ _ _ _ _ _ (Aligned_sym _ _ _ _ _ _ HA)).
  - by apply (Aligned_disjoint _ _ _ _ _ _ HA).
Qed.

Lemma GetPaddingVector_common_loop_witness :
  ∃ common,
    pad_with [1] [DimInt 2; DimInt 3] (DimInt 1) (seqZ 0 (Z.of_nat (2 + 1))) 0
      = Ok common ∧
    pad_with [] [DimInt 2; DimInt 1; DimInt 3] (DimInt 1) (seqZ 0 (Z.of_nat (3 + 0))) 0
      = Ok common ∧
    without_positions 0 [1] common = [DimInt 2; DimInt 3] ∧
    without_positions 0 [] common = [DimInt 2; DimInt 1; DimInt 3] ∧
    (∀ i, i ∈ [1] → i ∉ @nil Z).
Proof.
  apply (GetPaddingVector_common_loop [DimInt 2; DimInt 3]
           [DimInt 2; DimInt 1; DimInt 3] [1] []).
  reflexivity.
Defined.

Lemma RecursivePadding_swap (first : list DimExpr) : ∀ second n pf ps,
  RecursivePadding second first n ps pf
  = prod_swap <$> RecursivePadding first second n pf ps.
Proof.
  induction first as [|x first IHf].
  - intros second n pf ps. rewrite RecursivePadding_nil_l, RecursivePadding_nil_r.
    by case_bool_decide.
  - induction second as [|y second IHs]; intros n pf ps.
    + rewrite RecursivePadding_nil_l, RecursivePadding_nil_r. by case_bool_decide.
    + rewrite !RecursivePadding_cons.
      destruct (decide (y = x)) as [->|Hyx].
      { rewrite decide_True by done. apply IHf. }
      rewrite (decide_False (P := x = y)) by congruence.
      destruct (decide (y = DimInt 1)) as [->|Hy].
      { rewrite (decide_False (P := x = DimInt 1)) by congruence. apply IHs. }
      destruct (decide (x = DimInt 1)) as [->|Hx]; [apply IHf|done].
Qed.

(** X3: [GetPaddingVector] treats its two arguments alike: with the
    arguments exchanged it returns the two padding vectors exchanged, and it
    throws the same error where it throws. *)
Theorem GetPaddingVector_swap (first second : list DimExpr) :
  GetPaddingVector second first = prod_swap <$> GetPaddingVector first second.
Proof. apply RecursivePadding_swap. Qed.

(** * The padding loop of horizontal patterns *)

Lemma pad_with_not_Fatal {A} (pv : list Z) (base : list A) (filler : A)
    (positions : list Z) (pointer : Z) :
  is_Fatal (pad_with pv base filler positions pointer) = false.
Proof.
  revert pointer. induction positions as [|i positions IH]; intros pointer; [done|].
  cbn [pad_with]. destruct (decide (i ∉ pv)).
  - unfold at_. destruct (decide (0 ≤ pointer)); [|done].
    destruct (base !! Z.to_nat pointer); [|done]. bind_simpl.
    specialize (IH (pointer + 1)).
    by destruct (pad_with pv base filler positions (pointer + 1)).
  - specialize (IH pointer).
    by destruct (pad_with pv base filler positions pointer).
Qed.

(** The loop is defined exactly when [base] has an entry for every position
    that is not a padding position. *)
Lemma pad_with_is_Ok {A} (pv : list Z) (base : list A) (filler : A)
    (positions : list Z) (pointer : nat) :
  is_Ok (pad_with pv base filler positions (Z.of_nat pointer)) = true
  ↔ filter (fun i => i ∉ pv) positions = []
    ∨ (pointer + length (filter (fun i => i ∉ pv) positions) ≤ length base)%nat.
Proof.
  revert pointer. induction positions as [|i positions IH]; intros pointer.
  - split; [by left|done].
  - cbn [pad_with]. destruct (decide (i ∉ pv)) as [Hout|Hin].
    + rewrite filter_cons_True by done. rewrite at_of_nat. cbn [length].
      destruct (base !! pointer) as [x|] eqn:Hx; bind_simpl.
      * apply lookup_lt_Some in Hx. specialize (IH (S pointer)).
        rewrite Nat2Z.inj_succ, <- Z.add_1_r in IH.
        destruct (pad_with pv base filler positions (Z.of_nat pointer + 1));
          bind_simpl; cbn [is_Ok] in *.
        -- split; [intros _; right|done].
           destruct IH as [[Hnil|Hle] _]; [done|rewrite Hnil; cbn; lia|lia].
        -- split; [done|]. intros [?|Hle]; [done|]. apply IH. right. lia.
        -- split; [done|]. intros [?|Hle]; [done|]. apply IH. right. lia.
      * apply lookup_ge_None in Hx. split; [done|]. intros [?|?]; [done|lia].
    + rewrite filter_cons_False by done. specialize (IH pointer).
      destruct (pad_with pv base filler positions (Z.of_nat pointer));
        bind_simpl; cbn [is_Ok] in *; exact IH.
Qed.

(** Among distinct positions, the padding positions are at most as many as
    the padding vector is long, and as many exactly when the entries of the
    padding vector are distinct and all among the positions. *)
Lemma padding_positions_count (pv positions : list Z) :
  NoDup positions →
  (length (filter (fun i => i ∈ pv) positions) ≤ length pv)%nat ∧
  (length (filter (fun i => i ∈ pv) positions) = length pv
   ↔ NoDup pv ∧ Forall (fun i => i ∈ positions) pv).
Proof.
  intros Hnd.
  assert (Hsub : filter (fun i => i ∈ pv) positions ⊆+ pv).
  { apply NoDup_submseteq; [by apply NoDup_filter|].
    intros i Hi. by apply list_elem_of_filter in Hi as [? _]. }
  split; [by apply submseteq_length|]. split.
  - intros Hlen. apply submseteq_length_Permutation in Hsub; [|lia].
    split.
    + rewrite <- Hsub. by apply NoDup_filter.
    + apply Forall_forall. intros i Hi. rewrite <- Hsub in Hi.
      by apply list_elem_of_filter in Hi as [_ ?].
  - intros [Hndpv Hall]. apply Nat.le_antisymm; [by apply submseteq_length|].
    apply submseteq_length, NoDup_submseteq; [done|].
    intros i Hi. apply list_elem_of_filter. split; [done|].
    rewrite Forall_forall in Hall. by apply Hall.
Qed.

Lemma filter_complement_length {A} (P : A → Prop) `{!∀ x, Decision (P x)}
    (l : list A) :
  (length (filter P l) + length (filter (fun x => ¬ P x) l) = length l)%nat.
Proof.
  induction l as [|x l IH]; [done|].
  destruct (decide (P x)).
  - rewrite filter_cons_True, (filter_cons_False (fun x => ¬ P x)) by tauto.
    cbn [length]. lia.
  - rewrite filter_cons_False, (filter_cons_True (fun x => ¬ P x)) by tauto.
    cbn [length]. lia.
Qed.

Lemma elem_of_seqZ_0 (i : Z) (n : nat) : i ∈ seqZ 0 (Z.of_nat n) ↔ 0 ≤ i < Z.of_nat n.
Proof. rewrite elem_of_seqZ. lia. Qed.

(** The number of entries the loop takes from [base], when it is defined. *)
Lemma pad_with_taken {A} (pv : list Z) (base : list A) (filler : A) :
  is_Ok (pad_with pv base filler
           (seqZ 0 (Z.of_nat (length base + length pv))) 0) = true →
  length (filter (fun i => i ∉ pv) (seqZ 0 (Z.of_nat (length base + length pv))))
  = length base ∧
  length (filter (fun i => i ∈ pv) (seqZ 0 (Z.of_nat (length base + length pv))))
  = length pv.
Proof.
  intros Hok. apply (pad_with_is_Ok pv base filler _ 0%nat) in Hok.
  pose proof (filter_complement_length (fun i => i ∈ pv)
                (seqZ 0 (Z.of_nat (length base + length pv)))) as Hsum.
  rewrite length_seqZ, Nat2Z.id in Hsum.
  destruct (padding_positions_count pv (seqZ 0 (Z.of_nat (length base + length pv))))
    as [Hle _]; [apply NoDup_seqZ|].
  destruct Hok as [Hnil|Hle']; [rewrite Hnil in *; cbn [length] in *; lia|lia].
Qed.

(** The loop over the padded size is defined exactly when the padding
    positions are distinct positions of the padded vector. *)
Lemma pad_with_defined_iff {A} (pv : list Z) (base : list A) (filler : A) :
  is_Ok (pad_with pv base filler
           (seqZ 0 (Z.of_nat (length base + length pv))) 0) = true
  ↔ NoDup pv ∧ Forall (fun i => 0 ≤ i < Z.of_nat (length base + length pv)) pv.
Proof.
  setoid_rewrite <- elem_of_seqZ_0.
  destruct (padding_positions_count pv (seqZ 0 (Z.of_nat (length base + length pv))))
    as [Hle Hiff]; [apply NoDup_seqZ|].
  rewrite <- Hiff. split.
  - intros Hok. by apply pad_with_taken in Hok as [_ ?].
  - intros Hlen. apply (pad_with_is_Ok pv base filler _ 0%nat). right.
    pose proof (filter_complement_length (fun i => i ∈ pv)
                  (seqZ 0 (Z.of_nat (length base + length pv)))) as Hsum.
    rewrite length_seqZ, Nat2Z.id in Hsum. lia.
Qed.

(** Without the padding positions, the padded vector is the part of [base]
    the loop has taken. *)
Lemma pad_with_without_positions {A} (pv : list Z) (base : list A) (filler : A)
    (k : nat) : ∀ (n : Z) (pointer : nat) (r : list A),
  pad_with pv base filler (seqZ n (Z.of_nat k)) (Z.of_nat pointer) = Ok r →
  without_positions n pv r
  = take (length (filter (fun i => i ∉ pv) (seqZ n (Z.of_nat k)))) (drop pointer base).
Proof.
  induction k as [|k IH]; intros n pointer r.
  - by intros [= <-].
  - rewrite Nat2Z.inj_succ, (seqZ_cons n), Z.pred_succ by lia. cbn [pad_with].
    destruct (decide (n ∉ pv)) as [Hout|Hin].
    + rewrite filter_cons_True by done. rewrite at_of_nat. cbn [length].
      destruct (base !! pointer) as [x|] eqn:Hx; bind_simpl; [|done].
      replace (Z.of_nat pointer + 1) with (Z.of_nat (S pointer)) by lia.
      destruct (pad_with pv base filler _ (Z.of_nat (S pointer))) as [rest| |] eqn:Hrest;
        bind_simpl; [|done..].
      intros [= <-]. cbn [without_positions]. rewrite decide_False by done.
      rewrite (drop_S _ _ _ Hx). cbn [take]. f_equal.
      rewrite <- Z.add_1_r. by apply IH.
    + rewrite filter_cons_False by done.
      destruct (pad_with pv base filler _ (Z.of_nat pointer)) as [rest| |] eqn:Hrest;
        bind_simpl; [|done..].
      intros [= <-]. cbn [without_positions].
      rewrite decide_True by (by destruct (decide (n ∈ pv)); [|exfalso; auto]).
      rewrite <- Z.add_1_r. by apply IH.
Qed.

(** A filter that drops the filler sees the part of [base] taken. *)
Lemma pad_with_filter {A} (P : A → Prop) `{!∀ x, Decision (P x)}
    (pv : list Z) (base : list A) (filler : A) (positions : list Z) :
  ¬ P filler → ∀ (pointer : nat) (r : list A),
  pad_with pv base filler positions (Z.of_nat pointer) = Ok r →
  filter P r
  = filter P (take (length (filter (fun i => i ∉ pv) positions)) (drop pointer base)).
Proof.
  intros Hfiller. induction positions as [|i positions IH]; intros pointer r.
  - by intros [= <-].
  - cbn [pad_with]. destruct (decide (i ∉ pv)) as [Hout|Hin].
    + rewrite filter_cons_True by done. rewrite at_of_nat. cbn [length].
      destruct (base !! pointer) as [x|] eqn:Hx; bind_simpl; [|done].
      replace (Z.of_nat pointer + 1) with (Z.of_nat (S pointer)) by lia.
      destruct (pad_with pv base filler _ (Z.of_nat (S pointer))) as [rest| |] eqn:Hrest;
        bind_simpl; [|done..].
      intros [= <-]. rewrite (drop_S _ _ _ Hx). cbn [take].
      apply IH in Hrest.
      destruct (decide (P x)).
      * rewrite !filter_cons_True by done. by f_equal.
      * by rewrite !filter_cons_False.
    + rewrite filter_cons_False by done.
      destruct (pad_with pv base filler _ (Z.of_nat pointer)) as [rest| |] eqn:Hrest;
        bind_simpl; [|done..].
      intros [= <-]. rewrite filter_cons_False by done. by apply IH.
Qed.

(** Two vectors padded by the same loop are padded entry by entry. *)
Lemma pad_with_zip {A B} (pv : list Z) (l1 : list A) (l2 : list B)
    (f1 : A) (f2 : B) (positions : list Z) : ∀ (pointer : nat) r1 r2,
  pad_with pv l1 f1 positions (Z.of_nat pointer) = Ok r1 →
  pad_with pv l2 f2 positions (Z.of_nat pointer) = Ok r2 →
  pad_with pv (zip l1 l2) (f1, f2) positions (Z.of_nat pointer) = Ok (zip r1 r2).
Proof.
  induction positions as [|i positions IH]; intros pointer r1 r2.
  - by intros [= <-] [= <-].
  - cbn [pad_with]. destruct (decide (i ∉ pv)) as [Hout|Hin].
    + rewrite !at_of_nat.
      destruct (l1 !! pointer) as [x|] eqn:Hx; bind_simpl; [|done].
      destruct (l2 !! pointer) as [y|] eqn:Hy; bind_simpl; [|done].
      assert (zip l1 l2 !! pointer = Some (x, y)) as ->.
      { rewrite lookup_zip_with, Hx, Hy. done. }
      bind_simpl.
      replace (Z.of_nat pointer + 1) with (Z.of_nat (S pointer)) by lia.
      destruct (pad_with pv l1 f1 _ _) as [rest1| |] eqn:Hrest1; bind_simpl; [|done..].
      destruct (pad_with pv l2 f2 _ _) as [rest2| |] eqn:Hrest2; bind_simpl; [|done..].
      intros [= <-] [= <-]. by rewrite (IH _ _ _ Hrest1 Hrest2).
    + destruct (pad_with pv l1 f1 _ _) as [rest1| |] eqn:Hrest1; bind_simpl; [|done..].
      destruct (pad_with pv l2 f2 _ _) as [rest2| |] eqn:Hrest2; bind_simpl; [|done..].
      intros [= <-] [= <-]. by rewrite (IH _ _ _ Hrest1 Hrest2).
Qed.

(** The padding loop without padding positions copies the vector. *)
Lemma pad_with_nil {A} (base : list A) (filler : A) :
  pad_with [] base filler (seqZ 0 (Z.of_nat (length base + length (@nil Z)))) 0
  = Ok base.
Proof.
  pose proof (pad_with_defined_iff [] base filler) as [_ Hok].
  pose proof (pad_with_taken [] base filler) as Htaken.
  destruct (pad_with [] base filler _ 0) as [r| |] eqn:Hr;
    [|by specialize (Hok (conj (NoDup_nil_2) (Forall_nil_2 _)))..].
  destruct (Htaken eq_refl) as [Hlen _].
  apply (pad_with_without_positions [] base filler _ 0 0%nat) in Hr.
  rewrite without_positions_nil, Hlen, drop_0, firstn_all in Hr. by subst.
Qed.

Lemma find_fmap {A B} (g : A → B) (P : B → bool) (l : list A) :
  List.find P (g <$> l) = g <$> List.find (fun x => P (g x)) l.
Proof.
  induction l as [|x l IH]; [done|]. csimpl. by destruct (P (g x)).
Qed.

(** * Further properties of horizontal patterns *)

Section HorizontalProps.

Variable G : OpGraph.
Variable GetReduceOp : ReducePattern → nat.

#[local] Abbreviation Framework := (GetLoopFramework G GetReduceOp).

(** The horizontal case of [GetLoopFramework], with the choice of the base
    member spelled out. *)
Lemma GetLoopFramework_Horizontal_unfold (h : HorizontalFusionPattern) :
  Framework (HorizontalFusion h)
  = match base_member (padding_patterns_ h) with
    | None => Undefined
    | Some m =>
        base_framework ← Framework (pattern m);
        let positions :=
          seqZ 0 (Z.of_nat (length (loop base_framework) + length (padding_pos m))) in
        loop ← pad_with (padding_pos m) (loop base_framework) (DimInt 1) positions 0;
        is_reduce ← pad_with (padding_pos m) (is_reduce base_framework) false positions 0;
        Ok (mkMaybeLoopFramework loop is_reduce)
    end.
Proof.
  cbn [GetLoopFramework]. unfold back, base_member.
  rewrite fmap_last, find_fmap. cbn [fst].
  destruct (last (padding_patterns_ h)) as [m0|] eqn:Hlast; csimpl.
  - by destruct (List.find _ (padding_patterns_ h)).
  - apply last_None in Hlast. by rewrite Hlast.
Qed.

Lemma GetLoopFramework_Horizontal_base (h : HorizontalFusionPattern)
    (m : PaddingStmtPattern) (fw : MaybeLoopFramework) :
  base_member (padding_patterns_ h) = Some m →
  Framework (pattern m) = Ok fw →
  stored_framework_wf (pattern m) →
  let pv := padding_pos m in
  let padded_size := (length (loop fw) + length pv)%nat in
  (NoDup pv ∧ Forall (fun i => 0 ≤ i < Z.of_nat padded_size) pv →
   ∃ fw',
     Framework (HorizontalFusion h) = Ok fw' ∧
     pad_with pv (loop fw) (DimInt 1) (seqZ 0 (Z.of_nat padded_size)) 0
       = Ok (loop fw') ∧
     length (loop fw') = padded_size ∧
     length (is_reduce fw') = padded_size ∧
     without_positions 0 pv (loop fw') = loop fw ∧
     without_positions 0 pv (is_reduce fw') = is_reduce fw ∧
     squeeze (loop fw') = squeeze (loop fw) ∧
     reduce_dims fw' = reduce_dims fw) ∧
  (¬ (NoDup pv ∧ Forall (fun i => 0 ≤ i < Z.of_nat padded_size) pv) →
   Framework (HorizontalFusion h) = Undefined).
Proof.
  intros Hbase Hfw Hwf pv padded_size.
  pose proof (GetLoopFramework_wf _ _ _ _ Hwf Hfw) as Hlen.
  rewrite GetLoopFramework_Horizontal_unfold, Hbase, Hfw. bind_simpl.
  fold pv. fold padded_size.
  pose proof (pad_with_defined_iff pv (loop fw) (DimInt 1)) as Hloop.
  pose proof (pad_with_defined_iff pv (is_reduce fw) false) as Hflags.
  rewrite <- Hlen in Hflags. fold padded_size in Hloop, Hflags.
  split.
  - intros Hpv. pose proof Hpv as Hpv'.
    apply Hloop in Hpv. apply Hflags in Hpv'.
    pose proof (pad_with_taken pv (loop fw) (DimInt 1)) as Htl.
    pose proof (pad_with_taken pv (is_reduce fw) false) as Htf.
    rewrite <- Hlen in Htf. fold padded_size in Htl, Htf.
    destruct (Htl Hpv) as [Htl' _]. destruct (Htf Hpv') as [Htf' _].
    destruct (pad_with pv (loop fw) _ _ _) as [l| |] eqn:Hl; [|done..].
    destruct (pad_with pv (is_reduce fw) _ _ _) as [fl| |] eqn:Hfl; [|done..].
    bind_simpl. eexists. split; [reflexivity|]. cbn [loop is_reduce].
    pose proof (pad_with_length _ _ _ _ _ _ Hl) as Hll.
    pose proof (pad_with_length _ _ _ _ _ _ Hfl) as Hlfl.
    rewrite length_seqZ, Nat2Z.id in Hll, Hlfl.
    split_and!; [done|done|done|..].
    + rewrite (pad_with_without_positions pv (loop fw) (DimInt 1) padded_size 0 0%nat l Hl).
      rewrite Htl', drop_0. by rewrite firstn_all.
    + rewrite (pad_with_without_positions pv (is_reduce fw) false padded_size 0 0%nat fl Hfl).
      rewrite Htf', Hlen, drop_0. by rewrite firstn_all.
    + unfold squeeze.
      rewrite (pad_with_filter (fun d => d ≠ DimInt 1) pv (loop fw) (DimInt 1) _
                 (fun H => H eq_refl) 0%nat l Hl).
      rewrite Htl', drop_0. by rewrite firstn_all.
    + unfold reduce_dims. cbn [loop is_reduce]. f_equal.
      pose proof (pad_with_zip pv (loop fw) (is_reduce fw) (DimInt 1) false _ 0%nat
                    l fl Hl Hfl) as Hzip.
      rewrite (pad_with_filter (fun p : DimExpr * bool => snd p = true) pv
                 (zip (loop fw) (is_reduce fw)) (DimInt 1, false) _
                 diff_false_true 0%nat _ Hzip).
      rewrite Htl', drop_0. f_equal.
      apply take_ge. rewrite length_zip. lia.
  - intros Hpv.
    pose proof (pad_with_not_Fatal pv (loop fw) (DimInt 1)
                  (seqZ 0 (Z.of_nat padded_size)) 0) as Hnf.
    destruct (pad_with pv (loop fw) _ _ _) as [l| |] eqn:Hl; [|done..].
    exfalso. apply Hpv, Hloop. done.
Qed.

(** X4: the loop framework of a horizontal pattern is taken from one member
    only: the first member holding a [ReducePattern], or the last member when
    no member holds one; the other members are not looked at. With no member
    at all the behaviour is undefined. The framework is defined exactly when
    the padding positions of that member are distinct positions below the
    padded size; it is then the framework of the member with a non-reduction
    [1] at every padding position: dropping these positions gives the
    framework of the member back, and the squeezed loop and the reduction
    dimensions are those of the member. Otherwise the loop reads past the
    end of the framework of the member. *)
Theorem GetLoopFramework_Horizontal_padding (h : HorizontalFusionPattern) :
  (padding_patterns_ h = [] → Framework (HorizontalFusion h) = Undefined) ∧
  ∀ m fw,
    base_member (padding_patterns_ h) = Some m →
    Framework (pattern m) = Ok fw →
    stored_framework_wf (pattern m) →
    let pv := padding_pos m in
    let padded_size := (length (loop fw) + length pv)%nat in
    (NoDup pv ∧ Forall (fun i => 0 ≤ i < Z.of_nat padded_size) pv →
     ∃ fw',
       Framework (HorizontalFusion h) = Ok fw' ∧
       length (loop fw') = padded_size ∧
       length (is_reduce fw') = padded_size ∧
       without_positions 0 pv (loop fw') = loop fw ∧
       without_positions 0 pv (is_reduce fw') = is_reduce fw ∧
       squeeze (loop fw') = squeeze (loop fw) ∧
       reduce_dims fw' = reduce_dims fw) ∧
    (¬ (NoDup pv ∧ Forall (fun i => 0 ≤ i < Z.of_nat padded_size) pv) →
     Framework (HorizontalFusion h) = Undefined).
Proof.
  split.
  { intros Hnil. rewrite GetLoopFramework_Horizontal_unfold, Hnil. done. }
  intros m fw Hbase Hfw Hwf pv padded_size.
  destruct (GetLoopFramework_Horizontal_base h m fw Hbase Hfw Hwf) as [Hok Hundef].
  split; [|exact Hundef].
  intros Hpv. destruct (Hok Hpv) as (fw' & ? & _ & ? & ? & ? & ? & ? & ?). eauto 10.
Qed.

(** X5: a horizontal pattern of a single member without padding positions
    has the loop framework and the loop value dims of its member, and fails
    where the member fails. *)
Theorem Horizontal_single_member (id : nat) (p : StmtPattern)
    (tracker : FusionTracker) (default_ValueDim : ValueDim) :
  let h := HorizontalFusion
             (mkHorizontalFusionPattern id [mkPaddingStmtPattern p []] tracker) in
  (stored_framework_wf p → Framework h = Framework p) ∧
  GetLoopValueDims G GetReduceOp default_ValueDim h
    = GetLoopValueDims G GetReduceOp default_ValueDim p.
Proof.
  intros h. split.
  - intros Hwf. subst h. rewrite GetLoopFramework_Horizontal_unfold.
    cbn [padding_patterns_].
    assert (base_member [mkPaddingStmtPattern p []] = Some (mkPaddingStmtPattern p []))
      as -> by (unfold base_member; csimpl; by destruct (holds_Reduce p)).
    cbn [pattern padding_pos].
    destruct (Framework p) as [fw| |] eqn:Hfw; bind_simpl; [|done..].
    pose proof (GetLoopFramework_wf _ _ _ _ Hwf Hfw) as Hlen.
    rewrite pad_with_nil. bind_simpl. rewrite Hlen, pad_with_nil. bind_simpl.
    by destruct fw.
  - subst h. cbn [GetLoopValueDims padding_patterns_ mapR pattern padding_pos].
    destruct (GetLoopValueDims G GetReduceOp default_ValueDim p) as [vds| |];
      bind_simpl; [|done..].
    assert (mapR (fun base_value_dims : list ValueDim =>
              pad_with [] base_value_dims default_ValueDim
                (seqZ 0 (Z.of_nat (length base_value_dims + length (@nil Z)))) 0) vds
            = Ok vds) as ->.
    { induction vds as [|vd vds IH]; [done|]. cbn [mapR].
      rewrite pad_with_nil. bind_simpl. by rewrite IH. }
    bind_simpl. csimpl. by rewrite app_nil_r.
Qed.

Lemma MergePatternImpl_Horizontal_Horizontal_unfold
    (first second : HorizontalFusionPattern) (s : nat) :
  MergePatternImpl_Horizontal_Horizontal G GetReduceOp first second s
  = (fa ← Framework (HorizontalFusion first);
     fb ← Framework (HorizontalFusion second);
     paddings ← GetPaddingVector (loop fa) (loop fb);
     Ok (HorizontalFusion
           (mkHorizontalFusionPattern (S s)
              [mkPaddingStmtPattern (HorizontalFusion first) paddings.1;
               mkPaddingStmtPattern (HorizontalFusion second) paddings.2]
              (MergedTracker (horizontal_tracker first) (horizontal_tracker second) [])),
         S s)).
Proof.
  unfold MergePatternImpl_Horizontal_Horizontal, mbind at 1 2 3, M_bind, lift.
  destruct (Framework (HorizontalFusion first)) as [fa| |]; bind_simpl; [|done..].
  destruct (Framework (HorizontalFusion second)) as [fb| |]; bind_simpl; [|done..].
  by destruct (GetPaddingVector (loop fa) (loop fb)) as [[f sp]| |].
Qed.

(** The merge of two horizontal patterns whose loop frameworks are defined,
    and the loop framework of the result. *)
Lemma MergePatternImpl_Horizontal_Horizontal_framework
    (first second : HorizontalFusionPattern)
    (s : nat) (fa fb : MaybeLoopFramework) :
  Framework (HorizontalFusion first) = Ok fa →
  Framework (HorizontalFusion second) = Ok fb →
  (squeeze (loop fa) = squeeze (loop fb) →
   ∃ r f sp fw,
     MergePattern G GetReduceOp (HorizontalFusion first) (HorizontalFusion second) s
       = Ok (HorizontalFusion r, S s) ∧
     padding_patterns_ r
       = [mkPaddingStmtPattern (HorizontalFusion first) f;
          mkPaddingStmtPattern (HorizontalFusion second) sp] ∧
     Framework (HorizontalFusion r) = Ok fw ∧
     pad_with f (loop fa) (DimInt 1)
       (seqZ 0 (Z.of_nat (length (loop fa) + length f))) 0 = Ok (loop fw) ∧
     pad_with sp (loop fb) (DimInt 1)
       (seqZ 0 (Z.of_nat (length (loop fb) + length sp))) 0 = Ok (loop fw) ∧
     squeeze (loop fw) = squeeze (loop fa) ∧
     reduce_dims fw = reduce_dims fb) ∧
  (squeeze (loop fa) ≠ squeeze (loop fb) →
   ∃ msg,
     MergePattern G GetReduceOp (HorizontalFusion first) (HorizontalFusion second) s
       = Fatal EnforceNotMet msg).
Proof.
  intros Hfa Hfb. cbn [MergePattern].
  rewrite MergePatternImpl_Horizontal_Horizontal_unfold, Hfa, Hfb. bind_simpl.
  unfold GetPaddingVector.
  destruct (RecursivePadding_cases (loop fa) (loop fb) 0 [] [])
    as [(f & sp & c & Heq & HA)|(msg & Heq & Hne)]; rewrite Heq; bind_simpl;
    cbn [app fst snd].
  - split;
      [intros _
      |intros Hne; exfalso; apply Hne; apply Aligned_squeeze in HA as [? ?]; congruence].
    pose proof (Aligned_length _ _ _ _ _ _ HA) as [Hlf Hls].
    pose proof (Aligned_pad _ _ _ _ _ _ HA f [] (fun _ _ => reflexivity _)) as Hpf.
    pose proof (Aligned_pad _ _ _ _ _ _ (Aligned_sym _ _ _ _ _ _ HA) sp []
                  (fun _ _ => reflexivity _)) as Hps.
    cbn [app length] in Hpf, Hps. change (Z.of_nat 0) with 0 in Hpf, Hps.
    rewrite Hlf in Hpf. rewrite Hls in Hps.
    set (pad_first := mkPaddingStmtPattern (HorizontalFusion first) f).
    set (pad_second := mkPaddingStmtPattern (HorizontalFusion second) sp).
    set (r := mkHorizontalFusionPattern (S s) [pad_first; pad_second]
                (MergedTracker (horizontal_tracker first) (horizontal_tracker second) [])).
    destruct (GetLoopFramework_Horizontal_base r pad_second fb) as [Hok _];
      [done|done|done|].
    destruct Hok as (fw & Hfw & Hloop & _ & _ & _ & _ & Hsq & Hrd).
    { apply (pad_with_defined_iff sp (loop fb) (DimInt 1)). by rewrite Hps. }
    cbn [padding_pos pad_second] in Hloop.
    assert (c = loop fw) as -> by (rewrite Hps in Hloop; congruence).
    exists r, f, sp, fw. split_and!; try done.
    rewrite Hsq. apply Aligned_squeeze in HA as [? ?]. congruence.
  - split; [intros Hsq; by destruct Hne|]. intros _. by exists msg.
Qed.

(** X6: the merge of two horizontal patterns whose loop frameworks are
    defined returns exactly when the two loops are the same once the entries
    [1] are dropped, and throws otherwise. The result holds the two patterns
    as its two members, with the padding positions computed for each. Its
    loop framework is defined: its loop is the common loop both members are
    padded to, so its squeezed loop is that of either member; its reduction
    dimensions are those of the second pattern. *)
Theorem MergePattern_Horizontal_framework (first second : HorizontalFusionPattern)
    (s : nat) (fa fb : MaybeLoopFramework) :
  Framework (HorizontalFusion first) = Ok fa →
  Framework (HorizontalFusion second) = Ok fb →
  (squeeze (loop fa) = squeeze (loop fb) →
   ∃ r f sp fw,
     MergePattern G GetReduceOp (HorizontalFusion first) (HorizontalFusion second) s
       = Ok (HorizontalFusion r, S s) ∧
     padding_patterns_ r
       = [mkPaddingStmtPattern (HorizontalFusion first) f;
          mkPaddingStmtPattern (HorizontalFusion second) sp] ∧
     Framework (HorizontalFusion r) = Ok fw ∧
     pad_with f (loop fa) (DimInt 1)
       (seqZ 0 (Z.of_nat (length (loop fa) + length f))) 0 = Ok (loop fw) ∧
     pad_with sp (loop fb) (DimInt 1)
       (seqZ 0 (Z.of_nat (length (loop fb) + length sp))) 0 = Ok (loop fw) ∧
     squeeze (loop fw) = squeeze (loop fa) ∧
     reduce_dims fw = reduce_dims fb) ∧
  (squeeze (loop fa) ≠ squeeze (loop fb) →
   ∃ msg,
     MergePattern G GetReduceOp (HorizontalFusion first) (HorizontalFusion second) s
       = Fatal EnforceNotMet msg).
Proof.
  intros Hfa Hfb.
  destruct (MergePatternImpl_Horizontal_Horizontal_framework first second s fa fb
              Hfa Hfb) as [Hreturns Hthrows].
  split; [exact Hreturns|exact Hthrows].
Qed.

End HorizontalProps.

Lemma GetLoopFramework_Horizontal_padding_witness :
  (∃ fw',
     GetLoopFramework graph reduce_op_of (HorizontalFusion horizontal_padded) = Ok fw' ∧
     length (loop fw') = 3%nat ∧
     length (is_reduce fw') = 3%nat ∧
     without_positions 0 [1] (loop fw') = [DimInt 2; DimInt 3] ∧
     without_positions 0 [1] (is_reduce fw') = [false; true] ∧
     squeeze (loop fw') = squeeze [DimInt 2; DimInt 3] ∧
     reduce_dims fw' = reduce_dims (mkMaybeLoopFramework [DimInt 2; DimInt 3] [false; true])) ∧
  GetLoopFramework graph reduce_op_of (HorizontalFusion horizontal_bad_padding)
    = Undefined.
Proof.
  split.
  - apply (proj2 (GetLoopFramework_Horizontal_padding graph reduce_op_of
                    horizontal_padded)
             (mkPaddingStmtPattern (ItersPermutation iters_2_3) [1])
             (mkMaybeLoopFramework [DimInt 2; DimInt 3] [false; true])
             eq_refl eq_refl eq_refl).
    split; [apply NoDup_singleton|]. repeat constructor; simpl; lia.
  - apply (proj2 (GetLoopFramework_Horizontal_padding graph reduce_op_of
                    horizontal_bad_padding)
             (mkPaddingStmtPattern (ItersPermutation iters_2_3) [5])
             (mkMaybeLoopFramework [DimInt 2; DimInt 3] [false; true])
             eq_refl eq_refl eq_refl).
    intros [_ Hrange]. apply Forall_cons in Hrange as [Hrange _]. simpl in Hrange. lia.
Defined.

Lemma Horizontal_single_member_witness :
  GetLoopFramework graph reduce_op_of
    (HorizontalFusion (horizontal_of 46 (ItersPermutation iters_2_3)))
  = GetLoopFramework graph reduce_op_of (ItersPermutation iters_2_3).
Proof.
  apply (Horizontal_single_member graph reduce_op_of 46 (ItersPermutation iters_2_3)
           (NewTracker []) (mkValueDim 0 0)).
  reflexivity.
Defined.

Lemma MergePattern_Horizontal_framework_witness :
  (∃ r f sp fw,
     MergePattern graph reduce_op_of
       (HorizontalFusion (horizontal_of 47 (ItersPermutation iters_4_8)))
       (HorizontalFusion (horizontal_of 48 (ItersPermutation iters_4_1_8))) 50%nat
       = Ok (HorizontalFusion r, 51%nat) ∧
     padding_patterns_ r
       = [mkPaddingStmtPattern
            (HorizontalFusion (horizontal_of 47 (ItersPermutation iters_4_8))) f;
          mkPaddingStmtPattern
            (HorizontalFusion (horizontal_of 48 (ItersPermutation iters_4_1_8))) sp] ∧
     GetLoopFramework graph reduce_op_of (HorizontalFusion r) = Ok fw ∧
     pad_with f [DimInt 4; DimInt 8] (DimInt 1)
       (seqZ 0 (Z.of_nat (2 + length f))) 0 = Ok (loop fw) ∧
     pad_with sp [DimInt 4; DimInt 1; DimInt 8] (DimInt 1)
       (seqZ 0 (Z.of_nat (3 + length sp))) 0 = Ok (loop fw) ∧
     squeeze (loop fw) = squeeze [DimInt 4; DimInt 8] ∧
     reduce_dims fw
       = reduce_dims (mkMaybeLoopFramework [DimInt 4; DimInt 1; DimInt 8]
                        [false; false; true])).
Proof.
  apply (MergePattern_Horizontal_framework graph reduce_op_of
           (horizontal_of 47 (ItersPermutation iters_4_8))
           (horizontal_of 48 (ItersPermutation iters_4_1_8)) 50%nat
           (mkMaybeLoopFramework [DimInt 4; DimInt 8] [false; false])
           (mkMaybeLoopFramework [DimInt 4; DimInt 1; DimInt 8] [false; false; true]));
    reflexivity.
Defined.

(** * Properties of [GetOutputOpsInPattern] *)

(** Induction on patterns, with the property known of all members of a
    horizontal pattern. *)
Lemma StmtPattern_forall_ind (P : StmtPattern → Prop) :
  (∀ p, P (Trivial p)) → (∀ p, P (Reduce p)) → (∀ p, P (ReduceTree p)) →
  (∀ p, P (ReduceTreePlusTrivial p)) →
  (∀ h, Forall (fun m => P (pattern m)) (padding_patterns_ h) →
        P (HorizontalFusion h)) →
  (∀ p, P (Unsupport p)) → (∀ p, P (ItersPermutation p)) →
  ∀ p, P p.
Proof.
  intros HT HR HRT HRTT HH HU HI. fix IH 1.
  intros [p|p|p|p|h|p|p];
    [apply HT|apply HR|apply HRT|apply HRTT| |apply HU|apply HI].
  apply HH. destruct h as [id ms tr]. cbn [padding_patterns_].
  induction ms as [|[q pv] ms IHms]; constructor; [apply IH|exact IHms].
Qed.

Lemma mapR_length {A B} (f : A → Result B) (l : list A) (l' : list B) :
  mapR f l = Ok l' → length l' = length l.
Proof.
  revert l'. induction l as [|x l IH]; intros l'; cbn [mapR].
  - by intros [= <-].
  - destruct (f x) as [y| |]; bind_simpl; [|done..].
    destruct (mapR f l) as [ys| |]; bind_simpl; [|done..].
    intros [= <-]. cbn [length]. f_equal. by apply IH.
Qed.

Section OutputOps.

Variable G : OpGraph.
Variable GetReduceOp : ReducePattern → nat.
Variable default_ValueDim : ValueDim.

#[local] Abbreviation OutputOps := (GetOutputOpsInPattern GetReduceOp).


(** X8: wherever [GetLoopValueDims] returns, [GetOutputOpsInPattern] returns
    too, and the two vectors have the same length: there is one vector of
    loop value dims for every output op of the pattern. *)
Theorem GetLoopValueDims_outputs (p : StmtPattern) (vds : list (list ValueDim)) :
  GetLoopValueDims G GetReduceOp default_ValueDim p = Ok vds →
  ∃ outs, OutputOps p = Ok outs ∧ length outs = length vds.
Proof.
  revert vds.
  induction p as [p|p|p|p|h IH|p|p] using StmtPattern_forall_ind; intros vds;
    cbn [GetLoopValueDims GetOutputOpsInPattern]; try done.
  - intros [= <-]. by eexists.
  - intros [= <-]. by eexists.
  - intros [= <-]. by eexists.
  - unfold LoopValueDimsVisitor_ReduceTreePlusTrivial. bind_simpl.
    intros H. eexists. split; [done|].
    destruct (bool_decide _); repeat
      (match type of H with
       | (?m ≫= _) = Ok _ =>
           destruct m; cbn [mbind Result_bind mret Result_ret] in H; [|done..]
       end); by injection H as <-.
  - destruct h as [id ms tr]. cbn [padding_patterns_] in *.
    revert vds. induction IH as [|m ms Hm _ IHms]; intros vds;
      cbn [mapR]; bind_simpl.
    + intros [= <-]. by eexists.
    + destruct (GetLoopValueDims G GetReduceOp default_ValueDim (pattern m))
        as [base| |] eqn:Hbase; bind_simpl; [|done..].
      destruct (mapR _ base) as [padded| |] eqn:Hpadded; bind_simpl; [|done..].
      destruct (mapR _ ms) as [res| |] eqn:Hres; bind_simpl; [|done..].
      intros [= <-]. destruct (Hm base eq_refl) as (outs & -> & Hlen).
      specialize (IHms (concat res)). cbn [mbind Result_bind mret Result_ret] in IHms.
      destruct (IHms eq_refl) as (outs' & Houts' & Hlen').
      destruct (mapR (fun padding_pattern : PaddingStmtPattern =>
                        OutputOps (pattern padding_pattern)) ms) as [res'| |];
        cbn [mbind Result_bind mret Result_ret] in Houts'; [|done..].
      injection Houts' as <-. bind_simpl. eexists. split; [done|].
      cbn [concat]. rewrite !length_app. apply mapR_length in Hpadded. lia.
Qed.

End OutputOps.

Lemma GetLoopValueDims_outputs_witness :
  ∃ outs,
    GetOutputOpsInPattern reduce_op_of
      (HorizontalFusion (horizontal_of 49 (Trivial (trivial_leaf 10 10)))) = Ok outs ∧
    length outs = 1%nat.
Proof.
  apply (GetLoopValueDims_outputs graph reduce_op_of (mkValueDim 0 0)
           (HorizontalFusion (horizontal_of 49 (Trivial (trivial_leaf 10 10))))
           [[mkValueDim 10 0; mkValueDim 10 1; mkValueDim 10 2]]).
  reflexivity.
Defined.

(** * Further properties of the merge engine *)

Section MergeShape.

Variable G : OpGraph.
Variable GetReduceOp : ReducePattern → nat.

(** A trivial pattern merged into a tree: the merge returns a tree of the
    same number of nodes. *)
Lemma MergePatternImpl_Trivial_ReduceTree_returns (first : TrivialPattern)
    (t : ReduceTreePattern) : ∀ s,
  ∃ t' s',
    MergePatternImpl_Trivial_ReduceTree G first t s = Ok (ReduceTree t', s') ∧
    TreeSize t' = TreeSize t ∧
    length (childs t') = length (childs t) ∧
    tree_tracker t' = MergedTracker (trivial_tracker first) (tree_tracker t) [].
Proof.
  induction t as [id cs root tracker IH] using ReduceTreePattern_forall_ind.
  intros s. cbn [MergePatternImpl_Trivial_ReduceTree].
  assert (Hchilds : ∀ s, ∃ cs' s',
    mapM (fun old_child =>
        FusePatternIfConnected tree_ops get_ReduceTree
          (MergePatternImpl_Trivial_ReduceTree G) first old_child
          (FindDownstreamOps G (sink_op first))) cs s = Ok (cs', s') ∧
    TreeSize <$> cs' = TreeSize <$> cs).
  { clear s. induction IH as [|c cs Hc _ IHcs]; intros s; cbn [mapM].
    - by exists [], s.
    - unfold mbind at 1, M_bind at 1. unfold FusePatternIfConnected at 1.
      destruct (AnyFirstInSecond _ (tree_ops c)).
      + unfold mbind at 1, M_bind at 1.
        destruct (Hc s) as (c' & s1 & -> & Hsize & _). cbn [get_ReduceTree].
        unfold mret at 1, M_ret at 1.
        destruct (IHcs s1) as (cs' & s2 & Hcs' & Hsizes).
        unfold mbind, M_bind. rewrite Hcs'. unfold mret, M_ret.
        exists (c' :: cs'), s2. split; [done|]. csimpl. congruence.
      + unfold mret at 1, M_ret at 1.
        destruct (IHcs s) as (cs' & s2 & Hcs' & Hsizes).
        unfold mbind, M_bind. rewrite Hcs'. unfold mret, M_ret.
        exists (c :: cs'), s2. split; [done|]. csimpl. congruence. }
  destruct (Hchilds s) as (cs' & s1 & Hcs' & Hsizes).
  unfold mbind at 1, M_bind at 1. rewrite Hcs'.
  unfold FusePatternIfConnected, MergePatternImpl_Trivial_Reduce,
    new_ReducePattern, new_ReduceTreePattern, UniqueId.
  destruct (AnyFirstInSecond _ (reduce_ops root));
    unfold mbind, M_bind, mret, M_ret; cbn [get_Reduce];
    unfold mret, M_ret;
    (eexists _, _; split; [reflexivity|]; cbn [TreeSize childs tree_tracker];
     split_and!; [by rewrite Hsizes| |done];
     rewrite <- (length_fmap TreeSize cs'), Hsizes; by rewrite length_fmap).
Qed.

(** A trivial pattern fused into a sink: the fusion returns, and the sink op
    is kept. *)
Lemma FusePatternIfConnected_Trivial_sink (first sink : TrivialPattern) (s : nat) :
  ∃ sink' s',
    FusePatternIfConnected trivial_ops get_Trivial MergePatternImpl_Trivial_Trivial
      first sink (FindDownstreamOps G (sink_op first)) s = Ok (sink', s') ∧
    sink_op sink' = sink_op sink.
Proof.
  unfold FusePatternIfConnected, MergePatternImpl_Trivial_Trivial,
    new_TrivialPattern, UniqueId.
  destruct (AnyFirstInSecond _ (trivial_ops sink));
    unfold mbind, M_bind, mret, M_ret; cbn [get_Trivial]; unfold mret, M_ret;
    by eexists _, _.
Qed.

Lemma MergePatternImpl_Trivial_ReduceTreePlusTrivial_returns
    (first : TrivialPattern) (second : ReduceTreePlusTrivialPattern) (s : nat) :
  ∃ p s',
    MergePatternImpl_Trivial_ReduceTreePlusTrivial G first second s
      = Ok (ReduceTreePlusTrivial p, s') ∧
    TreeSize (tree p) = TreeSize (tree second) ∧
    sink_op (sink_trivial p) = sink_op (sink_trivial second) ∧
    fake_reduce_iter_idx p = fake_reduce_iter_idx second ∧
    rtt_tracker p = MergedTracker (trivial_tracker first) (rtt_tracker second) [].
Proof.
  unfold MergePatternImpl_Trivial_ReduceTreePlusTrivial.
  assert (Htree : ∃ t' s1,
    FusePatternIfConnected tree_ops get_ReduceTree
      (MergePatternImpl_Trivial_ReduceTree G) first (tree second)
      (FindDownstreamOps G (sink_op first)) s = Ok (t', s1) ∧
    TreeSize t' = TreeSize (tree second)).
  { unfold FusePatternIfConnected. destruct (AnyFirstInSecond _ _).
    - destruct (MergePatternImpl_Trivial_ReduceTree_returns first (tree second) s)
        as (t' & s1 & Ht' & Hsize & _).
      unfold mbind, M_bind. rewrite Ht'. cbn [get_ReduceTree]. by eexists _, _.
    - by eexists _, _. }
  destruct Htree as (t' & s1 & Ht' & Hsize).
  destruct (FusePatternIfConnected_Trivial_sink first (sink_trivial second) s1)
    as (sink' & s2 & Hsink' & Hsink).
  unfold mbind at 1, M_bind at 1. rewrite Ht'.
  unfold mbind at 1, M_bind at 1. rewrite Hsink'.
  unfold new_ReduceTreePlusTrivialPattern, UniqueId, mbind, M_bind, mret, M_ret.
  by eexists _, _.
Qed.

Lemma InsertUpstreamIntoTree_tracker (up t : ReduceTreePattern) :
  tree_tracker (InsertUpstreamIntoTree G GetReduceOp up t).2 = tree_tracker t.
Proof.
  destruct t as [id cs root tracker]. rewrite InsertUpstreamIntoTree_unfold.
  by destruct (is_direct_upstream _ _ _ _).
Qed.

(** X9: every merge that returns gives a pattern of the alternative of its
    second operand (a tree with a sink when a tree is merged with a trivial
    pattern), whose tracker is a new one that references the tracker of the
    first and the tracker of the second operand, in this order, with an
    empty log. *)
Theorem MergePattern_result (first second result : StmtPattern) (s s' : nat) :
  MergePattern G GetReduceOp first second s = Ok (result, s') →
  variant_of result = merged_variant (variant_of first) (variant_of second) ∧
  tracker_ result = MergedTracker (tracker_ first) (tracker_ second) [].
Proof.
  intros H.
  destruct first as [t1|r1|rt1|rtt1|h1|u1|ip1],
           second as [t2|r2|rt2|rtt2|h2|u2|ip2];
    cbn [MergePattern] in H; try discriminate;
    cbn [variant_of merged_variant tracker_].
  - unfold MergePatternImpl_Trivial_Trivial in H. invert_binds H.
    injection H as <- <-. by injection Hstep as <- _.
  - unfold MergePatternImpl_Trivial_Reduce in H. invert_binds H.
    injection H as <- <-. by injection Hstep as <- _.
  - destruct (MergePatternImpl_Trivial_ReduceTree_returns t1 rt2 s)
      as (t' & s1 & Ht' & _ & _ & Htracker).
    rewrite Ht' in H. by injection H as <- _.
  - destruct (MergePatternImpl_Trivial_ReduceTreePlusTrivial_returns t1 rtt2 s)
      as (p & s1 & Hp & _ & _ & _ & Htracker).
    rewrite Hp in H. by injection H as <- _.
  - unfold MergePatternImpl_Trivial_ItersPermutation in H. invert_binds H.
    injection H as <- <-. by injection Hstep as <- _.
  - unfold MergePatternImpl_ReduceTree_Trivial in H. invert_binds H.
    injection H as <- <-. by injection Hstep as <- _.
  - unfold MergePatternImpl_ReduceTree_ReduceTree in H. invert_binds H.
    injection Hstep as <- _.
    destruct (InsertUpstreamIntoTree _ _ _ _) as [n t] eqn:Hinsert.
    destruct (decide (n = 1)) as [->|]; [|done]. injection H as <- <-.
    split; [done|]. cbn [tracker_].
    change t with (1, t).2. rewrite <- Hinsert.
    by rewrite InsertUpstreamIntoTree_tracker.
  - rewrite MergePatternImpl_Horizontal_Horizontal_unfold in H.
    destruct (GetLoopFramework _ _ (HorizontalFusion h1)) as [fa| |];
      cbn [mbind Result_bind mret Result_ret] in H; [|done..].
    destruct (GetLoopFramework _ _ (HorizontalFusion h2)) as [fb| |];
      cbn [mbind Result_bind mret Result_ret] in H; [|done..].
    destruct (GetPaddingVector _ _) as [paddings| |];
      cbn [mbind Result_bind mret Result_ret] in H; [|done..].
    by injection H as <- _.
Qed.

(** X10: a merge whose first operand is a trivial pattern and whose second
    is a trivial pattern, a reduce pattern, a tree, a tree with a sink or an
    iters-permutation pattern never throws: [std::get] always finds the
    alternative it asks for. What identifies the second operand is kept: the
    sink op of a trivial pattern; the number of nodes of a tree and of
    children of its root; for a tree with a sink also the sink op and the
    fake reduce indices; the stored loop dims of an iters-permutation
    pattern. *)
Theorem MergePattern_Trivial_first (first : TrivialPattern) (second : StmtPattern)
    (s : nat) :
  supported_pair VTrivial (variant_of second) = true →
  ∃ result s',
    MergePattern G GetReduceOp (Trivial first) second s = Ok (result, s') ∧
    match second, result with
    | Trivial t, Trivial t' => sink_op t' = sink_op t
    | Reduce _, Reduce _ => True
    | ReduceTree t, ReduceTree t' =>
        TreeSize t' = TreeSize t ∧ length (childs t') = length (childs t)
    | ReduceTreePlusTrivial p, ReduceTreePlusTrivial p' =>
        TreeSize (tree p') = TreeSize (tree p) ∧
        sink_op (sink_trivial p') = sink_op (sink_trivial p) ∧
        fake_reduce_iter_idx p' = fake_reduce_iter_idx p
    | ItersPermutation p, ItersPermutation p' => loop_dims p' = loop_dims p
    | _, _ => False
    end.
Proof.
  destruct second as [t2|r2|rt2|rtt2|h2|u2|ip2]; cbn [variant_of supported_pair];
    try discriminate; intros _; cbn [MergePattern].
  - by eexists _, _.
  - by eexists _, _.
  - destruct (MergePatternImpl_Trivial_ReduceTree_returns first rt2 s)
      as (t' & s1 & Ht' & Hsize & Hlen & _). by exists (ReduceTree t'), s1.
  - destruct (MergePatternImpl_Trivial_ReduceTreePlusTrivial_returns first rtt2 s)
      as (p & s1 & Hp & Hsize & Hsink & Hfake & _).
    by exists (ReduceTreePlusTrivial p), s1.
  - by eexists _, _.
Qed.

(** X11: a merge neither loses an op of its second operand nor brings in
    an op from elsewhere: the op set of the result lies between the op set of
    the second operand and the union of both. It is the union when the
    operands are connected (always, but for a trivial pattern merged into a
    tree). *)
Theorem MergePattern_ops_bounds (first second result : StmtPattern) (s s' : nat) :
  MergePattern G GetReduceOp first second s = Ok (result, s') →
  ops_set second ⊆ ops_set result ∧
  ops_set result ⊆ ops_set first ∪ ops_set second ∧
  (connected G first second = true →
   ops_set result = ops_set first ∪ ops_set second).
Proof.
  intros H. unfold ops_set. split_and!.
  - intros x. rewrite !elem_of_list_to_set.
    rewrite (MergePattern_ops _ _ _ _ _ _ _ x H). tauto.
  - intros x. rewrite elem_of_union, !elem_of_list_to_set.
    rewrite (MergePattern_ops _ _ _ _ _ _ _ x H). tauto.
  - intros Hconn. apply set_eq. intros x.
    rewrite elem_of_union, !elem_of_list_to_set.
    rewrite (MergePattern_ops _ _ _ _ _ _ _ x H), Hconn. tauto.
Qed.

End MergeShape.

Lemma MergePattern_result_witness :
  ∃ result s',
    MergePattern graph reduce_op_of (ReduceTree down_single) (Trivial (trivial_leaf 7 7))
      50%nat = Ok (result, s') ∧
    variant_of result = VReduceTreePlusTrivial ∧
    tracker_ result
      = MergedTracker (tree_tracker down_single) (trivial_tracker (trivial_leaf 7 7)) [].
Proof.
  eexists _, _. split; [reflexivity|].
  eapply (MergePattern_result graph reduce_op_of (ReduceTree down_single)
            (Trivial (trivial_leaf 7 7)) _ 50%nat _).
  reflexivity.
Defined.

Lemma MergePattern_Trivial_first_witness :
  ∃ result s',
    MergePattern graph reduce_op_of (Trivial (trivial_leaf 8 8))
      (ReduceTreePlusTrivial rtt_fake) 50%nat = Ok (result, s') ∧
    match result with
    | ReduceTreePlusTrivial p' =>
        TreeSize (tree p') = TreeSize (tree rtt_fake) ∧
        sink_op (sink_trivial p') = sink_op (sink_trivial rtt_fake) ∧
        fake_reduce_iter_idx p' = fake_reduce_iter_idx rtt_fake
    | _ => False
    end.
Proof.
  apply (MergePattern_Trivial_first graph reduce_op_of (trivial_leaf 8 8)
           (ReduceTreePlusTrivial rtt_fake) 50%nat).
  reflexivity.
Defined.

Lemma MergePattern_ops_bounds_witness :
  ∃ result s',
    MergePattern graph reduce_op_of (Trivial (trivial_leaf 7 7))
      (ReduceTree down_single) 50%nat = Ok (result, s') ∧
    ops_set (ReduceTree down_single) ⊆ ops_set result ∧
    ops_set result
      ⊆ ops_set (Trivial (trivial_leaf 7 7)) ∪ ops_set (ReduceTree down_single) ∧
    (connected graph (Trivial (trivial_leaf 7 7)) (ReduceTree down_single) = true →
     ops_set result
       = ops_set (Trivial (trivial_leaf 7 7)) ∪ ops_set (ReduceTree down_single)).
Proof.
  eexists _, _. split; [vm_compute; reflexivity|].
  eapply (MergePattern_ops_bounds graph reduce_op_of (Trivial (trivial_leaf 7 7))
            (ReduceTree down_single) _ 50%nat _).
  vm_compute. reflexivity.
Defined.

(** X12: the search of [InsertUpstreamIntoTree], whatever count it returns.
    The count is the number of attachment points and is never negative; it is
    zero exactly when no node of the downstream tree reads the result of the
    upstream root, and the tree is then left as it is. Every attachment
    point receives a copy of the whole upstream tree: the node count grows by
    the count times the node count of the upstream tree, and the ops of the
    updated tree are those of the downstream tree and, where the count is
    positive, those of the upstream tree. The identifier, the root pattern
    and the tracker of the downstream tree are kept. *)
Theorem InsertUpstreamIntoTree_copies (G : OpGraph)
    (GetReduceOp : ReducePattern → nat) (up t : ReduceTreePattern) :
  let n := (InsertUpstreamIntoTree G GetReduceOp up t).1 in
  let t' := (InsertUpstreamIntoTree G GetReduceOp up t).2 in
  0 ≤ n ∧
  (n = 0 ↔ consumed_in G GetReduceOp up t = false) ∧
  (n = 0 → t' = t) ∧
  TreeSize t' = (TreeSize t + Z.to_nat n * TreeSize up)%nat ∧
  (∀ x, x ∈ tree_ops t' ↔ x ∈ tree_ops t ∨ (1 ≤ n ∧ x ∈ tree_ops up)) ∧
  tree_id t' = tree_id t ∧
  GetRootPattern t' = GetRootPattern t ∧
  tree_tracker t' = tree_tracker t.
Proof.
  intros n t'. subst n t'.
  pose proof (InsertUpstreamIntoTree_count_nonneg G GetReduceOp up t) as Hnonneg.
  split_and!.
  - done.
  - rewrite consumed_in_count. case_bool_decide; split; (done || lia).
  - apply InsertUpstreamIntoTree_zero.
  - apply InsertUpstreamIntoTree_TreeSize.
  - intros x. apply elem_of_tree_ops_Insert.
  - destruct t as [id cs root tracker]. rewrite InsertUpstreamIntoTree_unfold.
    by destruct (is_direct_upstream _ _ _ _).
  - destruct t as [id cs root tracker]. rewrite InsertUpstreamIntoTree_unfold.
    by destruct (is_direct_upstream _ _ _ _).
  - apply InsertUpstreamIntoTree_tracker.
Qed.

Lemma InsertUpstreamIntoTree_copies_witness :
  (InsertUpstreamIntoTree graph reduce_op_of up_fan down_two_children).1 = 2 ∧
  TreeSize (InsertUpstreamIntoTree graph reduce_op_of up_fan down_two_children).2
    = 5%nat ∧
  (InsertUpstreamIntoTree graph reduce_op_of up_fan down_single).2 = down_single.
Proof.
  split_and!; [vm_compute; reflexivity..|].
  apply (InsertUpstreamIntoTree_copies graph reduce_op_of up_fan down_single).
  vm_compute. reflexivity.
Defined.

(** * Further properties of loop frameworks *)

Lemma SqueezeLoopFramework_kept (fw : MaybeLoopFramework) :
  length (loop fw) = length (is_reduce fw) →
  SqueezeLoopFramework fw
  = Ok (mkMaybeLoopFramework (fst <$> kept_dims fw) (snd <$> kept_dims fw)).
Proof.
  intros Hlen. unfold SqueezeLoopFramework, kept_dims.
  replace (length (loop fw)) with (length (zip (loop fw) (is_reduce fw)))
    by (rewrite length_zip; lia).
  rewrite (foldlR_positions _ _
    (fun result p =>
       if decide (fst p = DimInt 1) then Ok result
       else Ok (mkMaybeLoopFramework (loop result ++ [fst p])
                                     (is_reduce result ++ [snd p])))).
  - generalize (zip (loop fw) (is_reduce fw)). intros l.
    assert (Hgen : ∀ acc,
      foldlR (fun result p =>
         if decide (fst p = DimInt 1) then Ok result
         else Ok (mkMaybeLoopFramework (loop result ++ [fst p])
                                       (is_reduce result ++ [snd p]))) acc l
      = Ok (mkMaybeLoopFramework
              (loop acc ++ (fst <$> filter (fun p => fst p ≠ DimInt 1) l))
              (is_reduce acc ++ (snd <$> filter (fun p => fst p ≠ DimInt 1) l)))).
    { induction l as [|[d b] l IH]; intros acc; csimpl.
      - rewrite !app_nil_r. by destruct acc.
      - destruct (decide (d = DimInt 1)) as [->|Hd].
        + rewrite filter_cons_False by naive_solver. bind_simpl. apply IH.
        + rewrite filter_cons_True by done. bind_simpl. rewrite IH. csimpl.
          by rewrite <- !app_assoc. }
    apply (Hgen (mkMaybeLoopFramework [] [])).
  - intros acc i [d b] Hi. apply lookup_zip_Some in Hi as [Hd Hb].
    rewrite !at_of_nat, Hd. csimpl.
    destruct (decide (d = DimInt 1)); [done|]. by rewrite Hb.
Qed.

Lemma zip_fst_snd_fmap {A B} (l : list (A * B)) : zip (fst <$> l) (snd <$> l) = l.
Proof. induction l as [|[a b] l IH]; csimpl; [done|]. by rewrite IH. Qed.

Lemma filter_fst_zip {A B} (P : A → Prop) `{!∀ x, Decision (P x)}
    (l1 : list A) (l2 : list B) :
  length l1 = length l2 →
  fst <$> filter (fun p => P (fst p)) (zip l1 l2) = filter P l1.
Proof.
  revert l2. induction l1 as [|a l1 IH]; intros [|b l2] Hlen; try done.
  csimpl. injection Hlen as Hlen. destruct (decide (P a)).
  - rewrite !filter_cons_True by done. csimpl. by rewrite IH.
  - rewrite !filter_cons_False by done. by apply IH.
Qed.

Lemma filter_fmap_fst {A B} (P : A → Prop) `{!∀ x, Decision (P x)}
    (l : list (A * B)) :
  filter P (fst <$> l) = fst <$> filter (fun p => P (fst p)) l.
Proof.
  induction l as [|[a b] l IH]; [done|]. csimpl. destruct (decide (P a)).
  - rewrite !filter_cons_True by done. csimpl. by rewrite IH.
  - by rewrite !filter_cons_False.
Qed.

(** X13: on a framework with as many flags as sizes, [SqueezeLoopFramework]
    returns the framework without its entries [1]: the sizes other than [1]
    in order, each with its flag, so that the reduction dimensions of the
    result are those of the framework without the entries [1]. The result
    holds no [1], has as many flags as sizes, and squeezing it again changes
    nothing. *)
Theorem SqueezeLoopFramework_idempotent (fw : MaybeLoopFramework) :
  length (loop fw) = length (is_reduce fw) →
  ∃ sq,
    SqueezeLoopFramework fw = Ok sq ∧
    loop sq = squeeze (loop fw) ∧
    length (is_reduce sq) = length (loop sq) ∧
    reduce_dims sq = squeeze (reduce_dims fw) ∧
    (DimInt 1 ∉ loop sq) ∧
    SqueezeLoopFramework sq = Ok sq.
Proof.
  intros Hlen. rewrite SqueezeLoopFramework_kept by done.
  eexists. split; [reflexivity|]. cbn [loop is_reduce].
  assert (Hloop : fst <$> kept_dims fw = squeeze (loop fw)).
  { unfold kept_dims, squeeze.
    exact (filter_fst_zip (fun d => d ≠ DimInt 1) _ _ Hlen). }
  split_and!.
  - done.
  - by rewrite !length_fmap.
  - unfold reduce_dims, squeeze. cbn [loop is_reduce].
    rewrite zip_fst_snd_fmap.
    etransitivity; [|symmetry; exact (filter_fmap_fst (fun d => d ≠ DimInt 1) _)].
    unfold kept_dims. f_equal. rewrite !list_filter_filter.
    apply list_filter_iff. intros [d b]. tauto.
  - rewrite Hloop. unfold squeeze. intros Hin.
    by apply list_elem_of_filter in Hin as [Hne _].
  - rewrite SqueezeLoopFramework_kept by (cbn [loop is_reduce]; by rewrite !length_fmap).
    assert (kept_dims (mkMaybeLoopFramework (fst <$> kept_dims fw) (snd <$> kept_dims fw))
            = kept_dims fw) as ->; [|done].
    unfold kept_dims at 1. cbn [loop is_reduce]. rewrite zip_fst_snd_fmap.
    unfold kept_dims. rewrite list_filter_filter.
    apply list_filter_iff. intros [d b]. tauto.
Qed.

Lemma non_reduce_dims_leading (flatten_loops reduce_loops : list DimExpr) :
  non_reduce_dims (mkMaybeLoopFramework (ConcatVector flatten_loops reduce_loops)
    (CreateIsReduceVector (length flatten_loops) (length reduce_loops)))
  = flatten_loops.
Proof.
  unfold non_reduce_dims, CreateIsReduceVector, ConcatVector. cbn [loop is_reduce].
  induction flatten_loops as [|d l IH]; csimpl.
  - induction reduce_loops as [|d l IH]; csimpl; [done|]. exact IH.
  - by rewrite IH.
Qed.


(** X14: [SplitReduceLoop] undoes the construction of the framework of a
    [ReducePattern]: of the framework made of the loops [flatten_loops]
    followed by [reduce_loops], flagged by [CreateIsReduceVector], it returns
    the two vectors again. *)
Theorem SplitReduceLoop_round_trip (flatten_loops reduce_loops : list DimExpr) :
  SplitReduceLoop
    (mkMaybeLoopFramework (ConcatVector flatten_loops reduce_loops)
       (CreateIsReduceVector (length flatten_loops) (length reduce_loops)))
    = Ok (flatten_loops, reduce_loops).
Proof.
  rewrite SplitReduceLoop_dims.
  - by rewrite non_reduce_dims_leading, reduce_dims_trailing.
  - cbn [loop is_reduce]. unfold ConcatVector.
    by rewrite CreateIsReduceVector_length, length_app.
Qed.


Section Relation.

Variable G : OpGraph.
Variable GetReduceOp : ReducePattern → nat.

#[local] Abbreviation Equal := (IsLoopFrameworkEqual G GetReduceOp).

Lemma IsLoopFrameworkEqual_value (lhs rhs : StmtPattern)
    (lhs_loops rhs_loops : MaybeLoopFramework) :
  GetLoopFramework G GetReduceOp lhs = Ok lhs_loops →
  GetLoopFramework G GetReduceOp rhs = Ok rhs_loops →
  stored_framework_wf lhs → stored_framework_wf rhs →
  Equal lhs rhs
  = Ok (bool_decide (squeeze (loop lhs_loops) = squeeze (loop rhs_loops))
        && (if bool_decide (reduce_dims lhs_loops = [])
               || bool_decide (reduce_dims rhs_loops = [])
            then true
            else bool_decide (reduce_dims lhs_loops = reduce_dims rhs_loops))).
Proof.
  intros Hlhs Hrhs Hwfl Hwfr.
  pose proof (GetLoopFramework_wf _ _ _ _ Hwfl Hlhs) as Hlenl.
  pose proof (GetLoopFramework_wf _ _ _ _ Hwfr Hrhs) as Hlenr.
  unfold IsLoopFrameworkEqual. rewrite Hlhs, Hrhs. bind_simpl.
  rewrite !get_reduce_loop_reduce_dims by done. bind_simpl.
  destruct (SqueezeLoopFramework_squeeze lhs_loops Hlenl) as (sl & -> & Hsl).
  destruct (SqueezeLoopFramework_squeeze rhs_loops Hlenr) as (sr & -> & Hsr).
  bind_simpl. by rewrite Hsl, Hsr.
Qed.

(** X16: on patterns whose loop frameworks are defined,
    [IsLoopFrameworkEqual] holds of every pattern and itself and does not
    depend on the order of its arguments; but it is not transitive: a pattern
    without reduction dimensions is equal to two patterns that are not equal
    to each other, when they have the same loop and different reduction
    dimensions. *)
Theorem IsLoopFrameworkEqual_not_transitive :
  (∀ p fw,
     GetLoopFramework G GetReduceOp p = Ok fw → stored_framework_wf p →
     Equal p p = Ok true) ∧
  (∀ lhs rhs lhs_loops rhs_loops,
     GetLoopFramework G GetReduceOp lhs = Ok lhs_loops →
     GetLoopFramework G GetReduceOp rhs = Ok rhs_loops →
     stored_framework_wf lhs → stored_framework_wf rhs →
     Equal lhs rhs = Equal rhs lhs) ∧
  (∃ a b c, Equal a b = Ok true ∧ Equal b c = Ok true ∧ Equal a c = Ok false).
Proof.
  split_and!.
  - intros p fw Hfw Hwf. rewrite (IsLoopFrameworkEqual_value p p fw fw) by done.
    rewrite (bool_decide_eq_true_2 (squeeze (loop fw) = squeeze (loop fw))) by done.
    rewrite (bool_decide_eq_true_2 (reduce_dims fw = reduce_dims fw)) by done.
    by destruct (_ || _).
  - intros lhs rhs fl fr Hl Hr Hwfl Hwfr.
    rewrite (IsLoopFrameworkEqual_value lhs rhs fl fr) by done.
    rewrite (IsLoopFrameworkEqual_value rhs lhs fr fl) by done.
    f_equal. rewrite (orb_comm (bool_decide (reduce_dims fr = []))).
    f_equal; [apply bool_decide_ext; split; congruence|].
    destruct (_ || _); [done|]. apply bool_decide_ext; split; congruence.
  - exists (ItersPermutation
              (mkItersPermutationPattern 1 [] (NewTracker [])
                 ([DimInt 2; DimInt 4], [false; true]))),
           (ItersPermutation
              (mkItersPermutationPattern 2 [] (NewTracker [])
                 ([DimInt 2; DimInt 4], [false; false]))),
           (ItersPermutation
              (mkItersPermutationPattern 3 [] (NewTracker [])
                 ([DimInt 2; DimInt 4], [true; true]))).
    split_and!; reflexivity.
Qed.

End Relation.

Lemma SqueezeLoopFramework_idempotent_witness :
  ∃ sq,
    SqueezeLoopFramework
      (mkMaybeLoopFramework [DimInt 4; DimInt 1; DimInt 8] [false; true; true]) = Ok sq ∧
    loop sq = squeeze [DimInt 4; DimInt 1; DimInt 8] ∧
    length (is_reduce sq) = length (loop sq) ∧
    reduce_dims sq
      = squeeze (reduce_dims
          (mkMaybeLoopFramework [DimInt 4; DimInt 1; DimInt 8] [false; true; true])) ∧
    (DimInt 1 ∉ loop sq) ∧
    SqueezeLoopFramework sq = Ok sq.
Proof.
  apply (SqueezeLoopFramework_idempotent
           (mkMaybeLoopFramework [DimInt 4; DimInt 1; DimInt 8] [false; true; true])).
  reflexivity.
Defined.


Lemma IsLoopFrameworkEqual_not_transitive_witness :
  IsLoopFrameworkEqual graph reduce_op_of (ReduceTreePlusTrivial rtt_fake)
    (ReduceTreePlusTrivial rtt_fake) = Ok true.
Proof.
  eapply (proj1 (IsLoopFrameworkEqual_not_transitive graph reduce_op_of)).
  - vm_compute. reflexivity.
  - exact I.
Defined.

(** * Loop-equal horizontal patterns merge *)

Section HorizontalMerge.

Variable G : OpGraph.
Variable GetReduceOp : ReducePattern → nat.

#[local] Abbreviation Framework := (GetLoopFramework G GetReduceOp).
#[local] Abbreviation Equal := (IsLoopFrameworkEqual G GetReduceOp).

(** What [IsLoopFrameworkEqual] says when it returns [true]. *)
Lemma IsLoopFrameworkEqual_true (lhs rhs : StmtPattern) :
  stored_framework_wf lhs → stored_framework_wf rhs →
  Equal lhs rhs = Ok true →
  ∃ lhs_loops rhs_loops,
    Framework lhs = Ok lhs_loops ∧ Framework rhs = Ok rhs_loops ∧
    squeeze (loop lhs_loops) = squeeze (loop rhs_loops) ∧
    (reduce_dims lhs_loops = [] ∨ reduce_dims rhs_loops = [] ∨
     reduce_dims lhs_loops = reduce_dims rhs_loops).
Proof.
  intros Hwfl Hwfr Heq.
  destruct (Framework lhs) as [fl| |] eqn:Hl;
    [|by unfold IsLoopFrameworkEqual in Heq; rewrite Hl in Heq..].
  destruct (Framework rhs) as [fr| |] eqn:Hr;
    [|by unfold IsLoopFrameworkEqual in Heq; rewrite Hl, Hr in Heq..].
  rewrite (IsLoopFrameworkEqual_value _ _ lhs rhs fl fr) in Heq by done.
  injection Heq as Heq. apply andb_true_iff in Heq as [Hsq Hred].
  apply bool_decide_eq_true_1 in Hsq.
  exists fl, fr. split_and!; [done..|].
  destruct (bool_decide (reduce_dims fl = [])) eqn:H1;
    [apply bool_decide_eq_true_1 in H1; tauto|].
  destruct (bool_decide (reduce_dims fr = [])) eqn:H2;
    [apply bool_decide_eq_true_1 in H2; tauto|].
  cbn [orb] in Hred. apply bool_decide_eq_true_1 in Hred. tauto.
Qed.

(** X21: two horizontal patterns that [IsLoopFrameworkEqual] accepts can be
    merged: [MergePattern] returns, and the merged pattern is again accepted
    with each of the two. *)
Theorem IsLoopFrameworkEqual_Horizontal_merge (first second : HorizontalFusionPattern)
    (s : nat) :
  Equal (HorizontalFusion first) (HorizontalFusion second) = Ok true →
  ∃ r,
    MergePattern G GetReduceOp (HorizontalFusion first) (HorizontalFusion second) s
      = Ok (HorizontalFusion r, S s) ∧
    Equal (HorizontalFusion r) (HorizontalFusion first) = Ok true ∧
    Equal (HorizontalFusion r) (HorizontalFusion second) = Ok true.
Proof.
  intros Heq.
  apply IsLoopFrameworkEqual_true in Heq as (fa & fb & Hfa & Hfb & Hsq & Hred);
    [|done..].
  destruct (MergePatternImpl_Horizontal_Horizontal_framework G GetReduceOp
              first second s fa fb Hfa Hfb) as [Hok _].
  destruct (Hok Hsq) as (r & f & sp & fw & Hmerge & _ & Hfw & _ & _ & Hsqr & Hredr).
  exists r. split_and!; [done|..].
  - rewrite (IsLoopFrameworkEqual_value _ _ _ _ fw fa) by done.
    rewrite bool_decide_eq_true_2 by done. rewrite Hredr. f_equal.
    destruct Hred as [Hred|[Hred|Hred]].
    + rewrite (bool_decide_eq_true_2 (reduce_dims fa = [])) by done.
      by rewrite orb_true_r.
    + by rewrite (bool_decide_eq_true_2 (reduce_dims fb = [])) by done.
    + destruct (_ || _); [done|]. by rewrite bool_decide_eq_true_2.
  - rewrite (IsLoopFrameworkEqual_value _ _ _ _ fw fb) by done.
    rewrite bool_decide_eq_true_2 by congruence. rewrite Hredr. f_equal.
    destruct (_ || _); [done|]. by rewrite bool_decide_eq_true_2.
Qed.

End HorizontalMerge.

Lemma IsLoopFrameworkEqual_Horizontal_merge_witness :
  ∃ r,
    MergePattern graph reduce_op_of
      (HorizontalFusion (horizontal_of 47 (ItersPermutation iters_4_8)))
      (HorizontalFusion (horizontal_of 48 (ItersPermutation iters_4_1_8))) 50%nat
      = Ok (HorizontalFusion r, 51%nat) ∧
    IsLoopFrameworkEqual graph reduce_op_of (HorizontalFusion r)
      (HorizontalFusion (horizontal_of 47 (ItersPermutation iters_4_8))) = Ok true ∧
    IsLoopFrameworkEqual graph reduce_op_of (HorizontalFusion r)
      (HorizontalFusion (horizontal_of 48 (ItersPermutation iters_4_1_8))) = Ok true.
Proof.
  apply (IsLoopFrameworkEqual_Horizontal_merge graph reduce_op_of
           (horizontal_of 47 (ItersPermutation iters_4_8))
           (horizontal_of 48 (ItersPermutation iters_4_1_8)) 50%nat).
  reflexivity.
Defined.

(** * Properties of [SetReturnInstr] *)

Lemma instructions_append (t : FusionTracker) (i : FusionInstruction) :
  instructions_ (append t i) = instructions_ t ++ [i].
Proof. by destruct t. Qed.

(** The log of a pattern just classified. *)
Lemma ConvertToStmtPattern_log (G : OpGraph) (content : PatternContent) (s : nat) :
  ∃ p s',
    ConvertToStmtPattern G content s = Ok (p, s') ∧
    instructions_ (tracker_ p) = [InitPatternInstr (op content) (GetPatternId p)].
Proof.
  unfold ConvertToStmtPattern.
  repeat case_decide; by eexists _, _.
Qed.

(** X22: [SetReturnInstr] adds the [ReturnInstr] of the identifier of the
    pattern at the end of the log of its tracker, for every alternative, and
    changes nothing else of the pattern: identifier, alternative and ops are
    kept. On a pattern just returned by [ConvertToStmtPattern] the log is
    then the [InitPatternInstr] of the op followed by the [ReturnInstr]. *)
Theorem SetReturnInstr_log (G : OpGraph) (s : StmtPattern) :
  instructions_ (tracker_ (SetReturnInstr s))
    = instructions_ (tracker_ s) ++ [ReturnInstr (GetPatternId s)] ∧
  GetPatternId (SetReturnInstr s) = GetPatternId s ∧
  variant_of (SetReturnInstr s) = variant_of s ∧
  GetOpsInPattern (SetReturnInstr s) = GetOpsInPattern s ∧
  (∀ content n p n',
     ConvertToStmtPattern G content n = Ok (p, n') →
     instructions_ (tracker_ (SetReturnInstr p))
       = [InitPatternInstr (op content) (GetPatternId p);
          ReturnInstr (GetPatternId p)]).
Proof.
  assert (Hlog : ∀ s, instructions_ (tracker_ (SetReturnInstr s))
            = instructions_ (tracker_ s) ++ [ReturnInstr (GetPatternId s)]).
  { intros s0. unfold SetReturnInstr.
    destruct s0; cbn [set_tracker tracker_ trivial_tracker reduce_tracker tree_tracker
                      rtt_tracker horizontal_tracker unsupport_tracker iters_tracker];
      apply instructions_append. }
  split_and!.
  - apply Hlog.
  - by destruct s.
  - by destruct s.
  - destruct s as [p|p|p|p|p|p|p]; try done; by destruct p.
  - intros content n p n' H.
    destruct (ConvertToStmtPattern_log G content n) as (p0 & s0 & H0 & Htr).
    rewrite H0 in H. injection H as <- <-. by rewrite Hlog, Htr.
Qed.

Lemma SetReturnInstr_log_witness :
  ∃ p s',
    ConvertToStmtPattern graph (mkPatternContent 8%nat) 50%nat = Ok (p, s') ∧
    instructions_ (tracker_ (SetReturnInstr p))
      = [InitPatternInstr 8%nat (GetPatternId p); ReturnInstr (GetPatternId p)].
Proof.
  eexists _, _. split; [reflexivity|].
  eapply (proj2 (proj2 (proj2 (proj2
            (SetReturnInstr_log graph (Trivial (trivial_leaf 8 8))))))
            (mkPatternContent 8%nat) 50%nat).
  reflexivity.
Defined.

(** * Further properties of the unpool kernels *)

Section WritePlane.

Context {T : Type}.

Lemma write_plane_length (values : list T) (indices : list Z) (base : Z)
    (output : list T) :
  length (Unpool.write_plane values indices base output) = length output.
Proof.
  unfold Unpool.write_plane. revert output.
  generalize (zip indices values). intros l.
  induction l as [|p l IH]; intros output; cbn [foldl]; [done|].
  by rewrite IH, length_insert.
Qed.

(** A position no index of the plane names is left as it is. *)
Lemma write_plane_untouched (values : list T) (indices : list Z) (base : Z)
    (output : list T) (q : nat) :
  (∀ index, index ∈ indices → Z.to_nat (base + index) ≠ q) →
  Unpool.write_plane values indices base output !! q = output !! q.
Proof.
  unfold Unpool.write_plane. intros Hq.
  assert (Hzip : ∀ p, p ∈ zip indices values → Z.to_nat (base + p.1) ≠ q).
  { intros [index v] Hp. apply Hq. apply list_elem_of_lookup in Hp as [i Hi].
    apply lookup_zip_Some in Hi as [Hi _]. by eapply list_elem_of_lookup_2. }
  clear Hq. revert output Hzip. generalize (zip indices values). intros l.
  induction l as [|p l IH]; intros output Hzip; cbn [foldl]; [done|].
  rewrite IH by (intros p' Hp'; apply Hzip; by apply list_elem_of_further).
  apply list_lookup_insert_ne. apply Hzip, list_elem_of_here.
Qed.

(** A position holds the element of the last index that names it. *)
Lemma write_plane_last (values : list T) (indices : list Z) (base : Z)
    (output : list T) (j : nat) (index : Z) (v : T) :
  indices !! j = Some index → values !! j = Some v →
  (∀ j' index', (j < j')%nat → indices !! j' = Some index' →
     Z.to_nat (base + index') ≠ Z.to_nat (base + index)) →
  (Z.to_nat (base + index) < length output)%nat →
  Unpool.write_plane values indices base output !! Z.to_nat (base + index) = Some v.
Proof.
  intros Hindex Hv Hlast Hlt.
  rewrite <- (take_drop_middle indices j index Hindex).
  rewrite <- (take_drop_middle values j v Hv).
  unfold Unpool.write_plane.
  rewrite zip_with_app
    by (rewrite !length_take; apply lookup_lt_Some in Hindex, Hv; lia).
  rewrite foldl_app. cbn [zip_with foldl fst snd].
  fold (Unpool.write_plane (take j values) (take j indices) base output).
  fold (Unpool.write_plane (drop (S j) values) (drop (S j) indices) base
          (<[Z.to_nat (base + index) := v]>
             (Unpool.write_plane (take j values) (take j indices) base output))).
  rewrite write_plane_untouched.
  - apply list_lookup_insert_eq. by rewrite write_plane_length.
  - intros index' Hin. apply list_elem_of_lookup in Hin as [i Hi].
    rewrite lookup_drop in Hi. apply (Hlast (S j + i)%nat); [lia|done].
Qed.

(** What a plane writes at a position depends on the buffer at this
    position only. *)
Lemma write_plane_ext (values : list T) (indices : list Z) (base : Z)
    (output1 output2 : list T) (q : nat) :
  length output1 = length output2 → output1 !! q = output2 !! q →
  Unpool.write_plane values indices base output1 !! q
  = Unpool.write_plane values indices base output2 !! q.
Proof.
  unfold Unpool.write_plane. revert output1 output2.
  generalize (zip indices values). intros l.
  induction l as [|p l IH]; intros output1 output2 Hlen Hq; cbn [foldl]; [done|].
  apply IH; [by rewrite !length_insert|].
  destruct (decide (Z.to_nat (base + p.1) = q)) as [<-|Hne].
  - destruct (decide (Z.to_nat (base + p.1) < length output1)%nat).
    + by rewrite !list_lookup_insert_eq by lia.
    + by rewrite !lookup_ge_None_2 by (rewrite length_insert; lia).
  - by rewrite !list_lookup_insert_ne.
Qed.

End WritePlane.

Section Writes.

Variable T : Type.
Variables (input_buf : list T) (indices_buf : list Z).
Variables (input_feasize output_feasize : nat).

#[local] Abbreviation plane_values k :=
  (take input_feasize (drop (k * input_feasize) input_buf)).
#[local] Abbreviation plane_indices k :=
  (take input_feasize (drop (k * input_feasize) indices_buf)).
#[local] Abbreviation writes output k :=
  (Unpool.unpool_writes input_buf indices_buf k input_feasize output_feasize
     output).

Lemma unpool_writes_length (planes : nat) (output : list T) :
  length (writes output planes) = length output.
Proof.
  induction planes as [|n IH]; [done|].
  by rewrite unpool_writes_S, write_plane_length.
Qed.

Lemma plane_indices_lookup (k j : nat) (index : Z) :
  plane_indices k !! j = Some index
  ↔ (j < input_feasize)%nat ∧ indices_buf !! (k * input_feasize + j)%nat = Some index.
Proof. rewrite lookup_take_Some, lookup_drop. tauto. Qed.

Lemma plane_values_lookup (k j : nat) (v : T) :
  plane_values k !! j = Some v
  ↔ (j < input_feasize)%nat ∧ input_buf !! (k * input_feasize + j)%nat = Some v.
Proof. rewrite lookup_take_Some, lookup_drop. tauto. Qed.

#[local] Abbreviation in_range planes :=
  (Unpool.indices_in_range indices_buf (planes * input_feasize) output_feasize).

Lemma in_range_plane (planes k : nat) (index : Z) :
  in_range planes → (k < planes)%nat → index ∈ plane_indices k →
  0 ≤ index < Z.of_nat output_feasize.
Proof.
  intros Hrange Hk Hin. apply list_elem_of_lookup in Hin as [j Hj].
  apply plane_indices_lookup in Hj as [Hj Hindex].
  apply (Hrange _ _ Hindex).
  assert (S k * input_feasize ≤ planes * input_feasize)%nat
    by (apply Nat.mul_le_mono_r; lia).
  lia.
Qed.

(** A position outside the first [planes] output planes is left as it is. *)
Lemma unpool_writes_outside (planes : nat) (output : list T) (q : nat) :
  in_range planes →
  (∀ k, (k < planes)%nat → ¬ (k * output_feasize ≤ q < S k * output_feasize)%nat) →
  writes output planes !! q = output !! q.
Proof.
  induction planes as [|n IH]; intros Hrange Hq; [done|].
  rewrite unpool_writes_S, write_plane_untouched.
  - apply IH.
    + intros j index Hj Hlt. apply (Hrange j index Hj). lia.
    + intros k Hk. apply Hq. lia.
  - intros index Hin. apply (in_range_plane (S n) n) in Hin; [|done|lia].
    specialize (Hq n (Nat.lt_succ_diag_r n)). lia.
Qed.

(** A position of plane [k] is written by the loop over plane [k] only. *)
Lemma unpool_writes_plane (planes k : nat) (output : list T) (q : nat) :
  in_range planes → (k < planes)%nat →
  (k * output_feasize ≤ q < S k * output_feasize)%nat →
  writes output planes !! q
  = Unpool.write_plane (plane_values k) (plane_indices k)
      (Z.of_nat (k * output_feasize)) output !! q.
Proof.
  intros Hrange Hk Hq.
  assert (Hother : ∀ k', k' ≠ k →
            ¬ (k' * output_feasize ≤ q < S k' * output_feasize)%nat).
  { intros k' Hne [Hlo Hhi].
    destruct (decide (k' < k)%nat).
    - assert (S k' * output_feasize ≤ k * output_feasize)%nat
        by (apply Nat.mul_le_mono_r; lia). lia.
    - assert (S k * output_feasize ≤ k' * output_feasize)%nat
        by (apply Nat.mul_le_mono_r; lia). lia. }
  induction planes as [|n IH]; [lia|].
  rewrite unpool_writes_S.
  destruct (decide (k = n)) as [->|Hne].
  - apply write_plane_ext; [apply unpool_writes_length|].
    apply unpool_writes_outside.
    + intros j index Hj Hlt. apply (Hrange j index Hj). lia.
    + intros k' Hk'. apply Hother. lia.
  - rewrite write_plane_untouched.
    + apply IH; [|lia]. intros j index Hj Hlt. apply (Hrange j index Hj). lia.
    + intros index Hin. apply (in_range_plane (S n) n) in Hin; [|done|lia].
      specialize (Hother n (not_eq_sym Hne)). lia.
Qed.

(** The output of the loops, position by position. *)
Lemma unpool_writes_pointwise (planes : nat) (output : list T) :
  in_range planes →
  (planes * output_feasize ≤ length output)%nat →
  (∀ k r, (k < planes)%nat → (r < output_feasize)%nat →
     (∀ j, (j < input_feasize)%nat →
        indices_buf !! (k * input_feasize + j)%nat ≠ Some (Z.of_nat r)) →
     writes output planes !! (k * output_feasize + r)%nat
     = output !! (k * output_feasize + r)%nat) ∧
  (∀ k j index v, (k < planes)%nat → (j < input_feasize)%nat →
     indices_buf !! (k * input_feasize + j)%nat = Some index →
     input_buf !! (k * input_feasize + j)%nat = Some v →
     (∀ j', (j < j' < input_feasize)%nat →
        indices_buf !! (k * input_feasize + j')%nat ≠ Some index) →
     writes output planes !! (k * output_feasize + Z.to_nat index)%nat = Some v) ∧
  (∀ q, (planes * output_feasize ≤ q)%nat →
     writes output planes !! q = output !! q).
Proof.
  intros Hrange Houtput. split_and!.
  - intros k r Hk Hr Hnone.
    rewrite (unpool_writes_plane planes k) by (done || lia).
    apply write_plane_untouched. intros index Hin Heq.
    pose proof (in_range_plane planes k index Hrange Hk Hin) as Hindex.
    apply list_elem_of_lookup in Hin as [j Hj].
    apply plane_indices_lookup in Hj as [Hj Hlookup].
    apply (Hnone j Hj). rewrite Hlookup. f_equal. lia.
  - intros k j index v Hk Hj Hindex Hv Hlast.
    assert (0 ≤ index < Z.of_nat output_feasize) as Hbounds.
    { apply (Hrange _ _ Hindex).
      assert (S k * input_feasize ≤ planes * input_feasize)%nat
        by (apply Nat.mul_le_mono_r; lia).
      lia. }
    assert (S k * output_feasize ≤ planes * output_feasize)%nat
      by (apply Nat.mul_le_mono_r; lia).
    rewrite (unpool_writes_plane planes k) by (done || lia).
    replace (k * output_feasize + Z.to_nat index)%nat
      with (Z.to_nat (Z.of_nat (k * output_feasize) + index)) by lia.
    apply (write_plane_last _ _ _ _ j).
    + by apply plane_indices_lookup.
    + by apply plane_values_lookup.
    + intros j' index' Hjj' Hj' Heq.
      apply plane_indices_lookup in Hj' as [Hj' Hlookup].
      assert (0 ≤ index' < Z.of_nat output_feasize) as Hbounds'.
      { apply (Hrange _ _ Hlookup).
        assert (S k * input_feasize ≤ planes * input_feasize)%nat
          by (apply Nat.mul_le_mono_r; lia).
        lia. }
      apply (Hlast j'); [lia|]. rewrite Hlookup. f_equal. lia.
    + lia.
  - intros q Hq. apply unpool_writes_outside; [done|].
    intros k Hk.
    assert (S k * output_feasize ≤ planes * output_feasize)%nat
      by (apply Nat.mul_le_mono_r; lia).
    lia.
Qed.

End Writes.

Lemma to_int_small (x : Z) : 0 ≤ x < 2 ^ 31 → Unpool.to_int x = x.
Proof.
  intros Hx. unfold Unpool.to_int.
  rewrite Z.mod_small by lia. lia.
Qed.

Lemma int_mul_small (a b : nat) :
  Z.of_nat (a * b) < 2 ^ 31 →
  Unpool.int_mul (Z.of_nat a) (Z.of_nat b) = Ok (Z.of_nat (a * b)).
Proof.
  intros Hab. unfold Unpool.int_mul. rewrite <- Nat2Z.inj_mul.
  destruct (decide _) as [|Hout]; [done|]. lia.
Qed.

Lemma numel_4 (a b c d : Z) : Unpool.numel [a; b; c; d] = a * b * c * d.
Proof. unfold Unpool.numel. cbn [foldr]. lia. Qed.

(** A loop whose body keeps an invariant for [n] rounds and stops with [r]
    in the next one. *)
Lemma foldlR_stops {A} (F : A → Z → Result A) (P : nat → A → Prop)
    (n m : nat) (z : Z) (a : A) (r : Result A) :
  is_Ok r = false →
  (n < m)%nat →
  P 0%nat a →
  (∀ k a, (k < n)%nat → P k a → ∃ a', F a (z + Z.of_nat k) = Ok a' ∧ P (S k) a') →
  (∀ a, P n a → F a (z + Z.of_nat n) = r) →
  foldlR F a (seqZ z (Z.of_nat m)) = r.
Proof.
  intros Hr Hnm Hinit Hstep Hfail.
  assert (Hgen : ∀ j k a, (k + j = n)%nat → P k a →
    foldlR F a (seqZ (z + Z.of_nat k) (Z.of_nat (j + (m - n)))) = r).
  { induction j as [|j IH]; intros k a0 Hk Ha.
    - replace (0 + (m - n))%nat with (S (m - n - 1)) by lia.
      rewrite Nat2Z.inj_succ, seqZ_cons, Z.pred_succ by lia. cbn [foldlR].
      replace k with n in * by lia. rewrite Hfail by done. by destruct r.
    - replace (S j + (m - n))%nat with (S (j + (m - n))) by lia.
      rewrite Nat2Z.inj_succ, seqZ_cons, Z.pred_succ by lia. cbn [foldlR].
      destruct (Hstep k a0) as (a1 & -> & Ha1); [lia|done|]. bind_simpl.
      replace (Z.succ (z + Z.of_nat k)) with (z + Z.of_nat (S k)) by lia.
      apply IH; [lia|done]. }
  replace m with (n + (m - n))%nat at 1 by lia.
  replace z with (z + Z.of_nat 0) at 1 by lia. apply Hgen; [lia|done].
Qed.

Section ShortInput.

Variable T : Type.
Variables (input_buf : list T) (indices_buf : list Z).
Variables (input_feasize output_feasize : nat).
Variable message : string.

#[local] Abbreviation pointers k output :=
  (output, Z.of_nat (k * input_feasize), Z.of_nat (k * input_feasize),
   Z.of_nat (k * output_feasize)).
#[local] Abbreviation plane :=
  (Unpool.unpool_plane T input_buf indices_buf (Z.of_nat input_feasize)
     (Z.of_nat output_feasize) message).
#[local] Abbreviation writes output k :=
  (Unpool.unpool_writes input_buf indices_buf k input_feasize output_feasize
     output).

(** The loop over the plane in which the input buffer ends reads past its
    end. *)
Lemma unpool_plane_short_input (k : nat) (output : list T) :
  (k * input_feasize ≤ length input_buf < k * input_feasize + input_feasize)%nat →
  (k * input_feasize + input_feasize ≤ length indices_buf)%nat →
  (k * output_feasize + output_feasize ≤ length output)%nat →
  Unpool.indices_in_range indices_buf (k * input_feasize + input_feasize)
    output_feasize →
  plane (pointers k output) = Undefined.
Proof.
  intros Hinput Hindices Houtput Hrange. unfold Unpool.unpool_plane.
  rewrite (foldlR_stops _ (fun _ buf => length buf = length output)
             (length input_buf - k * input_feasize) input_feasize 0 output Undefined);
    [done|done|lia|done| |].
  - intros i buf Hi Hbuf. rewrite Z.add_0_l, <- !Nat2Z.inj_add, !at_of_nat.
    destruct (lookup_lt_is_Some_2 indices_buf (k * input_feasize + i)) as [index Hindex];
      [lia|].
    rewrite Hindex. bind_simpl.
    pose proof (Hrange _ _ Hindex ltac:(lia)) as Hbounds.
    rewrite decide_True by lia.
    destruct (lookup_lt_is_Some_2 input_buf (k * input_feasize + i)) as [v ->]; [lia|].
    bind_simpl. rewrite store_in_range by lia.
    eexists. split; [done|]. by rewrite length_insert.
  - intros buf Hbuf. rewrite Z.add_0_l, <- !Nat2Z.inj_add, !at_of_nat.
    destruct (lookup_lt_is_Some_2 indices_buf
                (k * input_feasize + (length input_buf - k * input_feasize)))
      as [index Hindex]; [lia|].
    rewrite Hindex. bind_simpl.
    pose proof (Hrange _ _ Hindex ltac:(lia)) as Hbounds.
    rewrite decide_True by lia.
    rewrite (proj2 (lookup_ge_None input_buf _)) by lia. done.
Qed.

Lemma unpool_loops_short_input (batch_size output_channels : nat) (output : list T) :
  (length input_buf < batch_size * output_channels * input_feasize)%nat →
  (batch_size * output_channels * input_feasize ≤ length indices_buf)%nat →
  (batch_size * output_channels * output_feasize ≤ length output)%nat →
  Unpool.indices_in_range indices_buf
    (batch_size * output_channels * input_feasize) output_feasize →
  Unpool.unpool_loops T input_buf indices_buf (Z.of_nat batch_size)
    (Z.of_nat output_channels) (Z.of_nat input_feasize)
    (Z.of_nat output_feasize) message output
  = Undefined.
Proof.
  intros Hinput Hindices Houtput Hrange.
  assert (Hifs : (0 < input_feasize)%nat) by nia.
  set (k0 := (length input_buf / input_feasize)%nat).
  assert (Hk0 : (k0 * input_feasize ≤ length input_buf
                 < k0 * input_feasize + input_feasize)%nat).
  { subst k0. pose proof (Nat.div_mod_eq (length input_buf) input_feasize).
    pose proof (Nat.mod_upper_bound (length input_buf) input_feasize). lia. }
  assert (Hk0lt : (k0 < batch_size * output_channels)%nat) by nia.
  assert (Hoc : (0 < output_channels)%nat) by nia.
  set (b0 := (k0 / output_channels)%nat).
  set (c0 := (k0 mod output_channels)%nat).
  assert (Hb0c0 : (k0 = b0 * output_channels + c0)%nat).
  { subst b0 c0. pose proof (Nat.div_mod_eq k0 output_channels). lia. }
  assert (Hc0 : (c0 < output_channels)%nat)
    by (subst c0; apply Nat.mod_upper_bound; lia).
  assert (Hb0 : (b0 < batch_size)%nat) by nia.
  assert (Hle : ∀ k, (k ≤ k0)%nat →
            (k * input_feasize ≤ k0 * input_feasize)%nat ∧
            (k * output_feasize ≤ k0 * output_feasize)%nat).
  { intros k Hk. split; apply Nat.mul_le_mono_r; lia. }
  assert (Hlt : (S k0 * input_feasize ≤ batch_size * output_channels * input_feasize)%nat
                ∧ (S k0 * output_feasize
                   ≤ batch_size * output_channels * output_feasize)%nat).
  { split; apply Nat.mul_le_mono_r; lia. }
  assert (Hstep : ∀ k st, (k < k0)%nat →
            (st = pointers k (writes output k) ∧ length (writes output k) = length output) →
            ∃ st', plane st = Ok st' ∧
              (st' = pointers (S k) (writes output (S k)) ∧
               length (writes output (S k)) = length output)).
  { intros k st Hk Hst. destruct (Hle (S k) ltac:(lia)) as [? ?].
    apply (unpool_plane_step T input_buf indices_buf input_feasize output_feasize
             message k0); [lia..| |done].
    intros j index Hj Hjlt. apply (Hrange j index Hj). lia. }
  unfold Unpool.unpool_loops.
  match goal with
  | |- (foldlR ?F ?a _ ≫= _) = _ =>
      rewrite (foldlR_stops F
                 (fun b st => st = pointers (b * output_channels)
                                     (writes output (b * output_channels)) ∧
                              length (writes output (b * output_channels))
                              = length output)
                 b0 batch_size 0 a Undefined); [done|done|done|by split| |]
  end.
  - intros b st Hb Hst.
    match goal with
    | |- ∃ a', foldlR ?F ?a _ = _ ∧ _ =>
        destruct (foldlR_invariant F
                    (fun c st => st = pointers (b * output_channels + c)
                                        (writes output (b * output_channels + c)) ∧
                                 length (writes output (b * output_channels + c))
                                 = length output)
                    output_channels 0 a) as (st' & Hst' & HP')
    end.
    + by rewrite Nat.add_0_r.
    + intros c st' i' Hc Hst'.
      replace (b * output_channels + S c)%nat
        with (S (b * output_channels + c)) by lia.
      apply Hstep; [nia|done].
    + exists st'. split; [done|].
      by replace (S b * output_channels)%nat
        with (b * output_channels + output_channels)%nat by lia.
  - intros st Hst.
    match goal with
    | |- foldlR ?F ?a _ = _ =>
        apply (foldlR_stops F
                 (fun c st => st = pointers (b0 * output_channels + c)
                                     (writes output (b0 * output_channels + c)) ∧
                              length (writes output (b0 * output_channels + c))
                              = length output)
                 c0 output_channels 0 a Undefined); [done|done| | |]
    end.
    + by rewrite Nat.add_0_r.
    + intros c st' Hc Hst'.
      replace (b0 * output_channels + S c)%nat
        with (S (b0 * output_channels + c)) by lia.
      apply Hstep; [lia|done].
    + intros st' [-> Hlen]. rewrite <- Hb0c0 in Hlen |- *.
      apply unpool_plane_short_input; [lia|lia|lia|].
      intros j index Hj Hjlt. apply (Hrange j index Hj). lia.
Qed.

End ShortInput.

Section UnpoolKernel.

Variable T : Type.
Variable zero : T.
Context {DataType : Type} `{!EqDecision DataType}.
Variable data_as : Unpool.IndT → Unpool.DenseTensor DataType Z → Result (list Z).

Variables (I : Unpool.IndT) (x : Unpool.DenseTensor DataType T)
  (indices : Unpool.DenseTensor DataType Z) (indices_buf : list Z).

(** The dimensions of [x] and of [out]: four each, every one an [int]. *)
Variables (batch_size input_height input_width : nat) (channels : Z).
Variables (out_batch output_channels output_height output_width : nat).

#[local] Abbreviation out_dims :=
  [Z.of_nat out_batch; Z.of_nat output_channels; Z.of_nat output_height;
   Z.of_nat output_width].
#[local] Abbreviation input_feasize := (input_height * input_width)%nat.
#[local] Abbreviation output_feasize := (output_height * output_width)%nat.
#[local] Abbreviation planes := (batch_size * output_channels)%nat.

Hypothesis x_dims :
  Unpool.dims x = [Z.of_nat batch_size; channels; Z.of_nat input_height;
                   Z.of_nat input_width].
Hypothesis batch_size_int : Z.of_nat batch_size < 2 ^ 31.
Hypothesis input_height_int : Z.of_nat input_height < 2 ^ 31.
Hypothesis input_width_int : Z.of_nat input_width < 2 ^ 31.
Hypothesis output_channels_int : Z.of_nat output_channels < 2 ^ 31.
Hypothesis output_height_int : Z.of_nat output_height < 2 ^ 31.
Hypothesis output_width_int : Z.of_nat output_width < 2 ^ 31.
Hypothesis input_feasize_int : Z.of_nat input_feasize < 2 ^ 31.
Hypothesis output_feasize_int : Z.of_nat output_feasize < 2 ^ 31.
Hypothesis indices_data : data_as I indices = Ok indices_buf.

(** On such tensors the kernel is the three loops over a zeroed buffer. *)
Lemma Unpool_loops :
  Unpool.Unpool T zero data_as I x indices out_dims
  = Unpool.unpool_loops T (Unpool.data x) indices_buf (Z.of_nat batch_size)
      (Z.of_nat output_channels) (Z.of_nat input_feasize)
      (Z.of_nat output_feasize)
      "index should less than output tensor height * output tensor width."
      (Unpool.Alloc_zero T zero out_dims).
Proof.
  unfold Unpool.Unpool. rewrite x_dims.
  change (at_ [Z.of_nat batch_size; channels; Z.of_nat input_height;
               Z.of_nat input_width] 0) with (Ok (Z.of_nat batch_size)).
  change (at_ [Z.of_nat batch_size; channels; Z.of_nat input_height;
               Z.of_nat input_width] 2) with (Ok (Z.of_nat input_height)).
  change (at_ [Z.of_nat batch_size; channels; Z.of_nat input_height;
               Z.of_nat input_width] 3) with (Ok (Z.of_nat input_width)).
  change (at_ out_dims 1) with (Ok (Z.of_nat output_channels)).
  change (at_ out_dims 2) with (Ok (Z.of_nat output_height)).
  change (at_ out_dims 3) with (Ok (Z.of_nat output_width)).
  cbn [fmap Result_fmap]. bind_simpl.
  rewrite !to_int_small by lia.
  rewrite !int_mul_small by done. bind_simpl.
  rewrite indices_data. by bind_simpl.
Qed.

(** X17: [Unpool] on a four-dimensional [x] and [out] whose sizes fit [int],
    with enough elements in the buffers and at least as many batches in the
    output as in the input, when every index read names a position of its
    output plane (it is not negative and is below the output feature size):
    the kernel returns the zeroed output with, plane after plane, every input
    element written at the position its index names. *)
Theorem Unpool_in_range :
  (planes * input_feasize ≤ length (Unpool.data x))%nat →
  (planes * input_feasize ≤ length indices_buf)%nat →
  (batch_size ≤ out_batch)%nat →
  Unpool.indices_in_range indices_buf (planes * input_feasize) output_feasize →
  Unpool.Unpool T zero data_as I x indices out_dims
  = Ok (Unpool.unpool_writes (Unpool.data x) indices_buf planes input_feasize
          output_feasize (Unpool.Alloc_zero T zero out_dims)).
Proof.
  intros Hinput Hindices Hbatch Hrange. rewrite Unpool_loops.
  apply unpool_loops_in_range; [done|done| |done].
  unfold Unpool.Alloc_zero. rewrite length_replicate, numel_4.
  rewrite <- !Nat2Z.inj_mul, Nat2Z.id.
  rewrite <- !Nat.mul_assoc. apply Nat.mul_le_mono_r. exact Hbatch.
Qed.

(** X18: on the same tensors, when the indices read before it name positions
    of their output planes, [Unpool] throws [InvalidArgument] at the first
    index that is not below the output feature size; no output is
    returned. *)
Theorem Unpool_index_too_large (b0 c0 i0 : nat) (index0 : Z) :
  (planes * input_feasize ≤ length (Unpool.data x))%nat →
  (planes * input_feasize ≤ length indices_buf)%nat →
  (batch_size ≤ out_batch)%nat →
  (b0 < batch_size)%nat → (c0 < output_channels)%nat → (i0 < input_feasize)%nat →
  indices_buf !! ((b0 * output_channels + c0) * input_feasize + i0)%nat
    = Some index0 →
  Z.of_nat output_feasize ≤ index0 →
  Unpool.indices_in_range indices_buf ((b0 * output_channels + c0) * input_feasize + i0)
    output_feasize →
  Unpool.Unpool T zero data_as I x indices out_dims
  = Fatal InvalidArgument
      "index should less than output tensor height * output tensor width.".
Proof.
  intros Hinput Hindices Hbatch Hb0 Hc0 Hi0 Hindex0 Hlarge Hrange.
  rewrite Unpool_loops.
  apply (unpool_loops_index_too_large _ _ _ _ _ _ _ _ b0 c0 i0 index0); try done.
  unfold Unpool.Alloc_zero. rewrite length_replicate, numel_4.
  rewrite <- !Nat2Z.inj_mul, Nat2Z.id.
  rewrite <- !Nat.mul_assoc. apply Nat.mul_le_mono_r. exact Hbatch.
Qed.

Lemma Alloc_zero_length :
  length (Unpool.Alloc_zero T zero out_dims)
  = (out_batch * output_channels * output_feasize)%nat.
Proof.
  unfold Unpool.Alloc_zero. rewrite length_replicate, numel_4.
  rewrite <- !Nat2Z.inj_mul, Nat2Z.id. lia.
Qed.

(** X19: the output of [Unpool] on indices within range, position by
    position. The output has the size of [out]. A position of an output
    plane that no index of the matching input plane names is zero; a
    position that is named holds the input element of the last index that
    names it (so with distinct indices in every plane, reading the output at
    the indices gives the input back); and the positions after the last
    plane written are zero. *)
Theorem Unpool_output :
  (planes * input_feasize ≤ length (Unpool.data x))%nat →
  (planes * input_feasize ≤ length indices_buf)%nat →
  (batch_size ≤ out_batch)%nat →
  Unpool.indices_in_range indices_buf (planes * input_feasize) output_feasize →
  ∃ out,
    Unpool.Unpool T zero data_as I x indices out_dims = Ok out ∧
    length out = (out_batch * output_channels * output_feasize)%nat ∧
    (∀ k r, (k < planes)%nat → (r < output_feasize)%nat →
       (∀ j, (j < input_feasize)%nat →
          indices_buf !! (k * input_feasize + j)%nat ≠ Some (Z.of_nat r)) →
       out !! (k * output_feasize + r)%nat = Some zero) ∧
    (∀ k j index v, (k < planes)%nat → (j < input_feasize)%nat →
       indices_buf !! (k * input_feasize + j)%nat = Some index →
       Unpool.data x !! (k * input_feasize + j)%nat = Some v →
       (∀ j', (j < j' < input_feasize)%nat →
          indices_buf !! (k * input_feasize + j')%nat ≠ Some index) →
       out !! (k * output_feasize + Z.to_nat index)%nat = Some v) ∧
    (∀ q, (planes * output_feasize ≤ q < length out)%nat → out !! q = Some zero).
Proof.
  intros Hinput Hindices Hbatch Hrange.
  assert (Hplanes : (planes * output_feasize
                     ≤ length (Unpool.Alloc_zero T zero out_dims))%nat).
  { rewrite Alloc_zero_length. rewrite <- !Nat.mul_assoc.
    by apply Nat.mul_le_mono_r. }
  assert (Hzero : ∀ q, (q < out_batch * output_channels * output_feasize)%nat →
            Unpool.Alloc_zero T zero out_dims !! q = Some zero).
  { intros q Hq. rewrite <- Alloc_zero_length in Hq. unfold Unpool.Alloc_zero in *.
    rewrite length_replicate in Hq. by apply lookup_replicate_2. }
  destruct (unpool_writes_pointwise T (Unpool.data x) indices_buf input_feasize
              output_feasize planes (Unpool.Alloc_zero T zero out_dims) Hrange Hplanes)
    as (Huntouched & Hlast & Hbeyond).
  eexists. split; [rewrite Unpool_loops; by apply unpool_loops_in_range|].
  rewrite unpool_writes_length, Alloc_zero_length. split_and!.
  - done.
  - intros k r Hk Hr Hnone. rewrite (Huntouched k r Hk Hr Hnone). apply Hzero.
    rewrite Alloc_zero_length in Hplanes.
    assert (S k * output_feasize ≤ planes * output_feasize)%nat
      by (apply Nat.mul_le_mono_r; lia).
    lia.
  - exact Hlast.
  - intros q [Hq Hlt]. rewrite (Hbeyond q Hq). by apply Hzero.
Qed.

(** X24: [Unpool] takes the number of planes from the batch size of [x] and
    the channels of [out], and never compares it with the size of [x]. When
    the buffer of [x] holds fewer elements than these planes need, and the
    indices read name positions of their output planes, the kernel reads past
    the end of the input buffer: its behaviour is undefined, and no error is
    thrown. *)
Theorem Unpool_short_input :
  (length (Unpool.data x) < planes * input_feasize)%nat →
  (planes * input_feasize ≤ length indices_buf)%nat →
  (batch_size ≤ out_batch)%nat →
  Unpool.indices_in_range indices_buf (planes * input_feasize) output_feasize →
  Unpool.Unpool T zero data_as I x indices out_dims = Undefined.
Proof.
  intros Hinput Hindices Hbatch Hrange. rewrite Unpool_loops.
  apply unpool_loops_short_input; [done|done| |done].
  rewrite Alloc_zero_length. rewrite <- !Nat.mul_assoc.
  by apply Nat.mul_le_mono_r.
Qed.

End UnpoolKernel.

Lemma numel_5 (a b c d e : Z) : Unpool.numel [a; b; c; d; e] = a * b * c * d * e.
Proof. unfold Unpool.numel. cbn [foldr]. lia. Qed.

Section Unpool3dKernel.

Variable T : Type.
Variable zero : T.
Context {DataType : Type} `{!EqDecision DataType}.
Variable data_as : Unpool.IndT → Unpool.DenseTensor DataType Z → Result (list Z).

Variables (I : Unpool.IndT) (x : Unpool.DenseTensor DataType T)
  (indices : Unpool.DenseTensor DataType Z) (indices_buf : list Z).

(** The dimensions of [x] and of [out]: five each, every one an [int]. *)
Variables (batch_size input_depth input_height input_width : nat) (channels : Z).
Variables (out_batch output_channels output_depth output_height output_width : nat).

#[local] Abbreviation out_dims :=
  [Z.of_nat out_batch; Z.of_nat output_channels; Z.of_nat output_depth;
   Z.of_nat output_height; Z.of_nat output_width].
#[local] Abbreviation input_feasize := (input_depth * input_height * input_width)%nat.
#[local] Abbreviation output_feasize :=
  (output_depth * output_height * output_width)%nat.
#[local] Abbreviation planes := (batch_size * output_channels)%nat.

Hypothesis x_dims :
  Unpool.dims x = [Z.of_nat batch_size; channels; Z.of_nat input_depth;
                   Z.of_nat input_height; Z.of_nat input_width].
Hypothesis batch_size_int : Z.of_nat batch_size < 2 ^ 31.
Hypothesis input_depth_int : Z.of_nat input_depth < 2 ^ 31.
Hypothesis input_height_int : Z.of_nat input_height < 2 ^ 31.
Hypothesis input_width_int : Z.of_nat input_width < 2 ^ 31.
Hypothesis output_channels_int : Z.of_nat output_channels < 2 ^ 31.
Hypothesis output_depth_int : Z.of_nat output_depth < 2 ^ 31.
Hypothesis output_height_int : Z.of_nat output_height < 2 ^ 31.
Hypothesis output_width_int : Z.of_nat output_width < 2 ^ 31.
Hypothesis input_plane_int : Z.of_nat (input_depth * input_height) < 2 ^ 31.
Hypothesis output_plane_int : Z.of_nat (output_depth * output_height) < 2 ^ 31.
Hypothesis input_feasize_int : Z.of_nat input_feasize < 2 ^ 31.
Hypothesis output_feasize_int : Z.of_nat output_feasize < 2 ^ 31.
Hypothesis indices_data : data_as I indices = Ok indices_buf.

(** On such tensors the kernel is the three loops over a zeroed buffer. *)
Lemma Unpool3d_loops :
  Unpool.Unpool3d T zero data_as I x indices out_dims
  = Unpool.unpool_loops T (Unpool.data x) indices_buf (Z.of_nat batch_size)
      (Z.of_nat output_channels) (Z.of_nat input_feasize)
      (Z.of_nat output_feasize)
      "index should less than output tensor depth * output tensor height * output tensor width."
      (Unpool.Alloc_zero T zero out_dims).
Proof.
  unfold Unpool.Unpool3d. rewrite x_dims.
  change (at_ [Z.of_nat batch_size; channels; Z.of_nat input_depth;
               Z.of_nat input_height; Z.of_nat input_width] 0)
    with (Ok (Z.of_nat batch_size)).
  change (at_ [Z.of_nat batch_size; channels; Z.of_nat input_depth;
               Z.of_nat input_height; Z.of_nat input_width] 2)
    with (Ok (Z.of_nat input_depth)).
  change (at_ [Z.of_nat batch_size; channels; Z.of_nat input_depth;
               Z.of_nat input_height; Z.of_nat input_width] 3)
    with (Ok (Z.of_nat input_height)).
  change (at_ [Z.of_nat batch_size; channels; Z.of_nat input_depth;
               Z.of_nat input_height; Z.of_nat input_width] 4)
    with (Ok (Z.of_nat input_width)).
  change (at_ out_dims 1) with (Ok (Z.of_nat output_channels)).
  change (at_ out_dims 2) with (Ok (Z.of_nat output_depth)).
  change (at_ out_dims 3) with (Ok (Z.of_nat output_height)).
  change (at_ out_dims 4) with (Ok (Z.of_nat output_width)).
  cbn [fmap Result_fmap]. bind_simpl.
  rewrite !to_int_small by lia.
  rewrite (int_mul_small input_depth input_height) by done. bind_simpl.
  rewrite (int_mul_small (input_depth * input_height) input_width) by done.
  rewrite (int_mul_small output_depth output_height) by done. bind_simpl.
  rewrite (int_mul_small (output_depth * output_height) output_width) by done.
  bind_simpl. rewrite indices_data. by bind_simpl.
Qed.

(** X20: [Unpool3d] on five-dimensional tensors whose sizes fit [int] runs
    the same loops with the feature sizes depth * height * width: on indices
    within range it returns the zeroed output with every input element
    written at the position its index names, and it throws
    [InvalidArgument] at the first index that is not below the output
    feature size. *)
Theorem Unpool3d_loops_outcome :
  (planes * input_feasize ≤ length (Unpool.data x))%nat →
  (planes * input_feasize ≤ length indices_buf)%nat →
  (batch_size ≤ out_batch)%nat →
  (Unpool.indices_in_range indices_buf (planes * input_feasize) output_feasize →
   Unpool.Unpool3d T zero data_as I x indices out_dims
   = Ok (Unpool.unpool_writes (Unpool.data x) indices_buf planes input_feasize
           output_feasize (Unpool.Alloc_zero T zero out_dims))) ∧
  (∀ b0 c0 i0 index0,
     (b0 < batch_size)%nat → (c0 < output_channels)%nat → (i0 < input_feasize)%nat →
     indices_buf !! ((b0 * output_channels + c0) * input_feasize + i0)%nat
       = Some index0 →
     Z.of_nat output_feasize ≤ index0 →
     Unpool.indices_in_range indices_buf ((b0 * output_channels + c0) * input_feasize + i0)
       output_feasize →
     Unpool.Unpool3d T zero data_as I x indices out_dims
     = Fatal InvalidArgument
         "index should less than output tensor depth * output tensor height * output tensor width.").
Proof.
  intros Hinput Hindices Hbatch.
  assert (Hplanes : (planes * output_feasize
                     ≤ length (Unpool.Alloc_zero T zero out_dims))%nat).
  { unfold Unpool.Alloc_zero. rewrite length_replicate, numel_5.
    rewrite <- !Nat2Z.inj_mul, Nat2Z.id.
    rewrite <- !Nat.mul_assoc. by apply Nat.mul_le_mono_r. }
  rewrite Unpool3d_loops. split.
  - intros Hrange. by apply unpool_loops_in_range.
  - intros b0 c0 i0 index0 Hb0 Hc0 Hi0 Hindex0 Hlarge Hrange.
    by apply (unpool_loops_index_too_large _ _ _ _ _ _ _ _ b0 c0 i0 index0).
Qed.

End Unpool3dKernel.

Lemma Unpool_in_range_witness :
  Unpool.Unpool Z 0 plain_data Unpool.int x_pair indices_exchange [1; 1; 1; 2]
  = Ok [8; 7].
Proof.
  apply (Unpool_in_range Z 0 plain_data Unpool.int x_pair indices_exchange [1; 0]
           1 1 2 1 1 1 1 2); try reflexivity; try (simpl; lia).
  intros j index Hj Hlt.
  destruct j as [|[|j]]; simpl in *; [injection Hj as <-; lia..|lia].
Defined.

Lemma Unpool_index_too_large_witness :
  Unpool.Unpool Z 0 plain_data Unpool.int x_pair indices_too_large [1; 1; 1; 2]
  = Fatal InvalidArgument
      "index should less than output tensor height * output tensor width.".
Proof.
  apply (Unpool_index_too_large Z 0 plain_data Unpool.int x_pair indices_too_large
           [0; 2] 1 1 2 1 1 1 1 2 eq_refl eq_refl eq_refl eq_refl eq_refl eq_refl
           eq_refl eq_refl eq_refl eq_refl 0%nat 0%nat 1%nat 2);
    try reflexivity; try (simpl; lia).
  intros j index Hj Hlt.
  destruct j as [|j]; simpl in *; [injection Hj as <-; lia|lia].
Defined.

Lemma Unpool_output_witness :
  ∃ out,
    Unpool.Unpool Z 0 plain_data Unpool.int x_pair indices_twice [1; 1; 1; 3] = Ok out ∧
    length out = 3%nat ∧
    out !! 0%nat = Some 0 ∧ out !! 1%nat = Some 8 ∧ out !! 2%nat = Some 0.
Proof.
  destruct (Unpool_output Z 0 plain_data Unpool.int x_pair indices_twice [1; 1]
              1 1 2 1 1 1 1 3 eq_refl eq_refl eq_refl eq_refl eq_refl eq_refl
              eq_refl eq_refl eq_refl eq_refl)
    as (out & Hout & Hlen & Hzero & Hlast & _).
  - simpl. lia.
  - simpl. lia.
  - lia.
  - intros j index Hj Hlt.
    destruct j as [|[|j]]; simpl in *; [injection Hj as <-; lia..|lia].
  - exists out. split_and!; [exact Hout|exact Hlen|..].
    + apply (Hzero 0%nat 0%nat); [lia..|].
      intros j Hj. destruct j as [|[|j]]; simpl in *; [discriminate..|lia].
    + apply (Hlast 0%nat 1%nat 1 8); [lia|simpl; lia|reflexivity|reflexivity|].
      intros j' Hj'. simpl in Hj'. lia.
    + apply (Hzero 0%nat 2%nat); [lia|simpl; lia|].
      intros j Hj. destruct j as [|[|j]]; simpl in *; [discriminate..|lia].
Defined.

Lemma Unpool_short_input_witness :
  Unpool.Unpool Z 0 plain_data Unpool.int x_pair indices_two_channels [1; 2; 1; 2]
  = Undefined.
Proof.
  apply (Unpool_short_input Z 0 plain_data Unpool.int x_pair indices_two_channels
           [1; 0; 1; 0] 1 1 2 1 1 2 1 2); try reflexivity; try (simpl; lia).
  intros j index Hj Hlt.
  destruct j as [|[|[|[|j]]]]; simpl in *; [injection Hj as <-; lia..|lia].
Defined.

Lemma Unpool3d_loops_outcome_witness :
  Unpool.Unpool3d Z 0 plain_data Unpool.int x3d_pair indices3d_exchange
    [1; 1; 1; 1; 2] = Ok [8; 7] ∧
  Unpool.Unpool3d Z 0 plain_data Unpool.int x3d_pair indices3d_too_large
    [1; 1; 1; 1; 2]
  = Fatal InvalidArgument
      "index should less than output tensor depth * output tensor height * output tensor width.".
Proof.
  split.
  - apply (Unpool3d_loops_outcome Z 0 plain_data Unpool.int x3d_pair
             indices3d_exchange [1; 0] 1 1 1 2 1 1 1 1 1 2);
      try reflexivity; try (simpl; lia).
    intros j index Hj Hlt.
    destruct j as [|[|j]]; simpl in *; [injection Hj as <-; lia..|lia].
  - apply (proj2 (Unpool3d_loops_outcome Z 0 plain_data Unpool.int x3d_pair
                    indices3d_too_large [0; 2] 1 1 1 2 1 1 1 1 1 2
                    eq_refl eq_refl eq_refl eq_refl eq_refl eq_refl eq_refl eq_refl
                    eq_refl eq_refl eq_refl eq_refl eq_refl eq_refl
                    (le_n 2) (le_n 2) (le_n 1))
             0%nat 0%nat 1%nat 2);
      try reflexivity; try (simpl; lia).
    intros j index Hj Hlt.
    destruct j as [|j]; simpl in *; [injection Hj as <-; lia|lia].
Defined.

(** * What every returned output satisfies *)

(** What a loop that returns keeps. *)
Lemma foldlR_Ok_invariant {A B} (F : A → B → Result A) (P : A → Prop)
    (l : list B) (a a' : A) :
  (∀ a i a', P a → F a i = Ok a' → P a') →
  P a → foldlR F a l = Ok a' → P a'.
Proof.
  intros Hstep. revert a. induction l as [|i l IH]; intros a Ha; cbn [foldlR].
  - by intros [= <-].
  - destruct (F a i) as [a1| |] eqn:Hi; bind_simpl; [|done..].
    apply IH. by eapply Hstep.
Qed.

Section UnpoolSafety.

Variable T : Type.
Variable zero : T.
Context {DataType : Type} `{!EqDecision DataType}.
Variable data_as : Unpool.IndT → Unpool.DenseTensor DataType Z → Result (list Z).

(** A buffer of the size of [output] that holds only [zero] and elements of
    the input buffer. *)
#[local] Abbreviation kept input_buf output buf :=
  (length buf = length output ∧ Forall (fun v => v = zero ∨ v ∈ input_buf) buf).

Lemma unpool_loops_kept (input_buf : list T) (indices_buf : list Z)
    (batch_size output_channels input_feasize output_feasize : Z) (message : string)
    (output out : list T) :
  Forall (fun v => v = zero ∨ v ∈ input_buf) output →
  Unpool.unpool_loops T input_buf indices_buf batch_size output_channels
    input_feasize output_feasize message output = Ok out →
  kept input_buf output out.
Proof.
  intros Houtput. unfold Unpool.unpool_loops.
  destruct (foldlR _ _ _) as [st| |] eqn:Hloops; bind_simpl; [|done..].
  intros [= <-].
  apply (foldlR_Ok_invariant _ (fun st => kept input_buf output st.1.1.1))
    in Hloops; [done| |done].
  intros st0 b st1 Hst0.
  apply (foldlR_Ok_invariant _ (fun st => kept input_buf output st.1.1.1)); [|done].
  clear. intros [[[buf input_data] indices_data] output_data] c st' Hbuf.
  unfold Unpool.unpool_plane.
  destruct (foldlR _ buf _) as [buf'| |] eqn:Hplane; bind_simpl; [|done..].
  intros [= <-]. cbn [fst].
  apply (foldlR_Ok_invariant _ (fun buf => kept input_buf output buf)) in Hplane;
    [done| |done].
  clear. intros buf i buf' [Hlen Hall].
  destruct (at_ indices_buf _) as [index| |]; bind_simpl; [|done..].
  destruct (decide (index < output_feasize)); [|done].
  destruct (at_ input_buf _) as [v| |] eqn:Hv; bind_simpl; [|done..].
  unfold Unpool.store. destruct (decide _) as [Hin|]; [|done]. intros [= <-].
  split; [by rewrite length_insert|].
  apply Forall_insert; [done|]. right.
  unfold at_ in Hv. destruct (decide _); [|done].
  destruct (input_buf !! _) eqn:Hlookup; [|done]. injection Hv as <-.
  by eapply list_elem_of_lookup_2.
Qed.

Lemma Alloc_zero_kept (input_buf : list T) (out_dims : list Z) :
  Forall (fun v => v = zero ∨ v ∈ input_buf) (Unpool.Alloc_zero T zero out_dims).
Proof. apply Forall_replicate. by left. Qed.

(** X23: whatever the tensors and the indices, an output that [Unpool] or
    [Unpool3d] returns has the number of elements of [out], and each of its
    elements is zero or an element of [x]. *)
Theorem Unpool_returns_safe (I : Unpool.IndT) (x : Unpool.DenseTensor DataType T)
    (indices : Unpool.DenseTensor DataType Z) (out_dims : list Z) (out : list T) :
  (Unpool.Unpool T zero data_as I x indices out_dims = Ok out ∨
   Unpool.Unpool3d T zero data_as I x indices out_dims = Ok out) →
  length out = Z.to_nat (Unpool.numel out_dims) ∧
  Forall (fun v => v = zero ∨ v ∈ Unpool.data x) out.
Proof.
  assert (Hlen : length (Unpool.Alloc_zero T zero out_dims)
                 = Z.to_nat (Unpool.numel out_dims))
    by apply length_replicate.
  rewrite <- Hlen.
  intros [H|H]; [unfold Unpool.Unpool in H|unfold Unpool.Unpool3d in H];
    repeat
      (match type of H with
       | (?m ≫= _) = Ok _ =>
           destruct m; cbn [mbind Result_bind mret Result_ret] in H; [|done..]
       end);
    apply unpool_loops_kept in H; auto using Alloc_zero_kept.
Qed.

End UnpoolSafety.

Lemma Unpool_returns_safe_witness :
  length [6; 0] = Z.to_nat (Unpool.numel [1; 2; 1; 1]) ∧
  Forall (fun v => v = 0 ∨ v ∈ Unpool.data x_two) [6; 0].
Proof.
  apply (Unpool_returns_safe Z 0 plain_data Unpool.int x_two indices_second_negative
           [1; 2; 1; 1] [6; 0]).
  left. vm_compute. reflexivity.
Defined.
